(** * CommCoreModule: the native bridge of the Comm client

    A shallow embedding of
    [native/cpp/CommonCpp/NativeModules/CommCoreModule.cpp]: the JSI payload
    translation, the worker tasks with their [try]/[catch] blocks, the
    [scheduleOrRun] dispatch onto the database and crypto workers, the
    callbacks handed to the JS invoker, and the calls each of them makes on
    the store, the crypto module and the secure store.

    Line numbers in comments refer to that file. *)

From Stdlib Require Import ZArith Ascii String List Lia.
From stdpp Require Import base option list strings pretty gmap.

Set Warnings "-register-all".
Local Open Scope string_scope.
Local Open Scope list_scope.
Local Open Scope Z_scope.

(** ** Exceptions and results *)

(** The dynamic type of a C++ exception: [std::system_error], the one every
    handler of the module catches, and the others the code can meet, which
    none catches.  [undefined_behaviour] is no exception of C++: it marks a
    step whose behaviour C++ leaves undefined.  The model stops the task
    there; C++ promises nothing of the program from such a step on, so what
    is stated of a run holds of the program up to the first such step. *)
Inductive exn : Type :=
| std_system_error (what : string)
| std_invalid_argument (what : string)
| std_out_of_range (what : string)
| std_runtime_error (what : string)
| jsi_JSError (what : string)
| undefined_behaviour (what : string).

(** A call either returns or throws. *)
Inductive outcome (A : Type) : Type :=
| Ret (a : A)
| Throw (e : exn).
Arguments Ret {A} a.
Arguments Throw {A} e.

#[global] Instance outcome_ret : MRet outcome := fun A a => Ret a.
#[global] Instance outcome_bind : MBind outcome := fun A B f m =>
  match m with
  | Ret a => f a
  | Throw e => Throw e
  end.

Definition returned {A} (o : outcome A) : bool :=
  match o with Ret _ => true | Throw _ => false end.

(** The step left the defined behaviour of C++. *)
Definition is_undefined {A} (o : outcome A) : bool :=
  match o with Throw (undefined_behaviour _) => true | _ => false end.

(** ** Strings as the code uses them *)

(** [std::string::empty()]; [error.size()] used as a condition is its
    negation. *)
Definition str_empty (s : string) : bool :=
  match s with
  | EmptyString => true
  | String _ _ => false
  end.

(** [std::string::substr(pos, n)]: at most [n] characters from [pos]. *)
Definition substr (s : string) (pos n : nat) : string := substring pos n s.

(** [std::isspace] in the C locale. *)
Definition isspace (c : ascii) : bool :=
  let n := Z.of_nat (nat_of_ascii c) in
  ((9 <=? n) && (n <=? 13)) || (n =? 32).

Definition digit_of (c : ascii) : option Z :=
  let n := Z.of_nat (nat_of_ascii c) in
  if (48 <=? n) && (n <=? 57) then Some (n - 48) else None.

Fixpoint skip_space (s : string) : string :=
  match s with
  | String c s' => if isspace c then skip_space s' else s
  | EmptyString => s
  end.

Fixpoint read_digits (acc : Z) (s : string) : Z :=
  match s with
  | String c s' =>
      match digit_of c with
      | Some d => read_digits (10 * acc + d) s'
      | None => acc
      end
  | EmptyString => acc
  end.

(** The base-10 conversion behind [std::stoi] and [std::stoll]: leading
    white space, an optional sign, then the longest run of digits; what
    follows the digits is ignored.  [None] when there is no digit to
    convert. *)
Definition strto (s : string) : option Z :=
  let s1 := skip_space s in
  let '(neg, s2) :=
    match s1 with
    | String "-"%char r => (true, r)
    | String "+"%char r => (false, r)
    | _ => (false, s1)
    end in
  match s2 with
  | String c _ =>
      match digit_of c with
      | Some _ => Some (if neg : bool then - read_digits 0 s2 else read_digits 0 s2)
      | None => None
      end
  | EmptyString => None
  end.

Definition INT_MIN : Z := - 2 ^ 31.
Definition INT_MAX : Z := 2 ^ 31 - 1.
Definition LLONG_MIN : Z := - 2 ^ 63.
Definition LLONG_MAX : Z := 2 ^ 63 - 1.

(** [std::stoi]: [std::invalid_argument] when nothing converts,
    [std::out_of_range] when the value does not fit an [int]. *)
Definition stoi (s : string) : outcome Z :=
  match strto s with
  | None => Throw (std_invalid_argument "stoi")
  | Some v =>
      if (INT_MIN <=? v) && (v <=? INT_MAX) then Ret v
      else Throw (std_out_of_range "stoi")
  end.

(** [std::stoll], the same for [long long]. *)
Definition stoll (s : string) : outcome Z :=
  match strto s with
  | None => Throw (std_invalid_argument "stoll")
  | Some v =>
      if (LLONG_MIN <=? v) && (v <=? LLONG_MAX) then Ret v
      else Throw (std_out_of_range "stoll")
  end.

(** ** JSI values *)

(** What a [jsi::Value] of a caller payload can be.  An object is its
    property list (the first binding of a name is the one read); an array is
    an object too, as in JSI. *)
Inductive Value : Type :=
| VUndefined
| VNull
| VBool (b : bool)
| VNumber (n : Z)
| VString (s : string)
| VObject (props : list (string * Value))
| VArray (elems : list Value).

Definition isString (v : Value) : bool :=
  match v with VString _ => true | _ => false end.

Definition isObject (v : Value) : bool :=
  match v with VObject _ | VArray _ => true | _ => false end.

(** [jsi::Value::asString]: throws [jsi::JSError] on anything else. *)
Definition asString (v : Value) : outcome string :=
  match v with
  | VString s => Ret s
  | _ => Throw (jsi_JSError "Value is not a String")
  end.

(** [jsi::Value::asObject]. *)
Definition asObject (v : Value) : outcome Value :=
  if isObject v then Ret v else Throw (jsi_JSError "Value is not an Object").

(** [jsi::Object::asArray]. *)
Definition asArray (o : Value) : outcome (list Value) :=
  match o with
  | VArray elems => Ret elems
  | _ => Throw (jsi_JSError "Object is not an array")
  end.

Fixpoint assoc (name : string) (props : list (string * Value)) : option Value :=
  match props with
  | [] => None
  | (k, v) :: rest => if String.eqb k name then Some v else assoc name rest
  end.

(** [jsi::Object::getProperty]: a missing property reads as [undefined]. *)
Definition getProperty (o : Value) (name : string) : Value :=
  match o with
  | VObject props => default VUndefined (assoc name props)
  | _ => VUndefined
  end.

Fixpoint setAssoc (name : string) (v : Value) (props : list (string * Value))
  : list (string * Value) :=
  match props with
  | [] => [(name, v)]
  | (k, v') :: rest =>
      if String.eqb k name then (k, v) :: rest else (k, v') :: setAssoc name v rest
  end.

(** [jsi::Object::setProperty]. *)
Definition setProperty (o : Value) (name : string) (v : Value) : Value :=
  match o with
  | VObject props => VObject (setAssoc name v props)
  | _ => o
  end.

(** [jsi::Array(rt, n)]: [n] slots holding [undefined]. *)
Definition newArray (n : nat) : list Value := replicate n VUndefined.

(** [jsi::Array::setValueAtIndex]: an index outside [0, size) throws. *)
Definition setValueAtIndex (arr : list Value) (i : nat) (v : Value)
  : outcome (list Value) :=
  if (i <? length arr)%nat then Ret (<[i:=v]> arr)
  else Throw (jsi_JSError "index out of range").

(** ** Records of the store *)

Record Draft : Type := mkDraft { draft_key : string; draft_text : string }.

(** [Message]: the fields in the order of the brace initialiser at lines
    306-314; the three [std::unique_ptr] fields are absent when null. *)
Record Message : Type := mkMessage {
  msg_id : string;
  msg_local_id : option string;
  msg_thread : string;
  msg_user : string;
  msg_type : Z;
  msg_future_type : option Z;
  msg_content : option string;
  msg_time : Z
}.

(** [Media], lines 333-334. *)
Record Media : Type := mkMedia {
  media_id : string;
  media_container : string;
  media_thread : string;
  media_uri : string;
  media_type : string;
  media_extras : string
}.

Definition OlmBuffer : Type := list Byte.byte.

Record OlmPersistSession : Type := mkOlmPersistSession {
  target_user_id : string;
  session_data : string
}.

(** [crypto::Persist]: the pickled account and the pickled sessions by peer. *)
Record Persist : Type := mkPersist {
  account : OlmBuffer;
  sessions : gmap string OlmBuffer
}.

(** A default-constructed [crypto::Persist]. *)
Definition emptyPersist : Persist := mkPersist [] ∅.

(** ** Message store operations *)

(** The four subclasses of [MessageStoreOperationBase] built at lines
    254-346, each with what its constructor receives. *)
Inductive MessageStoreOperation : Type :=
| RemoveMessagesOperation (ids : list string)
| RemoveMessagesForThreadsOperation (thread_ids : list string)
| ReplaceMessageOperation (msg : Message) (media_vector : list Media)
| RekeyMessageOperation (from to : string).

Definition REKEY_OPERATION : string := "rekey".
Definition REMOVE_OPERATION : string := "remove".
Definition REPLACE_OPERATION : string := "replace".
Definition REMOVE_MSGS_FOR_THREADS_OPERATION : string := "remove_messages_for_threads".

(** The loops at lines 259-262 and 271-275: every element must be a string. *)
Fixpoint asStrings (vs : list Value) : outcome (list string) :=
  match vs with
  | [] => Ret []
  | v :: rest =>
      s ← asString v;
      ss ← asStrings rest;
      Ret (s :: ss)
  end.

(** One turn of the loop at lines 320-336. *)
Definition parseMedia (msg_id thread : string) (v : Value) : outcome Media :=
  media_info ← asObject v;
  media_id ← asString (getProperty media_info "id");
  media_uri ← asString (getProperty media_info "uri");
  media_type ← asString (getProperty media_info "type");
  media_extras ← asString (getProperty media_info "extras");
  Ret (mkMedia media_id msg_id thread media_uri media_type media_extras).

Fixpoint parseMediaInfos (msg_id thread : string) (vs : list Value)
  : outcome (list Media) :=
  match vs with
  | [] => Ret []
  | v :: rest =>
      m ← parseMedia msg_id thread v;
      ms ← parseMediaInfos msg_id thread rest;
      Ret (m :: ms)
  end.

(** Lines 280-340: the payload of a ["replace"] operation. *)
Definition parseReplace (op : Value) : outcome MessageStoreOperation :=
  msg_obj ← asObject (getProperty op "payload");
  msg_id ← asString (getProperty msg_obj "id");
  let maybe_local_id := getProperty msg_obj "local_id" in
  local_id ← (if isString maybe_local_id
              then s ← asString maybe_local_id; Ret (Some s)
              else Ret None);
  thread ← asString (getProperty msg_obj "thread");
  user ← asString (getProperty msg_obj "user");
  type ← (s ← asString (getProperty msg_obj "type"); stoi s);
  let maybe_future_type := getProperty msg_obj "future_type" in
  future_type ← (if isString maybe_future_type
                 then s ← asString maybe_future_type; n ← stoi s; Ret (Some n)
                 else Ret None);
  let maybe_content := getProperty msg_obj "content" in
  content ← (if isString maybe_content
             then s ← asString maybe_content; Ret (Some s)
             else Ret None);
  time ← (s ← asString (getProperty msg_obj "time"); stoll s);
  let message :=
    mkMessage msg_id local_id thread user type future_type content time in
  media_vector ← (if isObject (getProperty msg_obj "media_infos")
                  then o ← asObject (getProperty msg_obj "media_infos");
                       media_infos ← asArray o;
                       parseMediaInfos msg_id thread media_infos
                  else Ret []);
  Ret (ReplaceMessageOperation message media_vector).

(** What one turn of the loop at lines 250-358 does with an element: push an
    operation, or leave through the [else] branch at line 347. *)
Inductive parsed : Type :=
| Supported (op : MessageStoreOperation)
| Unsupported (op_type : string).

Definition parseOperation (v : Value) : outcome parsed :=
  op ← asObject v;
  op_type ← asString (getProperty op "type");
  if String.eqb op_type REMOVE_OPERATION then
    payload_obj ← asObject (getProperty op "payload");
    o ← asObject (getProperty payload_obj "ids");
    msg_ids ← asArray o;
    removed_msg_ids ← asStrings msg_ids;
    Ret (Supported (RemoveMessagesOperation removed_msg_ids))
  else if String.eqb op_type REMOVE_MSGS_FOR_THREADS_OPERATION then
    payload_obj ← asObject (getProperty op "payload");
    o ← asObject (getProperty payload_obj "threadIDs");
    thread_ids ← asArray o;
    threads_to_remove_msgs_from ← asStrings thread_ids;
    Ret (Supported (RemoveMessagesForThreadsOperation threads_to_remove_msgs_from))
  else if String.eqb op_type REPLACE_OPERATION then
    r ← parseReplace op;
    Ret (Supported r)
  else if String.eqb op_type REKEY_OPERATION then
    rekey_payload ← asObject (getProperty op "payload");
    from ← asString (getProperty rekey_payload "from");
    to ← asString (getProperty rekey_payload "to");
    Ret (Supported (RekeyMessageOperation from to))
  else
    Ret (Unsupported op_type).

(** The loop at lines 250-358 with [messageStoreOps] as accumulator: the
    operations in the caller's order, or the type tag that made the function
    return from inside the loop, or the exception a payload raised. *)
Fixpoint parseOperations (operations : list Value)
    (messageStoreOps : list MessageStoreOperation)
  : outcome (list MessageStoreOperation + string) :=
  match operations with
  | [] => Ret (inl messageStoreOps)
  | v :: rest =>
      r ← parseOperation v;
      match r with
      | Supported op => parseOperations rest (messageStoreOps ++ [op])
      | Unsupported op_type => Ret (inr op_type)
      end
  end.

(** ** The network client *)

Inductive ChannelCredentials : Type :=
| SslCredentials
| InsecureChannelCredentials.

(** The arguments [network::Client] is constructed with at line 478. *)
Record Client : Type := mkClient {
  client_host : string;
  client_port : string;
  client_credentials : ChannelCredentials;
  client_userId : string;
  client_deviceToken : string
}.

(** ** Collaborators *)

(** The calls the module makes on [DatabaseManager::getQueryExecutor()], and
    [execute()] of a message store operation, which runs on the same
    executor. *)
Inductive StoreCall : Type :=
| QE_getDraft (key : string)
| QE_updateDraft (key text : string)
| QE_moveDraft (oldKey newKey : string)
| QE_getAllDrafts
| QE_removeAllDrafts
| QE_removeAllMessages
| QE_getAllMessages
| QE_beginTransaction
| QE_commitTransaction
| OP_execute (operation : MessageStoreOperation)
| QE_getOlmPersistAccountData
| QE_getOlmPersistSessionsData
| QE_storeOlmPersistData (persist : Persist).

Definition StoreRet (c : StoreCall) : Type :=
  match c with
  | QE_getDraft _ => string
  | QE_moveDraft _ _ => bool
  | QE_getAllDrafts => list Draft
  | QE_getAllMessages => list Message
  | QE_getOlmPersistAccountData => option string
  | QE_getOlmPersistSessionsData => list OlmPersistSession
  | QE_updateDraft _ _ | QE_removeAllDrafts | QE_removeAllMessages
  | QE_beginTransaction | QE_commitTransaction | OP_execute _
  | QE_storeOlmPersistData _ => unit
  end.

(** The store is a parameter: a state and, for each call, the result or the
    exception and the state it leaves. *)
Class QueryExecutor (DB : Type) : Type :=
  qe_call : forall c : StoreCall, DB -> outcome (StoreRet c) * DB.

(** The methods called on [crypto::CryptoModule]. *)
Inductive CryptoCall : Type :=
| CM_storeAsB64 (secretKey : string)
| CM_restoreFromB64 (secretKey : string) (persist : Persist)
| CM_getIdentityKeys
| CM_getOneTimeKeys.

Definition CryptoRet (c : CryptoCall) : Type :=
  match c with
  | CM_storeAsB64 _ => Persist
  | CM_restoreFromB64 _ _ => unit
  | CM_getIdentityKeys | CM_getOneTimeKeys => string
  end.

(** The crypto library is a parameter too: the constructor of
    [crypto::CryptoModule], its methods, [crypto::Persist::isEmpty] and
    [crypto::Tools::generateRandomString], which draws from a source of
    randomness [Rng]. *)
Class Crypto (CM Rng : Type) : Type := {
  cm_new : string -> string -> Persist -> outcome CM;
  cm_call : forall c : CryptoCall, CM -> outcome (CryptoRet c) * CM;
  isEmpty : Persist -> bool;
  generateRandomString : nat -> Rng -> string * Rng
}.

(** ** Tasks *)

Inductive Worker : Type := DatabaseWorker | CryptoWorker.

(** The closures of the module, each with what it captures by value.  The
    first group are the jobs given to [scheduleOrRun], the second the
    callbacks given to [jsInvoker_->invokeAsync]. *)
Inductive Task : Type :=
| GetDraftJob (promise : nat) (keyStr : string)
| UpdateDraftJob (promise : nat) (keyStr textStr : string)
| MoveDraftJob (promise : nat) (oldKeyStr newKeyStr : string)
| GetAllDraftsJob (promise : nat)
| RemoveAllDraftsJob (promise : nat)
| RemoveAllMessagesJob (promise : nat)
| GetAllMessagesJob (promise : nat)
| ProcessOperationsJob (promise : nat) (messageStoreOps : list MessageStoreOperation)
| LoadPersistJob (promise : nat) (userIdStr storedSecretKey : string)
| ConstructJob (promise : nat) (userIdStr storedSecretKey : string) (persist : Persist)
| StorePersistJob (promise : nat) (newPersist : Persist)
| GetUserPublicKeyJob (promise : nat)
| GetUserOneTimeKeysJob (promise : nat)
| Settle (promise : nat) (error : string) (value : Value)
| SettleDrafts (promise : nat) (error : string) (numDrafts : nat)
    (draftsVector : list Draft)
| SettleMessages (promise : nat) (error : string) (numMessages : nat)
| RejectUnsupported (promise : nat) (op_type : string).

Definition task_promise (t : Task) : nat :=
  match t with
  | GetDraftJob p _ | UpdateDraftJob p _ _ | MoveDraftJob p _ _
  | GetAllDraftsJob p | RemoveAllDraftsJob p | RemoveAllMessagesJob p
  | GetAllMessagesJob p | ProcessOperationsJob p _ | LoadPersistJob p _ _
  | ConstructJob p _ _ _ | StorePersistJob p _ | GetUserPublicKeyJob p
  | GetUserOneTimeKeysJob p | Settle p _ _ | SettleDrafts p _ _ _
  | SettleMessages p _ _ | RejectUnsupported p _ => p
  end.

(** The tasks of a list that will settle promise [p]. *)
Definition count_for (p : nat) (l : list Task) : nat :=
  length (filter (fun t => task_promise t = p) l).
Arguments count_for : simpl never.

(** ** Events *)

(** What a run leaves behind, oldest first: the collaborator calls made, the
    tasks handed to a worker thread or to the JS invoker, and the calls of
    [promise->resolve] and [promise->reject]. *)
Inductive Event : Type :=
| EvStore (c : StoreCall)
| EvCryptoNew (userId secretKey : string) (persist : Persist)
| EvCrypto (c : CryptoCall)
| EvGenerateRandomString (size : nat)
| EvSecureStoreSet (key value : string)
| EvScheduleTask (th : Worker) (t : Task)
| EvInvokeAsync (t : Task)
| EvResolve (promise : nat) (value : Value)
| EvReject (promise : nat) (error : string).

(** ** The module's state *)

(** The members of [CommCoreModule] and what they point to: the two
    collaborators' states, the secure store, the worker threads ([None] is
    [nullptr], [Some q] a thread with the tasks [q] waiting, oldest first),
    the callbacks waiting at the JS invoker, the promises handed out so far
    and the events so far. *)
Record World (DB CM Rng : Type) : Type := mkWorld {
  database : DB;
  cryptoModule : option CM;
  networkClient : option Client;
  secureStore : gmap string string;
  rng : Rng;
  databaseThread : option (list Task);
  cryptoThread : option (list Task);
  networkThread : option (list Task);
  jsQueue : list Task;
  nextPromise : nat;
  trace : list Event
}.
Arguments mkWorld {DB CM Rng}.
Arguments database {DB CM Rng}.
Arguments cryptoModule {DB CM Rng}.
Arguments networkClient {DB CM Rng}.
Arguments secureStore {DB CM Rng}.
Arguments rng {DB CM Rng}.
Arguments databaseThread {DB CM Rng}.
Arguments cryptoThread {DB CM Rng}.
Arguments networkThread {DB CM Rng}.
Arguments jsQueue {DB CM Rng}.
Arguments nextPromise {DB CM Rng}.
Arguments trace {DB CM Rng}.

Section CommCoreModule.

Context {DB CM Rng : Type} {store : QueryExecutor DB} {crypto : Crypto CM Rng}.

(** [secureStoreAccountDataKey], a constant of the header. *)
Variable secureStoreAccountDataKey : string.

Local Abbreviation World := (World DB CM Rng).

Definition set_database (d : DB) (w : World) : World :=
  mkWorld d (cryptoModule w) (networkClient w) (secureStore w) (rng w)
    (databaseThread w) (cryptoThread w) (networkThread w) (jsQueue w)
    (nextPromise w) (trace w).

Definition set_cryptoModule (m : option CM) (w : World) : World :=
  mkWorld (database w) m (networkClient w) (secureStore w) (rng w)
    (databaseThread w) (cryptoThread w) (networkThread w) (jsQueue w)
    (nextPromise w) (trace w).

Definition set_networkClient (c : option Client) (w : World) : World :=
  mkWorld (database w) (cryptoModule w) c (secureStore w) (rng w)
    (databaseThread w) (cryptoThread w) (networkThread w) (jsQueue w)
    (nextPromise w) (trace w).

Definition set_secureStore (s : gmap string string) (w : World) : World :=
  mkWorld (database w) (cryptoModule w) (networkClient w) s (rng w)
    (databaseThread w) (cryptoThread w) (networkThread w) (jsQueue w)
    (nextPromise w) (trace w).

Definition set_rng (r : Rng) (w : World) : World :=
  mkWorld (database w) (cryptoModule w) (networkClient w) (secureStore w) r
    (databaseThread w) (cryptoThread w) (networkThread w) (jsQueue w)
    (nextPromise w) (trace w).

Definition set_databaseThread (q : option (list Task)) (w : World) : World :=
  mkWorld (database w) (cryptoModule w) (networkClient w) (secureStore w) (rng w)
    q (cryptoThread w) (networkThread w) (jsQueue w)
    (nextPromise w) (trace w).

Definition set_cryptoThread (q : option (list Task)) (w : World) : World :=
  mkWorld (database w) (cryptoModule w) (networkClient w) (secureStore w) (rng w)
    (databaseThread w) q (networkThread w) (jsQueue w)
    (nextPromise w) (trace w).

Definition set_networkThread (q : option (list Task)) (w : World) : World :=
  mkWorld (database w) (cryptoModule w) (networkClient w) (secureStore w) (rng w)
    (databaseThread w) (cryptoThread w) q (jsQueue w)
    (nextPromise w) (trace w).

Definition set_jsQueue (q : list Task) (w : World) : World :=
  mkWorld (database w) (cryptoModule w) (networkClient w) (secureStore w) (rng w)
    (databaseThread w) (cryptoThread w) (networkThread w) q
    (nextPromise w) (trace w).

Definition set_nextPromise (n : nat) (w : World) : World :=
  mkWorld (database w) (cryptoModule w) (networkClient w) (secureStore w) (rng w)
    (databaseThread w) (cryptoThread w) (networkThread w) (jsQueue w)
    n (trace w).

Definition log (e : Event) (w : World) : World :=
  mkWorld (database w) (cryptoModule w) (networkClient w) (secureStore w) (rng w)
    (databaseThread w) (cryptoThread w) (networkThread w) (jsQueue w)
    (nextPromise w) (trace w ++ [e]).

(** ** The monad of the module's code: state and exceptions *)

Definition M (A : Type) : Type := World -> outcome A * World.

#[global] Instance M_ret : MRet M := fun A a w => (Ret a, w).
#[global] Instance M_bind : MBind M := fun A B f m w =>
  match m w with
  | (Ret a, w') => f a w'
  | (Throw e, w') => (Throw e, w')
  end.

(** A result computed without the state. *)
Definition lift {A} (o : outcome A) : M A := fun w => (o, w).

(** A step whose behaviour C++ leaves undefined. *)
Definition undefined {A} (what : string) : M A :=
  lift (Throw (undefined_behaviour what)).

(** [try { body } catch (std::system_error &e) { handler(e.what()) }]: what
    [body] did to the state before it threw stays done; an exception of
    another type goes through. *)
Definition try_catch {A} (body : M A) (handler : string -> M A) : M A := fun w =>
  match body w with
  | (Throw (std_system_error what), w') => handler what w'
  | r => r
  end.

(** *** Collaborator calls *)

Definition storeCall (c : StoreCall) : M (StoreRet c) := fun w =>
  let '(r, d) := qe_call c (database w) in
  (r, set_database d (log (EvStore c) w)).

(** [this->cryptoModule.reset(new crypto::CryptoModule(...))]: the member
    is assigned only when the constructor returns. *)
Definition newCryptoModule (userId secretKey : string) (persist : Persist)
  : M unit := fun w =>
  let w' := log (EvCryptoNew userId secretKey persist) w in
  match cm_new userId secretKey persist with
  | Ret m => (Ret tt, set_cryptoModule (Some m) w')
  | Throw e => (Throw e, w')
  end.

(** [this->cryptoModule->method(...)].  Both places that call a method do so
    with the member set (lines 426 and 487); on a null member the model
    raises, where C++ leaves the behaviour undefined. *)
Definition cryptoCall (c : CryptoCall) : M (CryptoRet c) := fun w =>
  match cryptoModule w with
  | Some m =>
      let '(r, m') := cm_call c m in
      (r, set_cryptoModule (Some m') (log (EvCrypto c) w))
  | None => (Throw (std_runtime_error "cryptoModule is null"), w)
  end.

Definition getCryptoModule : M (option CM) := fun w => (Ret (cryptoModule w), w).

(** Modelled from the spec: the secure secret store ([this->secureStore];
    its class is not under src/), [get(key) -> optional<string>] and
    [set(key, value)], synchronous and local: a finite map. *)
Definition secureStore_get (key : string) : M (option string) := fun w =>
  (Ret (secureStore w !! key), w).

(** [secureStore.set(key, value)] of the same model. *)
Definition secureStore_set (key value : string) : M unit := fun w =>
  (Ret tt, set_secureStore (<[key:=value]> (secureStore w))
             (log (EvSecureStoreSet key value) w)).

Definition generateRandom (size : nat) : M string := fun w =>
  let '(s, r) := generateRandomString size (rng w) in
  (Ret s, set_rng r (log (EvGenerateRandomString size) w)).

(** *** Promises, the JS invoker and the workers *)

Definition resolve (promise : nat) (value : Value) : M unit := fun w =>
  (Ret tt, log (EvResolve promise value) w).

Definition reject (promise : nat) (error : string) : M unit := fun w =>
  (Ret tt, log (EvReject promise error) w).

(** [jsInvoker_->invokeAsync(callback)]: the callback waits for the JS
    thread. *)
Definition invokeAsync (callback : Task) : M unit := fun w =>
  (Ret tt, set_jsQueue (jsQueue w ++ [callback]) (log (EvInvokeAsync callback) w)).

Definition workerThread (th : Worker) (w : World) : option (list Task) :=
  match th with
  | DatabaseWorker => databaseThread w
  | CryptoWorker => cryptoThread w
  end.

Definition set_workerThread (th : Worker) (q : option (list Task)) (w : World)
  : World :=
  match th with
  | DatabaseWorker => set_databaseThread q w
  | CryptoWorker => set_cryptoThread q w
  end.

(** [CommCoreModule::scheduleOrRun], lines 527-535.  [t] names the closure
    and [task] is what it does when called. *)
Definition scheduleOrRun (th : Worker) (t : Task) (task : M unit) : M unit :=
  fun w =>
  match workerThread th w with
  | Some queue =>
      (Ret tt, set_workerThread th (Some (queue ++ [t])) (log (EvScheduleTask th t) w))
  | None => task w
  end.

(** [createPromiseAsJSIValue(rt, func)]: a new promise, and [func] called
    with it before the promise is returned.  An exception that leaves [func]
    leaves the call; what the JS engine then does with the promise is not
    part of the model. *)
Definition createPromiseAsJSIValue (func : nat -> M unit) : M nat := fun w =>
  let promise := nextPromise w in
  match func promise (set_nextPromise (S promise) w) with
  | (Ret _, w') => (Ret promise, w')
  | (Throw e, w') => (Throw e, w')
  end.

(** [CommCoreModule::initializeThreads], lines 537-547. *)
Definition initializeThreads (w : World) : World :=
  let w1 := match databaseThread w with
            | None => set_databaseThread (Some []) w
            | Some _ => w
            end in
  let w2 := match cryptoThread w1 with
            | None => set_cryptoThread (Some []) w1
            | Some _ => w1
            end in
  match networkThread w2 with
  | None => set_networkThread (Some []) w2
  | Some _ => w2
  end.

(** ** Callbacks on the JS thread *)

(** The callback shared by most operations (lines 28-35, 54-60, 84-90,
    146-152, 168-174, 373-379, 439-445, 451-457, 492-498, 515-521):
    [if (error.size()) promise->reject(error); else promise->resolve(value)]. *)
Definition settle (promise : nat) (error : string) (value : Value) : M unit :=
  if negb (str_empty error) then reject promise error
  else resolve promise value.

Definition draftToJSI (draft : Draft) : Value :=
  let jsiDraft := VObject [] in
  let jsiDraft := setProperty jsiDraft "key" (VString (draft_key draft)) in
  setProperty jsiDraft "text" (VString (draft_text draft)).

(** The loop at lines 120-128, with [jsiDrafts] and [writeIndex] as
    accumulators. *)
Fixpoint writeDrafts (draftsVector : list Draft) (jsiDrafts : list Value)
    (writeIndex : nat) : outcome (list Value) :=
  match draftsVector with
  | [] => Ret jsiDrafts
  | draft :: rest =>
      if str_empty (draft_text draft) then writeDrafts rest jsiDrafts writeIndex
      else
        jsiDrafts' ← setValueAtIndex jsiDrafts writeIndex (draftToJSI draft);
        writeDrafts rest jsiDrafts' (S writeIndex)
  end.

(** The callback of [getAllDrafts], lines 112-130. *)
Definition settleDrafts (promise : nat) (error : string) (numDrafts : nat)
    (draftsVector : list Draft) : M unit :=
  if negb (str_empty error) then reject promise error
  else
    jsiDrafts ← lift (writeDrafts draftsVector (newArray numDrafts) 0);
    resolve promise (VArray jsiDrafts).

Definition setOptional (o : Value) (name : string) (v : option Value) : Value :=
  match v with
  | Some x => setProperty o name x
  | None => o
  end.

(** Lines 203-228; [std::to_string] prints the decimal digits. *)
Definition messageToJSI (message : Message) : Value :=
  let m := VObject [] in
  let m := setProperty m "id" (VString (msg_id message)) in
  let m := setOptional m "local_id" (VString <$> msg_local_id message) in
  let m := setProperty m "thread" (VString (msg_thread message)) in
  let m := setProperty m "user" (VString (msg_user message)) in
  let m := setProperty m "type" (VString (pretty (msg_type message))) in
  let m := setOptional m "future_type"
             ((fun n : Z => VString (pretty n)) <$> msg_future_type message) in
  let m := setOptional m "content" (VString <$> msg_content message) in
  setProperty m "time" (VString (pretty (msg_time message))).

Fixpoint writeMessages (messagesVector : list Message) (jsiMessages : list Value)
    (writeIndex : nat) : outcome (list Value) :=
  match messagesVector with
  | [] => Ret jsiMessages
  | message :: rest =>
      jsiMessages' ← setValueAtIndex jsiMessages writeIndex (messageToJSI message);
      writeMessages rest jsiMessages' (S writeIndex)
  end.

(** The callback of [getAllMessages], lines 195-233.  It captures [promise],
    [error] and [numMessages] by value and [messagesVector] by reference:
    the argument [messagesVector] is what the reference leads to when the
    callback runs, [None] when the job has returned and its local is
    destroyed.  The loop at line 202 then reads a destroyed object. *)
Definition settleMessages (promise : nat) (error : string) (numMessages : nat)
    (messagesVector : option (list Message)) : M unit :=
  if negb (str_empty error) then reject promise error
  else
    match messagesVector with
    | Some messagesVector =>
        jsiMessages ← lift (writeMessages messagesVector (newArray numMessages) 0);
        resolve promise (VArray jsiMessages)
    | None => undefined "messagesVector is read after its lifetime"
    end.

(** The callback at lines 352-355. *)
Definition rejectUnsupported (promise : nat) (op_type : string) : M unit :=
  reject promise ("unsupported operation: " +:+ op_type).

(** ** Jobs on the workers *)

(** Lines 20-36. *)
Definition getDraftJob (promise : nat) (keyStr : string) : M unit :=
  '(error, draftStr) ←
    try_catch (draftStr ← storeCall (QE_getDraft keyStr); mret ("", draftStr))
              (fun what => mret (what, ""));
  invokeAsync (Settle promise error (VString draftStr)).

(** Lines 47-61. *)
Definition updateDraftJob (promise : nat) (keyStr textStr : string) : M unit :=
  error ←
    try_catch (storeCall (QE_updateDraft keyStr textStr);; mret "")
              (fun what => mret what);
  invokeAsync (Settle promise error (VBool true)).

(** Lines 75-91. *)
Definition moveDraftJob (promise : nat) (oldKeyStr newKeyStr : string) : M unit :=
  '(error, result) ←
    try_catch (result ← storeCall (QE_moveDraft oldKeyStr newKeyStr);
               mret ("", result))
              (fun what => mret (what, false));
  invokeAsync (Settle promise error (VBool result)).

(** [count_if] with [!draft.text.empty()], lines 105-108. *)
Definition count_if {A} (pred : A -> bool) (l : list A) : nat :=
  length (filter (fun x => pred x = true) l).

(** Lines 99-131.  When the store throws, [numDrafts] is left without a
    value; the callback does not read it then. *)
Definition getAllDraftsJob (promise : nat) : M unit :=
  '(error, draftsVector, numDrafts) ←
    try_catch (draftsVector ← storeCall QE_getAllDrafts;
               let numDrafts :=
                 count_if (fun draft => negb (str_empty (draft_text draft)))
                          draftsVector in
               mret ("", draftsVector, numDrafts))
              (fun what => mret (what, [], 0%nat));
  invokeAsync (SettleDrafts promise error numDrafts draftsVector).

(** Lines 139-153. *)
Definition removeAllDraftsJob (promise : nat) : M unit :=
  error ←
    try_catch (storeCall QE_removeAllDrafts;; mret "") (fun what => mret what);
  invokeAsync (Settle promise error VUndefined).

(** Lines 161-175. *)
Definition removeAllMessagesJob (promise : nat) : M unit :=
  error ←
    try_catch (storeCall QE_removeAllMessages;; mret "") (fun what => mret what);
  invokeAsync (Settle promise error VUndefined).

(** Lines 183-234.  [messagesVector] is a local of the job: the callback
    gets a reference to it (line 195), and the job returns as soon as the
    callback is handed to the JS invoker. *)
Definition getAllMessagesJob (promise : nat) : M unit :=
  '(error, numMessages) ←
    try_catch (messagesVector ← storeCall QE_getAllMessages;
               mret ("", length messagesVector))
              (fun what => mret (what, 0%nat));
  invokeAsync (SettleMessages promise error numMessages).

(** The loop at lines 366-368. *)
Fixpoint executeAll (messageStoreOps : list MessageStoreOperation) : M unit :=
  match messageStoreOps with
  | [] => mret tt
  | operation :: rest => storeCall (OP_execute operation);; executeAll rest
  end.

(** Lines 362-380. *)
Definition processOperationsJob (promise : nat)
    (messageStoreOps : list MessageStoreOperation) : M unit :=
  error ←
    try_catch (storeCall QE_beginTransaction;;
               executeAll messageStoreOps;;
               storeCall QE_commitTransaction;;
               mret "")
              (fun what => mret what);
  invokeAsync (Settle promise error VUndefined).

(** Lines 431-446. *)
Definition storePersistJob (promise : nat) (newPersist : Persist) : M unit :=
  error ←
    try_catch (storeCall (QE_storeOlmPersistData newPersist);; mret "")
              (fun what => mret what);
  invokeAsync (Settle promise error VUndefined).

(** Lines 424-459.  The [error] declared at line 425 is the one the callback
    at line 451 tests; nothing assigns it. *)
Definition constructJob (promise : nat) (userIdStr storedSecretKey : string)
    (persist : Persist) : M unit :=
  let error := "" in
  newCryptoModule userIdStr storedSecretKey persist;;
  if isEmpty persist then
    newPersist ← cryptoCall (CM_storeAsB64 storedSecretKey);
    scheduleOrRun DatabaseWorker (StorePersistJob promise newPersist)
      (storePersistJob promise newPersist)
  else
    cryptoCall (CM_restoreFromB64 storedSecretKey persist);;
    invokeAsync (Settle promise error VUndefined).

(** [persist.sessions.insert(std::make_pair(k, v))]: a key already present
    keeps its value. *)
Definition sessions_insert (k : string) (v : OlmBuffer)
    (m : gmap string OlmBuffer) : gmap string OlmBuffer :=
  match m !! k with
  | Some _ => m
  | None => <[k:=v]> m
  end.

(** The loop at lines 412-418. *)
Definition insertSessions (sessionsData : list OlmPersistSession)
    (m : gmap string OlmBuffer) : gmap string OlmBuffer :=
  foldl (fun acc item =>
           sessions_insert (target_user_id item)
             (list_byte_of_string (session_data item)) acc)
        m sessionsData.

(** The [try] block at lines 402-422 with the two locals it assigns,
    [persist] and [error].  The assignment of [persist.account] at line 406
    comes before the second store call, so a throw from that call leaves it
    assigned. *)
Definition loadPersist : M (Persist * string) :=
  try_catch
    (accountData ← storeCall QE_getOlmPersistAccountData;
     match accountData with
     | Some accountData =>
         let persist := mkPersist (list_byte_of_string accountData) ∅ in
         try_catch
           (sessionsData ← storeCall QE_getOlmPersistSessionsData;
            mret (mkPersist (account persist)
                    (insertSessions sessionsData (sessions persist)), ""))
           (fun what => mret (persist, what))
     | None => mret (emptyPersist, "")
     end)
    (fun what => mret (emptyPersist, what)).

(** Lines 399-460.  The closure given to the crypto worker at line 424
    declares an [error] of its own, so the one assigned here at line 421 is
    not read again. *)
Definition loadPersistJob (promise : nat) (userIdStr storedSecretKey : string)
  : M unit :=
  '(persist, error) ← loadPersist;
  scheduleOrRun CryptoWorker
    (ConstructJob promise userIdStr storedSecretKey persist)
    (constructJob promise userIdStr storedSecretKey persist).

(** Lines 484-499. *)
Definition getUserPublicKeyJob (promise : nat) : M unit :=
  m ← getCryptoModule;
  '(error, result) ←
    match m with
    | None => mret ("user has not been initialized", "")
    | Some _ => result ← cryptoCall CM_getIdentityKeys; mret ("", result)
    end;
  invokeAsync (Settle promise error (VString result)).

(** Lines 507-522. *)
Definition getUserOneTimeKeysJob (promise : nat) : M unit :=
  m ← getCryptoModule;
  '(error, result) ←
    match m with
    | None => mret ("user has not been initialized", "")
    | Some _ => result ← cryptoCall CM_getOneTimeKeys; mret ("", result)
    end;
  invokeAsync (Settle promise error (VString result)).

(** What a task does when a thread calls it.  A task runs to its end before
    a thread calls another, so the callback of [getAllMessages] is called
    when the job that owned [messagesVector] has returned. *)
Definition runTask (t : Task) : M unit :=
  match t with
  | GetDraftJob p keyStr => getDraftJob p keyStr
  | UpdateDraftJob p keyStr textStr => updateDraftJob p keyStr textStr
  | MoveDraftJob p oldKeyStr newKeyStr => moveDraftJob p oldKeyStr newKeyStr
  | GetAllDraftsJob p => getAllDraftsJob p
  | RemoveAllDraftsJob p => removeAllDraftsJob p
  | RemoveAllMessagesJob p => removeAllMessagesJob p
  | GetAllMessagesJob p => getAllMessagesJob p
  | ProcessOperationsJob p messageStoreOps => processOperationsJob p messageStoreOps
  | LoadPersistJob p userIdStr key => loadPersistJob p userIdStr key
  | ConstructJob p userIdStr key persist => constructJob p userIdStr key persist
  | StorePersistJob p newPersist => storePersistJob p newPersist
  | GetUserPublicKeyJob p => getUserPublicKeyJob p
  | GetUserOneTimeKeysJob p => getUserOneTimeKeysJob p
  | Settle p error value => settle p error value
  | SettleDrafts p error numDrafts draftsVector =>
      settleDrafts p error numDrafts draftsVector
  | SettleMessages p error numMessages =>
      settleMessages p error numMessages None
  | RejectUnsupported p op_type => rejectUnsupported p op_type
  end.

(** [scheduleOrRun] with the closure [t]. *)
Definition submit (th : Worker) (t : Task) : M unit :=
  scheduleOrRun th t (runTask t).

(** ** The public operations *)

(** Lines 16-39. *)
Definition getDraft (key : string) : M nat :=
  let keyStr := key in
  createPromiseAsJSIValue (fun promise =>
    submit DatabaseWorker (GetDraftJob promise keyStr)).

(** Lines 41-64. *)
Definition updateDraft (draft : Value) : M nat :=
  keyStr ← lift (asString (getProperty draft "key"));
  textStr ← lift (asString (getProperty draft "text"));
  createPromiseAsJSIValue (fun promise =>
    submit DatabaseWorker (UpdateDraftJob promise keyStr textStr)).

(** Lines 66-94. *)
Definition moveDraft (oldKey newKey : string) : M nat :=
  let oldKeyStr := oldKey in
  let newKeyStr := newKey in
  createPromiseAsJSIValue (fun promise =>
    submit DatabaseWorker (MoveDraftJob promise oldKeyStr newKeyStr)).

(** Lines 96-134. *)
Definition getAllDrafts : M nat :=
  createPromiseAsJSIValue (fun promise =>
    submit DatabaseWorker (GetAllDraftsJob promise)).

(** Lines 136-156. *)
Definition removeAllDrafts : M nat :=
  createPromiseAsJSIValue (fun promise =>
    submit DatabaseWorker (RemoveAllDraftsJob promise)).

(** Lines 158-178. *)
Definition removeAllMessages : M nat :=
  createPromiseAsJSIValue (fun promise =>
    submit DatabaseWorker (RemoveAllMessagesJob promise)).

(** Lines 180-237. *)
Definition getAllMessages : M nat :=
  createPromiseAsJSIValue (fun promise =>
    submit DatabaseWorker (GetAllMessagesJob promise)).

(** Lines 244-383. *)
Definition processMessageStoreOperations (operations : list Value) : M nat :=
  r ← lift (parseOperations operations []);
  match r with
  | inr op_type =>
      createPromiseAsJSIValue (fun promise =>
        invokeAsync (RejectUnsupported promise op_type))
  | inl messageStoreOps =>
      createPromiseAsJSIValue (fun promise =>
        submit DatabaseWorker (ProcessOperationsJob promise messageStoreOps))
  end.

(** Lines 385-462. *)
Definition initializeCryptoAccount (userId : string) : M nat :=
  let userIdStr := userId in
  storedSecretKey ← secureStore_get secureStoreAccountDataKey;
  storedSecretKey ←
    match storedSecretKey with
    | Some key => mret key
    | None =>
        key ← generateRandom 64;
        secureStore_set secureStoreAccountDataKey key;;
        mret key
    end;
  createPromiseAsJSIValue (fun promise =>
    submit DatabaseWorker (LoadPersistJob promise userIdStr storedSecretKey)).

(** Lines 464-479. *)
Definition initializeNetworkModule (userId deviceToken hostname : string)
  : M unit := fun w =>
  let host := if (String.length hostname =? 0)%nat then "localhost" else hostname in
  let credentials :=
    if String.eqb (substr host 0 5) "https" then SslCredentials
    else InsecureChannelCredentials in
  (Ret tt,
   set_networkClient
     (Some (mkClient host "50051" credentials userId deviceToken)) w).

(** Lines 481-502. *)
Definition getUserPublicKey : M nat :=
  createPromiseAsJSIValue (fun promise =>
    submit CryptoWorker (GetUserPublicKeyJob promise)).

(** Lines 504-525. *)
Definition getUserOneTimeKeys : M nat :=
  createPromiseAsJSIValue (fun promise =>
    submit CryptoWorker (GetUserOneTimeKeysJob promise)).

(** The constructor, lines 549-556, over a store, a secure store and a
    source of randomness. *)
Definition newModule (d : DB) (s : gmap string string) (r : Rng) : World :=
  initializeThreads (mkWorld d None None s r None None None [] 0%nat []).

(** ** Threads *)

Inductive Thread : Type :=
| WorkerThread (th : Worker)
| JsThread.

(** A thread takes the oldest task waiting for it and calls it; [None] when
    nothing waits. *)
Definition threadStep (th : Thread) (w : World) : option (outcome unit * World) :=
  match th with
  | WorkerThread wk =>
      match workerThread wk w with
      | Some (t :: queue) => Some (runTask t (set_workerThread wk (Some queue) w))
      | _ => None
      end
  | JsThread =>
      match jsQueue w with
      | t :: queue => Some (runTask t (set_jsQueue queue w))
      | [] => None
      end
  end.

(** No task waits anywhere. *)
Definition quiescent (w : World) : bool :=
  match threadStep (WorkerThread DatabaseWorker) w,
        threadStep (WorkerThread CryptoWorker) w,
        threadStep JsThread w with
  | None, None, None => true
  | _, _, _ => false
  end.

(** The calls the JS side can make, as data. *)
Inductive Call : Type :=
| call_getDraft (key : string)
| call_updateDraft (draft : Value)
| call_moveDraft (oldKey newKey : string)
| call_getAllDrafts
| call_removeAllDrafts
| call_removeAllMessages
| call_getAllMessages
| call_processMessageStoreOperations (operations : list Value)
| call_initializeCryptoAccount (userId : string)
| call_getUserPublicKey
| call_getUserOneTimeKeys.

Definition invoke (c : Call) : M nat :=
  match c with
  | call_getDraft key => getDraft key
  | call_updateDraft draft => updateDraft draft
  | call_moveDraft oldKey newKey => moveDraft oldKey newKey
  | call_getAllDrafts => getAllDrafts
  | call_removeAllDrafts => removeAllDrafts
  | call_removeAllMessages => removeAllMessages
  | call_getAllMessages => getAllMessages
  | call_processMessageStoreOperations operations =>
      processMessageStoreOperations operations
  | call_initializeCryptoAccount userId => initializeCryptoAccount userId
  | call_getUserPublicKey => getUserPublicKey
  | call_getUserOneTimeKeys => getUserOneTimeKeys
  end.

(** One thing that happens to the module: the JS side calls an operation, or
    a thread runs its next task. *)
Inductive Action : Type :=
| Invoke (c : Call)
| Run (th : Thread).

(** A thread runs its next task, if it has one. *)
Definition runThread (th : Thread) : M unit := fun w =>
  default (Ret tt, w) (threadStep th w).

Definition perform (a : Action) : M unit :=
  match a with
  | Invoke c => invoke c;; mret tt
  | Run th => runThread th
  end.

(** A history, as long as no exception leaves an operation or a task. *)
Fixpoint performAll (l : list Action) : M unit :=
  match l with
  | [] => mret tt
  | a :: rest => perform a;; performAll rest
  end.

(** A history in which exceptions that leave are ignored. *)
Fixpoint performEach (l : list Action) (w : World) : World :=
  match l with
  | [] => w
  | a :: rest => performEach rest (perform a w).2
  end.

(** The handles the operations of a history return to the JS side, in the
    order of the calls: a call that throws returns none. *)
Fixpoint handles (l : list Action) (w : World) : list nat :=
  match l with
  | [] => []
  | a :: rest =>
      match a with
      | Invoke c =>
          match invoke c w with
          | (Ret promise, _) => [promise]
          | (Throw _, _) => []
          end
      | Run _ => []
      end ++ handles rest (perform a w).2
  end.

(** No step of the history left the defined behaviour of C++. *)
Fixpoint defined (l : list Action) (w : World) : bool :=
  match l with
  | [] => true
  | a :: rest =>
      negb (is_undefined (perform a w).1) && defined rest (perform a w).2
  end.

(** The action is a call of [getAllMessages]. *)
Definition lists_messages (a : Action) : bool :=
  match a with
  | Invoke call_getAllMessages => true
  | _ => false
  end.

(** The thread to run next when the choice is left open: the first one with
    a task waiting. *)
Definition nextThread (w : World) : option Thread :=
  match threadStep (WorkerThread DatabaseWorker) w,
        threadStep (WorkerThread CryptoWorker) w,
        threadStep JsThread w with
  | Some _, _, _ => Some (WorkerThread DatabaseWorker)
  | None, Some _, _ => Some (WorkerThread CryptoWorker)
  | None, None, Some _ => Some JsThread
  | None, None, None => None
  end.

(** Run tasks until none waits, at most [fuel] of them. *)
Fixpoint drain (fuel : nat) : M unit := fun w =>
  match fuel with
  | O => (Ret tt, w)
  | S fuel' =>
      match nextThread w with
      | Some th => (runThread th;; drain fuel') w
      | None => (Ret tt, w)
      end
  end.

(** Call an operation, then let the threads run tasks until none waits, at
    most [fuel] of them. *)
Definition await (fuel : nat) (call : M nat) : M nat :=
  p ← call; drain fuel;; mret p.

(** Call an operation that the crypto worker serves, then let the crypto
    worker and the JS thread each run their next task, whatever waits for
    the database worker. *)
Definition awaitCrypto (call : M nat) : M nat :=
  p ← call;
  runThread (WorkerThread CryptoWorker);;
  runThread JsThread;;
  mret p.

(** *** Reading the events *)

Definition is_settlement (p : nat) (e : Event) : bool :=
  match e with
  | EvResolve q _ | EvReject q _ => (q =? p)%nat
  | _ => false
  end.

(** The calls of [resolve] and [reject] on promise [p], oldest first. *)
Definition settlements (p : nat) (w : World) : list Event :=
  filter (fun e => is_settlement p e = true) (trace w).

Definition is_store_event (e : Event) : bool :=
  match e with EvStore _ => true | _ => false end.

(** The store calls made, oldest first. *)
Definition storeCalls (w : World) : list Event :=
  filter (fun e => is_store_event e = true) (trace w).

(** The tasks waiting on any thread. *)
Definition waiting (w : World) : list Task :=
  default [] (databaseThread w) ++ default [] (cryptoThread w) ++ jsQueue w.

(** The tasks waiting that will settle promise [p]. *)
Definition pending (p : nat) (w : World) : nat :=
  count_for p (waiting w).

(** How many tasks a task stands for: itself and those it leaves behind
    until its promise is settled. *)
Definition rank (t : Task) : nat :=
  match t with
  | LoadPersistJob _ _ _ => 4
  | ConstructJob _ _ _ _ => 3
  | Settle _ _ _ | SettleDrafts _ _ _ _ | SettleMessages _ _ _
  | RejectUnsupported _ _ => 1
  | _ => 2
  end.

Definition workload (w : World) : nat := sum_list_with rank (waiting w).

End CommCoreModule.

(** Every promise handed out has been settled once or has one task waiting
    that will settle it, and no other promise has either. *)
Definition well_formed {DB CM Rng} (w : World DB CM Rng) : Prop :=
  forall p : nat,
    (length (settlements p w) + pending p w)%nat
    = if (p <? nextPromise w)%nat then 1%nat else 0%nat.

(** ** Small collaborators to run the module on *)

Module Ref.

(** Modelled from the spec: the persistent store behind
    [DatabaseManager::getQueryExecutor()] (not under src/), "a narrow
    CRUD/transaction API": [beginTransaction()], [commitTransaction()] and
    CRUD per record kind, each call able to fail with a store-level error,
    no implicit transactions.  Records are kept in lists; a mutation acts on
    them at once and a read returns what they hold; [fault] says which call
    fails and with what. *)
Record Store : Type := mkStore {
  drafts : list Draft;
  messages : list Message;
  media : list Media;
  olm_account : option string;
  olm_sessions : list OlmPersistSession;
  in_transaction : bool;
  fault : StoreCall -> option exn
}.

Definition no_fault : StoreCall -> option exn := fun _ => None.

Definition emptyStore : Store := mkStore [] [] [] None [] false no_fault.

(** A store in which no call fails. *)
Definition faultless (s : Store) : Prop := forall c, fault s c = None.

Definition mem (x : string) (l : list string) : bool :=
  existsb (String.eqb x) l.

(** Modelled from the spec: RemoveByIds, "deletes store records matching the
    given identifier set; missing ids are not errors". *)
Definition removeMessages (ids : list string) (s : Store) : Store :=
  mkStore (drafts s)
    (List.filter (fun m => negb (mem (msg_id m) ids)) (messages s))
    (List.filter (fun m => negb (mem (media_container m) ids)) (media s))
    (olm_account s) (olm_sessions s) (in_transaction s) (fault s).

(** Modelled from the spec: RemoveByThreadIds, "deletes all records
    associated with the given thread identifiers". *)
Definition removeMessagesForThreads (threads : list string) (s : Store) : Store :=
  mkStore (drafts s)
    (List.filter (fun m => negb (mem (msg_thread m) threads)) (messages s))
    (List.filter (fun m => negb (mem (media_thread m) threads)) (media s))
    (olm_account s) (olm_sessions s) (in_transaction s) (fault s).

(** Modelled from the spec: ReplaceMessage, "inserts if absent, overwrites
    if present; associated media rows are replaced as a unit with the
    message". *)
Definition replaceMessage (msg : Message) (media_vector : list Media)
    (s : Store) : Store :=
  mkStore (drafts s)
    (List.filter (fun m => negb (String.eqb (msg_id m) (msg_id msg))) (messages s)
       ++ [msg])
    (List.filter (fun m => negb (String.eqb (media_container m) (msg_id msg)))
       (media s) ++ media_vector)
    (olm_account s) (olm_sessions s) (in_transaction s) (fault s).

Definition rekeyMessage (from to : string) (m : Message) : Message :=
  if String.eqb (msg_thread m) from
  then mkMessage (msg_id m) (msg_local_id m) to (msg_user m) (msg_type m)
         (msg_future_type m) (msg_content m) (msg_time m)
  else m.

Definition rekeyMedia (from to : string) (m : Media) : Media :=
  if String.eqb (media_thread m) from
  then mkMedia (media_id m) (media_container m) to (media_uri m)
         (media_type m) (media_extras m)
  else m.

(** Modelled from the spec: RekeyThread, "re-associates all records tagged
    with [from] to be tagged with [to]". *)
Definition rekey (from to : string) (s : Store) : Store :=
  mkStore (drafts s) (rekeyMessage from to <$> messages s)
    (rekeyMedia from to <$> media s)
    (olm_account s) (olm_sessions s) (in_transaction s) (fault s).

Definition set_drafts (ds : list Draft) (s : Store) : Store :=
  mkStore ds (messages s) (media s) (olm_account s) (olm_sessions s)
    (in_transaction s) (fault s).

Definition set_in_transaction (b : bool) (s : Store) : Store :=
  mkStore (drafts s) (messages s) (media s) (olm_account s) (olm_sessions s)
    b (fault s).

Definition findDraft (key : string) (s : Store) : option Draft :=
  List.find (fun d => String.eqb (draft_key d) key) (drafts s).

Definition withoutDraft (key : string) (s : Store) : list Draft :=
  List.filter (fun d => negb (String.eqb (draft_key d) key)) (drafts s).

Definition sessionsOf (p : Persist) : list OlmPersistSession :=
  (fun kv : string * OlmBuffer => mkOlmPersistSession kv.1 (string_of_list_byte kv.2))
    <$> map_to_list (sessions p).

(** What a call does when no fault is injected. *)
Definition serve (c : StoreCall) (s : Store) : StoreRet c * Store :=
  match c return StoreRet c * Store with
  | QE_getDraft key => (default "" (draft_text <$> findDraft key s), s)
  | QE_updateDraft key text =>
      (tt, set_drafts (withoutDraft key s ++ [mkDraft key text]) s)
  | QE_moveDraft oldKey newKey =>
      match findDraft oldKey s with
      | Some d =>
          (true,
           set_drafts
             (List.filter
                (fun d => negb (String.eqb (draft_key d) newKey))
                (withoutDraft oldKey s)
              ++ [mkDraft newKey (draft_text d)]) s)
      | None => (false, s)
      end
  | QE_getAllDrafts => (drafts s, s)
  | QE_removeAllDrafts => (tt, set_drafts [] s)
  | QE_removeAllMessages =>
      (tt, mkStore (drafts s) [] [] (olm_account s) (olm_sessions s)
             (in_transaction s) (fault s))
  | QE_getAllMessages => (messages s, s)
  | QE_beginTransaction => (tt, set_in_transaction true s)
  | QE_commitTransaction => (tt, set_in_transaction false s)
  | OP_execute (RemoveMessagesOperation ids) => (tt, removeMessages ids s)
  | OP_execute (RemoveMessagesForThreadsOperation threads) =>
      (tt, removeMessagesForThreads threads s)
  | OP_execute (ReplaceMessageOperation msg media_vector) =>
      (tt, replaceMessage msg media_vector s)
  | OP_execute (RekeyMessageOperation from to) => (tt, rekey from to s)
  | QE_getOlmPersistAccountData => (olm_account s, s)
  | QE_getOlmPersistSessionsData => (olm_sessions s, s)
  | QE_storeOlmPersistData p =>
      (tt, mkStore (drafts s) (messages s) (media s)
             (Some (string_of_list_byte (account p))) (sessionsOf p)
             (in_transaction s) (fault s))
  end.

#[global] Instance store : QueryExecutor Store := fun c s =>
  match fault s c with
  | Some e => (Throw e, s)
  | None => let '(r, s') := serve c s in (Ret r, s')
  end.

(** Modelled from the spec: the crypto module ([crypto::CryptoModule],
    [crypto::Persist::isEmpty] and [crypto::Tools], not under src/):
    [construct(secretKey, persistedState)], [serializeToPersistable],
    [restoreFromPersistable], [exportIdentityKeys], [exportOneTimeKeys].
    An identity is an account blob; the constructor makes a new one for the
    user and the secret key, restoring replaces it by the persisted one,
    serializing returns it, and the exported keys name it.  A persisted
    state is empty when it has no account blob. *)
Record Module : Type := mkModule {
  mod_user : string;
  mod_key : string;
  mod_account : OlmBuffer
}.

Definition newAccount (userId secretKey : string) : OlmBuffer :=
  list_byte_of_string ("account:" +:+ userId +:+ ":" +:+ secretKey).

Definition noAccount (p : Persist) : bool :=
  match account p with
  | [] => true
  | _ :: _ => false
  end.

Definition call (c : CryptoCall) (m : Module) : outcome (CryptoRet c) * Module :=
  match c return outcome (CryptoRet c) * Module with
  | CM_storeAsB64 secretKey => (Ret (mkPersist (mod_account m) ∅), m)
  | CM_restoreFromB64 secretKey persist =>
      (Ret tt, mkModule (mod_user m) (mod_key m) (account persist))
  | CM_getIdentityKeys =>
      (Ret ("identity keys of " +:+ string_of_list_byte (mod_account m)), m)
  | CM_getOneTimeKeys =>
      (Ret ("one-time keys of " +:+ string_of_list_byte (mod_account m)), m)
  end.

Fixpoint repeat_char (c : ascii) (n : nat) : string :=
  match n with
  | O => EmptyString
  | S n' => String c (repeat_char c n')
  end.

#[global] Instance crypto : Crypto Module nat := {|
  cm_new := fun userId secretKey persist =>
    Ret (mkModule userId secretKey (newAccount userId secretKey));
  cm_call := call;
  isEmpty := noAccount;
  generateRandomString := fun size seed =>
    (repeat_char (ascii_of_nat (97 + seed mod 26)) size, S seed)
|}.

Definition accountDataKey : string := "cryptoAccountDataKey".

End Ref.

(** ** Vocabulary of the statements *)

(** A draft with a text. *)
Definition has_text (d : Draft) : Prop := draft_text d <> "".

#[global] Instance has_text_dec (d : Draft) : Decision (has_text d) :=
  decide (draft_text d <> "").

(** Promise [p] was settled by a single call, [e]. *)
Definition settled_with {DB CM Rng} (p : nat) (e : Event) (w : World DB CM Rng)
  : Prop :=
  settlements p w = [e].

(** The store after the operations were executed on it in order, up to the
    first that throws. *)
Fixpoint executeOn {DB} {store : QueryExecutor DB}
    (ops : list MessageStoreOperation) (d : DB) : outcome unit * DB :=
  match ops with
  | [] => (Ret tt, d)
  | op :: rest =>
      match qe_call (OP_execute op) d with
      | (Ret _, d') => executeOn rest d'
      | (Throw e, d') => (Throw e, d')
      end
  end.

(** The events of executing the operations [ops], in order. *)
Definition executions (ops : list MessageStoreOperation) : list Event :=
  (fun op => EvStore (OP_execute op)) <$> ops.

(** Several events at once. *)
Definition logs {DB CM Rng} (es : list Event) (w : World DB CM Rng)
  : World DB CM Rng :=
  mkWorld (database w) (cryptoModule w) (networkClient w) (secureStore w) (rng w)
    (databaseThread w) (cryptoThread w) (networkThread w) (jsQueue w)
    (nextPromise w) (trace w ++ es).

(** An operation with a type tag that names none of the four kinds. *)
Definition unsupported (op : Value) (op_type : string) : Prop :=
  isObject op = true
  /\ getProperty op "type" = VString op_type
  /\ op_type <> REMOVE_OPERATION
  /\ op_type <> REMOVE_MSGS_FOR_THREADS_OPERATION
  /\ op_type <> REPLACE_OPERATION
  /\ op_type <> REKEY_OPERATION.

(** A ["replace"] operation on a payload with well-typed [id], [thread] and
    [user] and a [type] that holds the string [s]. *)
Definition replace_with_type (op : Value) (s : string) : Prop :=
  isObject op = true
  /\ getProperty op "type" = VString REPLACE_OPERATION
  /\ isObject (getProperty op "payload") = true
  /\ isString (getProperty (getProperty op "payload") "id") = true
  /\ isString (getProperty (getProperty op "payload") "thread") = true
  /\ isString (getProperty (getProperty op "payload") "user") = true
  /\ getProperty (getProperty op "payload") "type" = VString s.

(** ** Inputs for the examples *)

Module Examples.

Definition World : Type := World Ref.Store Ref.Module nat.

(** A module just constructed over a store, with nothing in the secure
    store. *)
Definition fresh (s : Ref.Store) : World := newModule s ∅ 0%nat.

Definition message1 : Message :=
  mkMessage "m1" None "t1" "u1" 0 None (Some "hello") 1650000000000.

(** A store that holds one message and fails as [fault] says. *)
Definition storeWithMessage (fault : StoreCall -> option exn) : Ref.Store :=
  Ref.mkStore [] [message1] [] None [] false fault.

(** Re-keying a thread fails; every other call works. *)
Definition rekey_fails (c : StoreCall) : option exn :=
  match c with
  | OP_execute (RekeyMessageOperation _ _) =>
      Some (std_system_error "database is locked")
  | _ => None
  end.

Definition removeOp : Value :=
  VObject [("type", VString "remove");
           ("payload", VObject [("ids", VArray [VString "m1"])])].

Definition rekeyOp : Value :=
  VObject [("type", VString "rekey");
           ("payload", VObject [("from", VString "t1"); ("to", VString "t2")])].

(** A replace operation whose [type] is not a number. *)
Definition malformedReplace : Value :=
  VObject [("type", VString "replace");
           ("payload",
            VObject [("id", VString "m2"); ("thread", VString "t1");
                     ("user", VString "u1"); ("type", VString "text");
                     ("time", VString "1650000000000")])].

(** A replace operation whose [future_type] is not a number. *)
Definition malformedFutureType : Value :=
  VObject [("type", VString "replace");
           ("payload",
            VObject [("id", VString "m2"); ("thread", VString "t1");
                     ("user", VString "u1"); ("type", VString "0");
                     ("future_type", VString "later");
                     ("time", VString "1650000000000")])].

(** A replace operation whose [time] is not a number. *)
Definition malformedTime : Value :=
  VObject [("type", VString "replace");
           ("payload",
            VObject [("id", VString "m2"); ("thread", VString "t1");
                     ("user", VString "u1"); ("type", VString "0");
                     ("time", VString "yesterday")])].

Definition bogusOp : Value := VObject [("type", VString "bogus")].

Definition draftsStore : Ref.Store :=
  Ref.mkStore [mkDraft "thread1" "hello"; mkDraft "thread2" "";
               mkDraft "thread3" "bye"] [] [] None [] false Ref.no_fault.

Definition K : string := Ref.accountDataKey.

Definition secretKey : string := "0123456789abcdef".

(** The key the first call of [generateRandomString] returns. *)
Definition generatedKey : string := Ref.repeat_char "a" 64.

(** A store that holds an account persisted by an earlier run. *)
Definition aliceStore (fault : StoreCall -> option exn) : Ref.Store :=
  Ref.mkStore [] [] [] (Some "account of alice, first run") [] false fault.

(** Reading the account blob fails; every other call works. *)
Definition load_fails (c : StoreCall) : option exn :=
  match c with
  | QE_getOlmPersistAccountData => Some (std_system_error "disk I/O error")
  | _ => None
  end.

(** Writing the pickled identity fails; every other call works. *)
Definition persist_fails (c : StoreCall) : option exn :=
  match c with
  | QE_storeOlmPersistData _ => Some (std_system_error "disk is full")
  | _ => None
  end.

(** A batch whose second operation fails. *)
Definition failedBatch : outcome nat * World :=
  await 2 (processMessageStoreOperations [removeOp; rekeyOp])
    (fresh (storeWithMessage rekey_fails)).

(** The account is initialised on an empty store, the database and crypto
    workers each run one task, and the public key is asked for and exported
    while the task that persists the new identity still waits. *)
Definition earlyKeyExport : outcome unit * World :=
  performAll K
    [Invoke (call_initializeCryptoAccount "alice");
     Run (WorkerThread DatabaseWorker);
     Run (WorkerThread CryptoWorker);
     Invoke call_getUserPublicKey;
     Run (WorkerThread CryptoWorker);
     Run JsThread]
    (fresh Ref.emptyStore).

(** The account is initialised on a store that cannot persist the identity,
    then the one-time keys are asked for. *)
Definition exportAfterFailedPersist : outcome (nat * nat) * World :=
  (p ← await 4 (initializeCryptoAccount K "alice");
   q ← await 2 getUserOneTimeKeys;
   mret (p, q))
    (fresh (Ref.mkStore [] [] [] None [] false persist_fails)).

(** The account is initialised on a store that holds a persisted account
    but fails to read it, with the secret key in the secure store. *)
Definition initAfterFailedLoad : outcome nat * World :=
  await 4 (initializeCryptoAccount K "alice")
    (newModule (aliceStore load_fails) {[ K := secretKey ]} 0%nat).

(** Calls and thread turns interleaved: a batch whose second operation
    fails, an initialisation, a key export, a batch that is malformed and a
    listing of the drafts, with some of the tasks run in between. *)
Definition busyHistory : list Action :=
  [Invoke (call_processMessageStoreOperations [removeOp; rekeyOp]);
   Invoke (call_initializeCryptoAccount "alice");
   Run (WorkerThread DatabaseWorker);
   Invoke call_getUserPublicKey;
   Invoke (call_processMessageStoreOperations [malformedReplace]);
   Run (WorkerThread CryptoWorker);
   Run (WorkerThread DatabaseWorker);
   Invoke call_getAllDrafts;
   Run JsThread].

Definition busy : World :=
  performEach K busyHistory (fresh (storeWithMessage rekey_fails)).

End Examples.

(** What stands for promise [p]: its settlements so far and the tasks
    waiting that will settle it. *)
Definition weight {DB CM Rng} (p : nat) (w : World DB CM Rng) : nat :=
  (length (settlements p w) + pending p w)%nat.

(** No promise has more than one of those, and a promise not handed out has
    none. *)
Definition bounded {DB CM Rng} (w : World DB CM Rng) : Prop :=
  forall p : nat,
    (weight p w <= if (p <? nextPromise w)%nat then 1 else 0)%nat.

(** [1] for the promise [q], [0] for another. *)
Definition one_for (q p : nat) : nat := if decide (p = q) then 1%nat else 0%nat.

(** A computation that hands out no promise, gives no task to any thread and
    settles nothing. *)
Definition quiet {DB CM Rng A} (m : World DB CM Rng -> outcome A * World DB CM Rng)
  : Prop :=
  forall w o w', m w = (o, w') ->
    nextPromise w' = nextPromise w
    /\ databaseThread w' = databaseThread w
    /\ cryptoThread w' = cryptoThread w
    /\ jsQueue w' = jsQueue w
    /\ forall p, settlements p w' = settlements p w.

(** A computation that, when it returns, has settled promise [q] or left one
    task for it, of rank at most [n], and when it throws has done neither;
    either way it hands out no promise and touches no other. *)
Definition hands_over {DB CM Rng} (q n : nat)
    (m : World DB CM Rng -> outcome unit * World DB CM Rng) : Prop :=
  forall w o w', m w = (o, w') ->
    nextPromise w' = nextPromise w
    /\ (workload w' <= workload w + n)%nat
    /\ forall p,
         weight p w' = (weight p w + if returned o then one_for q p else 0)%nat.

(** A call that either hands out the next promise, with one task or one
    settlement standing for it, or throws and leaves every promise as it
    was. *)
Definition issues {DB CM Rng}
    (m : World DB CM Rng -> outcome nat * World DB CM Rng) : Prop :=
  forall w o w', m w = (o, w') ->
    match o with
    | Ret p =>
        p = nextPromise w /\ nextPromise w' = S p
        /\ forall q, weight q w' = (weight q w + one_for p q)%nat
    | Throw _ =>
        (nextPromise w <= nextPromise w')%nat
        /\ forall q, weight q w' = weight q w
    end.

(** A waiting task that stays within the defined behaviour: a callback of
    [getAllDrafts] was given as many slots as it will write, and of the
    tasks of [getAllMessages] only the callback that rejects waits, which
    does not read the destroyed vector. *)
Definition task_sound (t : Task) : Prop :=
  match t with
  | SettleDrafts _ _ numDrafts draftsVector =>
      numDrafts
      = count_if (fun draft => negb (str_empty (draft_text draft))) draftsVector
  | GetAllMessagesJob _ => False
  | SettleMessages _ error _ => error <> ""
  | _ => True
  end.

Definition tasks_sound {DB CM Rng} (w : World DB CM Rng) : Prop :=
  Forall task_sound (waiting w).

(** The store, from the states [ok] on, fails with [std::system_error]
    only. *)
Definition store_fails_with_system_errors {DB} {store : QueryExecutor DB}
    (ok : DB -> Prop) : Prop :=
  forall (c : StoreCall) (d : DB),
    ok d ->
    match qe_call c d with
    | (Ret _, d') => ok d'
    | (Throw e, d') => (exists what, e = std_system_error what) /\ ok d'
    end.

(** The crypto library does not fail. *)
Definition crypto_returns {CM Rng} {crypto : Crypto CM Rng} : Prop :=
  (forall (userId secretKey : string) (persist : Persist),
      returned (cm_new userId secretKey persist) = true)
  /\ (forall (c : CryptoCall) (m : CM), returned (cm_call c m).1 = true).

(** What every step keeps when the collaborators fail as the code expects:
    the store is in a state [ok], and the callbacks waiting are sound. *)
Definition steady {DB CM Rng} (ok : DB -> Prop) (w : World DB CM Rng) : Prop :=
  ok (database w) /\ tasks_sound w.

(** [m] returns a value satisfying [Q], from a steady state to a steady
    state. *)
Definition returns {DB CM Rng A} (ok : DB -> Prop)
    (m : World DB CM Rng -> outcome A * World DB CM Rng) (Q : A -> Prop) : Prop :=
  forall w, steady ok w ->
    exists a w', m w = (Ret a, w') /\ steady ok w' /\ Q a.

(** [m] returns as above or throws a [std::system_error]. *)
Definition tries {DB CM Rng A} (ok : DB -> Prop)
    (m : World DB CM Rng -> outcome A * World DB CM Rng) (Q : A -> Prop) : Prop :=
  forall w, steady ok w ->
    match m w with
    | (Ret a, w') => steady ok w' /\ Q a
    | (Throw e, w') => (exists what, e = std_system_error what) /\ steady ok w'
    end.

(** A call returns a promise, to a steady state, or throws before it has
    done anything. *)
Definition answers {DB CM Rng} (ok : DB -> Prop)
    (m : World DB CM Rng -> outcome nat * World DB CM Rng) : Prop :=
  forall w, steady ok w ->
    (exists p w', m w = (Ret p, w') /\ steady ok w')
    \/ (exists e, m w = (Throw e, w)).

(** The events of [initializeCryptoAccount] taking the restore path on a
    module just constructed, for promise 0: the secret key is read, not
    generated, the persisted state is loaded and not written, and the
    identity is restored from it. *)
Definition restoreEvents (userId key : string) (persist : Persist) : list Event :=
  [EvScheduleTask DatabaseWorker (LoadPersistJob 0 userId key);
   EvStore QE_getOlmPersistAccountData;
   EvStore QE_getOlmPersistSessionsData;
   EvScheduleTask CryptoWorker (ConstructJob 0 userId key persist);
   EvCryptoNew userId key persist;
   EvCrypto (CM_restoreFromB64 key persist);
   EvInvokeAsync (Settle 0 "" VUndefined);
   EvResolve 0 VUndefined].

(** The database and the crypto worker threads exist. *)
Definition threads_up {DB CM Rng} (w : World DB CM Rng) : Prop :=
  is_Some (databaseThread w) /\ is_Some (cryptoThread w).

(** A computation that stops no worker thread. *)
Definition keeps_threads {DB CM Rng A}
    (m : World DB CM Rng -> outcome A * World DB CM Rng) : Prop :=
  forall w, threads_up w -> threads_up (m w).2.

(** A computation that leaves the secure store and the source of randomness
    as they are. *)
Definition keeps_secrets {DB CM Rng A}
    (m : World DB CM Rng -> outcome A * World DB CM Rng) : Prop :=
  forall w, secureStore (m w).2 = secureStore w /\ rng (m w).2 = rng w.

(** ** More inputs for the examples *)

Module Samples.

(** A message with every optional field and a negative type. *)
Definition message2 : Message :=
  mkMessage "m2" (Some "local2") "t1" "u1" (-3) (Some 7) (Some "photo")
    1650000000001.

(** A replace operation with two media. *)
Definition replaceWithMedia : Value :=
  VObject [("type", VString "replace");
           ("payload",
            VObject [("id", VString "m2"); ("thread", VString "t1");
                     ("user", VString "u1"); ("type", VString "14");
                     ("time", VString "1650000000001");
                     ("media_infos",
                      VArray [VObject [("id", VString "p1"); ("uri", VString "a.jpg");
                                       ("type", VString "photo");
                                       ("extras", VString "{}")];
                              VObject [("id", VString "p2"); ("uri", VString "b.mp4");
                                       ("type", VString "video");
                                       ("extras", VString "{}")]])])].

(** A draft as JS gives it, and one without its text. *)
Definition draft1 : Value :=
  VObject [("key", VString "thread1"); ("text", VString "see you")].

Definition draftWithoutText : Value := VObject [("key", VString "thread1")].

(** Listing the drafts fails; every other call works. *)
Definition listing_fails (c : StoreCall) : option exn :=
  match c with
  | QE_getAllDrafts => Some (std_system_error "database is locked")
  | _ => None
  end.

(** Committing fails; every other call works. *)
Definition commit_fails (c : StoreCall) : option exn :=
  match c with
  | QE_commitTransaction => Some (std_system_error "disk is full")
  | _ => None
  end.

(** A module constructed over a store that holds an account persisted by an
    earlier run, with the secret key in the secure store. *)
Definition restart : Examples.World :=
  newModule (Examples.aliceStore Ref.no_fault)
    {[ Examples.K := Examples.secretKey ]} 0%nat.

(** Modelled from the spec: a crypto module whose [restoreFromPersistable]
    fails, on a state it cannot unpickle; everything else as in
    [Ref.crypto]. *)
Definition brokenRestore : Crypto Ref.Module nat := {|
  cm_new := fun userId secretKey persist =>
    Ret (Ref.mkModule userId secretKey (Ref.newAccount userId secretKey));
  cm_call := fun c m =>
    match c return outcome (CryptoRet c) * Ref.Module with
    | CM_restoreFromB64 _ _ =>
        (Throw (std_runtime_error "olm_unpickle_account: BAD_ACCOUNT_KEY"), m)
    | CM_storeAsB64 secretKey => Ref.call (CM_storeAsB64 secretKey) m
    | CM_getIdentityKeys => Ref.call CM_getIdentityKeys m
    | CM_getOneTimeKeys => Ref.call CM_getOneTimeKeys m
    end;
  isEmpty := Ref.noAccount;
  generateRandomString := fun size seed =>
    (Ref.repeat_char (ascii_of_nat (97 + seed mod 26)) size, S seed)
|}.

(** The account is initialised with that crypto module, and the threads run
    until nothing waits or an exception leaves a task. *)
Definition restoreFails : outcome nat * Examples.World :=
  await (crypto:=brokenRestore) 4
    (initializeCryptoAccount (crypto:=brokenRestore) Examples.K "alice") restart.

(** The account is initialised on an empty store and a secure store
    without a key. *)
Definition firstRun : outcome nat * Examples.World :=
  await 4 (initializeCryptoAccount Examples.K "alice")
    (Examples.fresh Ref.emptyStore).

(** The store the first run left, when reading the account from it fails. *)
Definition storeAtRestart : Ref.Store :=
  let d := database firstRun.2 in
  Ref.mkStore (Ref.drafts d) (Ref.messages d) (Ref.media d)
    (Ref.olm_account d) (Ref.olm_sessions d) (Ref.in_transaction d)
    Examples.load_fails.

(** The process restarts: a second module over that store and the secure
    store of the first run initialises the account again. *)
Definition secondRunLoadFails : outcome nat * Examples.World :=
  await 4 (initializeCryptoAccount Examples.K "alice")
    (newModule storeAtRestart (secureStore firstRun.2) 7%nat).

(** The account is initialised on an empty store and the database and
    crypto workers have each run one task: the identity is constructed, and
    the task that persists it waits for the database worker. *)
Definition identityNotPersisted : Examples.World :=
  (performAll Examples.K
     [Invoke (call_initializeCryptoAccount "alice");
      Run (WorkerThread DatabaseWorker);
      Run (WorkerThread CryptoWorker)]
     (Examples.fresh Ref.emptyStore)).2.

End Samples.

(** * Properties *)

(** ** The network client (lines 464-479) *)

Lemma substr_https (s : string) :
  substr s 0 5 = "https" <-> exists rest, s = "https" +:+ rest.
Proof.
  unfold substr. split.
  - intros H.
    destruct s as [|c1 [|c2 [|c3 [|c4 [|c5 rest]]]]]; simpl in H; try discriminate.
    exists rest. injection H as -> -> -> -> -> _. reflexivity.
  - intros [rest ->]. simpl. destruct rest; reflexivity.
Qed.

Section Network.

Context {DB CM Rng : Type}.
Local Abbreviation World := (World DB CM Rng).

(** C9: whatever the user id and device token, the client is built with SSL
    credentials exactly when the hostname starts with "https", and with
    insecure channel credentials otherwise. *)
Theorem initializeNetworkModule_ssl_iff_https
    (userId deviceToken hostname : string) (w : World) :
  exists c : Client,
    networkClient (initializeNetworkModule userId deviceToken hostname w).2 = Some c
    /\ client_userId c = userId
    /\ client_deviceToken c = deviceToken
    /\ (client_credentials c = SslCredentials
        <-> exists rest, hostname = "https" +:+ rest)
    /\ (client_credentials c = InsecureChannelCredentials
        <-> ~ exists rest, hostname = "https" +:+ rest).
Proof.
  unfold initializeNetworkModule. simpl.
  eexists. split; [reflexivity|]. simpl.
  split; [reflexivity|]. split; [reflexivity|].
  assert (Hhost : forall rest,
            (if (String.length hostname =? 0)%nat then "localhost" else hostname)
            = "https" +:+ rest <-> hostname = "https" +:+ rest).
  { intros rest. destruct hostname; simpl; [|tauto]. split; discriminate. }
  destruct (String.eqb_spec
              (substr (if (String.length hostname =? 0)%nat
                       then "localhost" else hostname) 0 5) "https") as [E|E].
  - apply substr_https in E as [rest E]. apply Hhost in E.
    split; split; try done; eauto.
    intros H. exfalso. apply H. eauto.
  - assert (N : ~ exists rest, hostname = "https" +:+ rest).
    { intros [rest H]. apply E, substr_https. exists rest. by apply Hhost. }
    split; split; try done.
Qed.

(** C10: an empty hostname gives a client for "localhost" with insecure
    channel credentials, and every call gives a client on port "50051". *)
Theorem initializeNetworkModule_localhost_port :
  (forall (userId deviceToken : string) (w : World),
      networkClient (initializeNetworkModule userId deviceToken "" w).2
      = Some (mkClient "localhost" "50051" InsecureChannelCredentials
                userId deviceToken))
  /\ (forall (userId deviceToken hostname : string) (w : World),
         client_port <$> networkClient
                           (initializeNetworkModule userId deviceToken hostname w).2
         = Some "50051").
Proof. split; reflexivity. Qed.

End Network.

(** ** Listing drafts (lines 96-134) *)

Lemma str_empty_true (s : string) : str_empty s = true <-> s = "".
Proof. destruct s; simpl; split; congruence. Qed.

Lemma str_empty_false (s : string) : str_empty s = false <-> s <> "".
Proof. destruct s; simpl; split; congruence. Qed.

Lemma count_if_has_text (ds : list Draft) :
  count_if (fun draft => negb (str_empty (draft_text draft))) ds
  = length (filter has_text ds).
Proof.
  unfold count_if. f_equal. apply list_filter_iff. intros d.
  unfold has_text. rewrite negb_true_iff. apply str_empty_false.
Qed.

(** The write loop fills the slots left to right with the drafts that have a
    text, given as many free slots as there are such drafts. *)
Lemma writeDrafts_fills (ds : list Draft) : forall written : list Value,
  writeDrafts ds
    (written ++ replicate (length (filter has_text ds)) VUndefined)
    (length written)
  = Ret (written ++ (draftToJSI <$> filter has_text ds)).
Proof.
  induction ds as [|d ds IH]; intros written; simpl.
  - reflexivity.
  - rewrite filter_cons. destruct (str_empty (draft_text d)) eqn:E.
    + apply str_empty_true in E.
      destruct (decide (has_text d)) as [H|_]; [by destruct H|]. apply IH.
    + apply str_empty_false in E.
      destruct (decide (has_text d)) as [_|H]; [|by destruct H]. simpl.
      unfold setValueAtIndex.
      assert (L : (length written
                   <? length (written ++ VUndefined
                        :: replicate (length (filter has_text ds)) VUndefined))%nat
                  = true).
      { apply Nat.ltb_lt. rewrite length_app. simpl. lia. }
      rewrite L. simpl.
      rewrite insert_app_r_alt by lia. rewrite Nat.sub_diag. simpl.
      specialize (IH (written ++ [draftToJSI d])).
      rewrite length_app in IH. simpl in IH.
      rewrite Nat.add_1_r, <- !app_assoc in IH. exact IH.
Qed.

Lemma writeDrafts_newArray (ds : list Draft) :
  writeDrafts ds
    (newArray (count_if (fun draft => negb (str_empty (draft_text draft))) ds)) 0
  = Ret (draftToJSI <$> filter has_text ds).
Proof.
  rewrite count_if_has_text. apply (writeDrafts_fills ds []).
Qed.

(** ** Running the module *)

Create HintDb comm discriminated.
#[global] Hint Unfold
  mbind mret M_bind M_ret outcome_bind outcome_ret lift undefined try_catch
  storeCall newCryptoModule cryptoCall getCryptoModule
  secureStore_get secureStore_set generateRandom
  resolve reject invokeAsync workerThread set_workerThread scheduleOrRun
  createPromiseAsJSIValue submit runTask
  settle settleDrafts settleMessages rejectUnsupported
  getDraftJob updateDraftJob moveDraftJob getAllDraftsJob removeAllDraftsJob
  removeAllMessagesJob getAllMessagesJob processOperationsJob storePersistJob
  constructJob loadPersistJob getUserPublicKeyJob
  getUserOneTimeKeysJob
  getDraft updateDraft moveDraft getAllDrafts removeAllDrafts
  removeAllMessages getAllMessages processMessageStoreOperations
  initializeCryptoAccount getUserPublicKey getUserOneTimeKeys
  threadStep runThread nextThread invoke perform await awaitCrypto
  set_database set_cryptoModule set_networkClient set_secureStore set_rng
  set_databaseThread set_cryptoThread set_networkThread set_jsQueue
  set_nextPromise log : comm.

(** Unfold the module's code on the state at hand and compute as far as the
    collaborators' answers are known. *)
Ltac run := repeat (progress (autounfold with comm; cbn)).

Section Running.

Context {DB CM Rng : Type} {store : QueryExecutor DB} {crypto : Crypto CM Rng}.
Local Abbreviation World := (World DB CM Rng).

Lemma quiescent_cases (w : World) :
  quiescent w = true ->
  (databaseThread w = None \/ databaseThread w = Some [])
  /\ (cryptoThread w = None \/ cryptoThread w = Some [])
  /\ jsQueue w = [].
Proof.
  unfold quiescent, threadStep. simpl.
  destruct (databaseThread w) as [[|]|], (cryptoThread w) as [[|]|],
    (jsQueue w); try discriminate; auto.
Qed.

(** A module just constructed is at rest, with no promise handed out. *)
Lemma newModule_at_rest (d : DB) (s : gmap string string) (r : Rng) :
  let w : World := newModule d s r in
  well_formed w /\ quiescent w = true /\ tasks_sound w.
Proof.
  intros w. split; [|split].
  - intros p. reflexivity.
  - reflexivity.
  - constructor.
Qed.

(** A promise not handed out yet has no settlement. *)
Lemma well_formed_fresh (w : World) (p : nat) :
  well_formed w -> (nextPromise w <= p)%nat -> settlements p w = [].
Proof.
  intros Hwf Hp. specialize (Hwf p).
  destruct (Nat.ltb_spec p (nextPromise w)) as [?|_]; [lia|].
  apply length_zero_iff_nil. lia.
Qed.

(** C8: from a state of rest, whatever vector of drafts the store returns,
    [getAllDrafts] resolves its promise, once, with an array holding one
    object with the key and the text for each draft whose text is not empty,
    in the store's order, and nothing for a draft with an empty text; the
    array has as many slots as [count_if] counted, and is the empty array
    when the store has no draft. *)
Theorem getAllDrafts_lists_drafts_with_text
    (w : World) (draftsVector : list Draft) (d' : DB) :
  well_formed w ->
  quiescent w = true ->
  qe_call QE_getAllDrafts (database w) = (Ret draftsVector, d') ->
  let p := nextPromise w in
  let listed := filter has_text draftsVector in
  exists w',
    await 2 getAllDrafts w = (Ret p, w')
    /\ quiescent w' = true
    /\ settled_with p
         (EvResolve p
            (VArray ((fun d => VObject [("key", VString (draft_key d));
                                        ("text", VString (draft_text d))])
                     <$> listed))) w'
    /\ (forall d, d ∈ listed <-> d ∈ draftsVector /\ draft_text d <> "")
    /\ length listed
       = count_if (fun d => negb (str_empty (draft_text d))) draftsVector
    /\ (draftsVector = [] -> listed = []).
Proof.
  intros Hwf Hq Hcall p listed.
  assert (Hlist : (forall d, d ∈ listed <-> d ∈ draftsVector /\ draft_text d <> "")
                  /\ length listed
                     = count_if (fun d => negb (str_empty (draft_text d)))
                         draftsVector
                  /\ (draftsVector = [] -> listed = [])).
  { split; [|split].
    - intros d. unfold listed. rewrite list_elem_of_filter. unfold has_text. tauto.
    - symmetry. apply count_if_has_text.
    - intros E. unfold listed. by rewrite E. }
  pose proof (well_formed_fresh w p Hwf (le_n _)) as Hfresh.
  destruct (quiescent_cases w Hq) as (Hd & Hc & Hj).
  unfold settled_with, settlements in *.
  destruct w as [d cm nc ss r dt ct nt jq np tr]; simpl in *. subst jq.
  destruct Hd as [-> | ->], Hc as [-> | ->];
    (eexists; split;
     [ run; rewrite Hcall; run; rewrite writeDrafts_newArray; run; reflexivity |]);
    (split; [reflexivity|]);
    (split; [ cbn; rewrite !filter_app, Hfresh; cbn; rewrite Nat.eqb_refl;
              reflexivity | exact Hlist ]).
Qed.

End Running.

(** ** Translating the caller's payload (lines 248-358) *)

Lemma parseOperation_unsupported (op : Value) (op_type : string) :
  unsupported op op_type -> parseOperation op = Ret (Unsupported op_type).
Proof.
  intros (Hobj & Htype & H1 & H2 & H3 & H4).
  unfold parseOperation, asObject. rewrite Hobj. cbn. rewrite Htype. cbn.
  apply String.eqb_neq in H1, H2, H3, H4. by rewrite H1, H2, H3, H4.
Qed.

(** A string with no number to convert in the [type] field of a replace
    payload makes [std::stoi] throw. *)
Lemma parseOperation_replace_type (op : Value) (s : string) :
  replace_with_type op s -> strto s = None ->
  parseOperation op = Throw (std_invalid_argument "stoi").
Proof.
  intros (Hobj & Htype & Hpay & Hid & Hth & Hus & Hty) Hs.
  unfold parseOperation, asObject. rewrite Hobj. cbn. rewrite Htype. cbn.
  unfold parseReplace, asObject. rewrite Hpay. cbn.
  destruct (getProperty (getProperty op "payload") "id"); try discriminate.
  destruct (getProperty (getProperty op "payload") "thread"); try discriminate.
  destruct (getProperty (getProperty op "payload") "user"); try discriminate.
  cbn. rewrite Hty. cbn.
  destruct (getProperty (getProperty op "payload") "local_id");
    cbn; unfold stoi; rewrite Hs; reflexivity.
Qed.

Example stoi_converts :
  stoi "42" = Ret 42
  /\ stoi "  -7" = Ret (-7)
  /\ stoi "12abc" = Ret 12
  /\ stoi "text" = Throw (std_invalid_argument "stoi")
  /\ stoi "2147483648" = Throw (std_out_of_range "stoi")
  /\ stoll "2147483648" = Ret 2147483648
  /\ stoll "" = Throw (std_invalid_argument "stoll").
Proof. repeat split. Qed.

(** Each of the three numeric fields of a replace payload makes the
    translation throw when it holds no number. *)
Example malformed_numeric_fields :
  parseOperation Examples.malformedReplace = Throw (std_invalid_argument "stoi")
  /\ parseOperation Examples.malformedFutureType
     = Throw (std_invalid_argument "stoi")
  /\ parseOperation Examples.malformedTime = Throw (std_invalid_argument "stoll").
Proof. repeat split. Qed.

(** An exception met in the loop leaves it at once. *)
Lemma parseOperations_throw (before after : list Value) (op : Value) (e : exn) :
  forall acc ops,
    parseOperations before acc = Ret (inl ops) ->
    parseOperation op = Throw e ->
    parseOperations (before ++ op :: after) acc = Throw e.
Proof.
  induction before as [|v before IH]; intros acc ops Hb Hop; cbn in *.
  - by rewrite Hop.
  - destruct (parseOperation v) as [[o|t]|e']; cbn in *; try discriminate.
    eapply IH; eauto.
Qed.

Lemma parseOperations_unsupported (before after : list Value) (op : Value)
    (op_type : string) :
  forall acc ops,
    parseOperations before acc = Ret (inl ops) ->
    parseOperation op = Ret (Unsupported op_type) ->
    parseOperations (before ++ op :: after) acc = Ret (inr op_type).
Proof.
  induction before as [|v before IH]; intros acc ops Hb Hop; cbn in *.
  - by rewrite Hop.
  - destruct (parseOperation v) as [[o|t]|e']; cbn in *; try discriminate.
    eapply IH; eauto.
Qed.

(** The loop keeps the caller's order: the operations it returns are the
    translations of the elements, one for one. *)
Lemma parseOperations_in_order (operations : list Value) :
  forall acc ops,
    parseOperations operations acc = Ret (inl ops) ->
    exists ops',
      ops = acc ++ ops'
      /\ Forall2 (fun v op => parseOperation v = Ret (Supported op))
           operations ops'.
Proof.
  induction operations as [|v operations IH]; intros acc ops H; cbn in H.
  - simplify_eq. exists []. by rewrite app_nil_r.
  - destruct (parseOperation v) as [[op|t]|e] eqn:E; cbn in H; try discriminate.
    destruct (IH _ _ H) as (ops' & -> & Hall).
    exists (op :: ops'). split; [by rewrite <- app_assoc|].
    by constructor.
Qed.

(** A batch holding an unsupported operation never comes out of the loop as
    a list of operations. *)
Lemma parseOperations_not_all (batch : list Value) (op : Value) (op_type : string) :
  op ∈ batch ->
  parseOperation op = Ret (Unsupported op_type) ->
  forall acc ops, parseOperations batch acc <> Ret (inl ops).
Proof.
  intros Hin Hop. induction batch as [|v batch IH]; intros acc ops.
  - by apply not_elem_of_nil in Hin.
  - cbn. apply elem_of_cons in Hin as [<-|Hin].
    + rewrite Hop. discriminate.
    + destruct (parseOperation v) as [[o|t]|e']; cbn; try discriminate.
      by apply IH.
Qed.

Section Batches.

Context {DB CM Rng : Type} {store : QueryExecutor DB} {crypto : Crypto CM Rng}.
Local Abbreviation World := (World DB CM Rng).

(** C7 (as the code has it): a payload whose translation raises makes
    [processMessageStoreOperations] leave by that exception, on the caller's
    thread; no promise is created, nothing is rejected, no task is given to
    a worker or to the JS invoker and no collaborator is called: the state
    is the one before the call. *)
Theorem malformed_payload_raises
    (operations : list Value) (e : exn) (w : World) :
  parseOperations operations [] = Throw e ->
  processMessageStoreOperations operations w = (Throw e, w).
Proof. intros H. run. by rewrite H. Qed.

(** After the call on a batch that holds an unsupported operation, the store
    is the one before the call and nothing more waits for a worker. *)
Lemma unsupported_batch_leaves_store (batch : list Value) (op : Value)
    (op_type : string) (w : World) :
  op ∈ batch ->
  unsupported op op_type ->
  let w' := (processMessageStoreOperations batch w).2 in
  database w' = database w
  /\ storeCalls w' = storeCalls w
  /\ databaseThread w' = databaseThread w
  /\ cryptoThread w' = cryptoThread w.
Proof.
  intros Hin Hop.
  pose proof (parseOperations_not_all batch op op_type Hin
                (parseOperation_unsupported _ _ Hop) []) as Hno.
  unfold storeCalls. run.
  destruct (parseOperations batch []) as [[ops|t]|e]; cbn.
  - by destruct (Hno ops).
  - rewrite filter_app. cbn. by rewrite app_nil_r.
  - done.
Qed.

(** C5 (as the code has it): when the operations before it translate, an
    operation with an unsupported type tag makes the call return a promise
    that is rejected, once, with "unsupported operation: " and the tag; the
    only task created is the rejecting callback, given to the JS invoker.
    Whatever comes before it, no store call is made, so no transaction is
    opened, nothing is given to the database worker and the store is
    unchanged. *)
Theorem unsupported_operation_rejected
    (before after : list Value) (op : Value) (op_type : string)
    (ops : list MessageStoreOperation) (w : World) :
  well_formed w ->
  quiescent w = true ->
  unsupported op op_type ->
  let p := nextPromise w in
  (parseOperations before [] = Ret (inl ops) ->
   exists w',
     await 1 (processMessageStoreOperations (before ++ op :: after)) w
     = (Ret p, w')
     /\ trace w' = trace w ++ [EvInvokeAsync (RejectUnsupported p op_type);
                               EvReject p ("unsupported operation: " +:+ op_type)]
     /\ settled_with p (EvReject p ("unsupported operation: " +:+ op_type)) w'
     /\ database w' = database w
     /\ databaseThread w' = databaseThread w
     /\ quiescent w' = true)
  /\ (forall batch : list Value,
        op ∈ batch ->
        let w' := (processMessageStoreOperations batch w).2 in
        database w' = database w
        /\ storeCalls w' = storeCalls w
        /\ databaseThread w' = databaseThread w).
Proof.
  intros Hwf Hq Hop p. split.
  - intros Hbefore.
    pose proof (parseOperations_unsupported before after op op_type [] ops
                  Hbefore (parseOperation_unsupported _ _ Hop)) as Hparse.
    pose proof (well_formed_fresh w p Hwf (le_n _)) as Hfresh.
    destruct (quiescent_cases w Hq) as (Hd & Hc & Hj).
    unfold settled_with, settlements in *.
    destruct w as [d cm nc ss r dt ct nt jq np tr]; simpl in *. subst jq.
    destruct Hd as [-> | ->], Hc as [-> | ->];
      (eexists; split; [ run; rewrite Hparse; run; reflexivity |]);
      cbn; rewrite <- !app_assoc; cbn;
      (split; [reflexivity|]);
      (split; [ rewrite !filter_app, Hfresh; cbn; rewrite Nat.eqb_refl;
                reflexivity |]); done.
  - intros batch Hin.
    destruct (unsupported_batch_leaves_store batch op op_type w Hin Hop)
      as (H1 & H2 & H3 & _).
    done.
Qed.

End Batches.

(** ** Batches in a transaction (lines 360-383) *)

Lemma executions_store_events (ops : list MessageStoreOperation) :
  filter (fun e => is_store_event e = true) (executions ops) = executions ops.
Proof.
  induction ops as [|op ops IH]; [done|].
  change (executions (op :: ops)) with (EvStore (OP_execute op) :: executions ops).
  rewrite filter_cons. cbn. by rewrite IH.
Qed.

Lemma executions_no_settlement (p : nat) (ops : list MessageStoreOperation) :
  filter (fun e => is_settlement p e = true) (executions ops) = [].
Proof.
  induction ops as [|op ops IH]; [done|].
  change (executions (op :: ops)) with (EvStore (OP_execute op) :: executions ops).
  rewrite filter_cons. cbn. by rewrite IH.
Qed.

Section Transactions.

Context {DB CM Rng : Type} {store : QueryExecutor DB} {crypto : Crypto CM Rng}.
Local Abbreviation World := (World DB CM Rng).

Lemma logs_nil (w : World) : set_database (database w) (logs [] w) = w.
Proof. destruct w. unfold set_database, logs. cbn. by rewrite app_nil_r. Qed.

(** The loop over the operations makes the store calls [executeOn] stands
    for, and logs each. *)
Lemma executeAll_ok (ops : list MessageStoreOperation) :
  forall (w : World) (dn : DB),
    executeOn ops (database w) = (Ret tt, dn) ->
    executeAll ops w = (Ret tt, set_database dn (logs (executions ops) w)).
Proof.
  induction ops as [|op ops IH]; intros w dn H; cbn in *.
  - injection H as <-. by rewrite logs_nil.
  - run. destruct (qe_call (OP_execute op) (database w)) as [[[]|e] d1] eqn:E;
      [|discriminate].
    erewrite IH by (cbn; exact H).
    unfold set_database, logs. cbn. by rewrite <- app_assoc.
Qed.

(** The loop stops at the first operation that throws. *)
Lemma executeAll_fail (done : list MessageStoreOperation)
    (op : MessageStoreOperation) (rest : list MessageStoreOperation) (e : exn) :
  forall (w : World) (dk dk' : DB),
    executeOn done (database w) = (Ret tt, dk) ->
    qe_call (OP_execute op) dk = (Throw e, dk') ->
    executeAll (done ++ op :: rest) w
    = (Throw e, set_database dk' (logs (executions (done ++ [op])) w)).
Proof.
  induction done as [|o done IH]; intros w dk dk' H Hop; cbn in *.
  - injection H as <-. run. by rewrite Hop.
  - run. destruct (qe_call (OP_execute o) (database w)) as [[[]|e'] d1] eqn:E;
      [|discriminate].
    erewrite IH by (cbn; eauto).
    unfold set_database, logs. cbn. by rewrite <- app_assoc.
Qed.

(** C1 (as the code has it): for a batch of supported operations, from a
    state of rest, [beginTransaction] is called once and first, then
    [execute] of each operation, the operations being the translations of
    the caller's elements in the caller's order.  When every one
    returns, [commitTransaction] is called and the promise is resolved.
    When one throws a [std::system_error] with a message, the operations
    after it are not executed, [commitTransaction] is not called and the
    promise is rejected, once, with the message; no other store call
    follows, so the store stays as the failing call left it. *)
Theorem processMessageStoreOperations_transaction
    (operations : list Value) (ops : list MessageStoreOperation)
    (w : World) (d1 : DB) :
  well_formed w ->
  quiescent w = true ->
  parseOperations operations [] = Ret (inl ops) ->
  qe_call QE_beginTransaction (database w) = (Ret tt, d1) ->
  let p := nextPromise w in
  Forall2 (fun v op => parseOperation v = Ret (Supported op)) operations ops
  /\ (forall dn d' : DB,
      executeOn ops d1 = (Ret tt, dn) ->
      qe_call QE_commitTransaction dn = (Ret tt, d') ->
      exists w',
        await 2 (processMessageStoreOperations operations) w = (Ret p, w')
        /\ storeCalls w'
           = storeCalls w ++ [EvStore QE_beginTransaction] ++ executions ops
               ++ [EvStore QE_commitTransaction]
        /\ database w' = d'
        /\ settled_with p (EvResolve p VUndefined) w')
  /\ (forall (done rest : list MessageStoreOperation) (op : MessageStoreOperation)
        (dk dk' : DB) (what : string),
        ops = done ++ op :: rest ->
        executeOn done d1 = (Ret tt, dk) ->
        qe_call (OP_execute op) dk = (Throw (std_system_error what), dk') ->
        what <> "" ->
        exists w',
          await 2 (processMessageStoreOperations operations) w = (Ret p, w')
          /\ storeCalls w'
             = storeCalls w ++ [EvStore QE_beginTransaction]
                 ++ executions (done ++ [op])
          /\ database w' = dk'
          /\ settled_with p (EvReject p what) w').
Proof.
  intros Hwf Hq Hparse Hbegin p.
  pose proof (well_formed_fresh w p Hwf (le_n _)) as Hfresh.
  destruct (quiescent_cases w Hq) as (Hd & Hc & Hj).
  unfold settled_with, settlements, storeCalls in *.
  destruct w as [d cm nc ss r dt ct nt jq np tr]; simpl in *. subst jq.
  split; [|split].
  - destruct (parseOperations_in_order _ _ _ Hparse) as (ops' & -> & Hall).
    exact Hall.
  - intros dn d' Hexec Hcommit.
    destruct Hd as [-> | ->], Hc as [-> | ->];
      (eexists; split;
       [ run; rewrite Hparse; run; rewrite Hbegin; run;
         erewrite executeAll_ok by (cbn; exact Hexec);
         run; rewrite Hcommit; run; reflexivity |]);
      cbn;
      rewrite !filter_app, Hfresh, executions_store_events,
        executions_no_settlement;
      cbn; rewrite Nat.eqb_refl, <- !app_assoc, ?app_nil_r; done.
  - intros done rest op dk dk' what -> Hexec Hop Hwhat.
    apply str_empty_false in Hwhat.
    destruct Hd as [-> | ->], Hc as [-> | ->];
      (eexists; split;
       [ run; rewrite Hparse; run; rewrite Hbegin; run;
         erewrite executeAll_fail by (cbn; eauto);
         run; rewrite Hwhat; run; reflexivity |]);
      cbn;
      rewrite !filter_app, Hfresh, executions_store_events,
        executions_no_settlement;
      cbn; rewrite Nat.eqb_refl, <- !app_assoc, ?app_nil_r; done.
Qed.

End Transactions.

(** ** Examples of batches *)

Lemma fresh_well_formed (s : Ref.Store) : well_formed (Examples.fresh s).
Proof. apply (newModule_at_rest s ∅ 0%nat). Qed.

Lemma processMessageStoreOperations_transaction_witness :
  exists w',
    await 2 (processMessageStoreOperations [Examples.removeOp; Examples.rekeyOp])
      (Examples.fresh (Examples.storeWithMessage Examples.rekey_fails))
    = (Ret 0%nat, w')
    /\ storeCalls w'
       = [EvStore QE_beginTransaction;
          EvStore (OP_execute (RemoveMessagesOperation ["m1"]));
          EvStore (OP_execute (RekeyMessageOperation "t1" "t2"))]
    /\ settled_with 0%nat (EvReject 0%nat "database is locked") w'.
Proof.
  destruct (processMessageStoreOperations_transaction
              [Examples.removeOp; Examples.rekeyOp]
              [RemoveMessagesOperation ["m1"]; RekeyMessageOperation "t1" "t2"]
              (Examples.fresh (Examples.storeWithMessage Examples.rekey_fails))
              (Ref.set_in_transaction true
                 (Examples.storeWithMessage Examples.rekey_fails))
              (fresh_well_formed _) eq_refl eq_refl eq_refl) as (_ & _ & Hfail).
  destruct (Hfail [RemoveMessagesOperation ["m1"]] []
              (RekeyMessageOperation "t1" "t2")
              (Ref.removeMessages ["m1"]
                 (Ref.set_in_transaction true
                    (Examples.storeWithMessage Examples.rekey_fails)))
              (Ref.removeMessages ["m1"]
                 (Ref.set_in_transaction true
                    (Examples.storeWithMessage Examples.rekey_fails)))
              "database is locked" eq_refl eq_refl eq_refl
              ltac:(discriminate)) as (w' & H1 & H2 & _ & H4).
  exists w'. split; [exact H1|]. split; [exact H2|exact H4].
Defined.

(** C1 fails as stated: the second operation of the batch throws, the
    promise is rejected, nothing rolls the transaction back, it stays open,
    and the message the first operation removed is gone from the store. *)
Lemma failed_batch_is_not_undone :
  Examples.failedBatch.1 = Ret 0%nat
  /\ settlements 0 Examples.failedBatch.2 = [EvReject 0%nat "database is locked"]
  /\ storeCalls Examples.failedBatch.2
     = [EvStore QE_beginTransaction;
        EvStore (OP_execute (RemoveMessagesOperation ["m1"]));
        EvStore (OP_execute (RekeyMessageOperation "t1" "t2"))]
  /\ Ref.messages (Examples.storeWithMessage Examples.rekey_fails)
     = [Examples.message1]
  /\ Ref.messages (database Examples.failedBatch.2) = []
  /\ Ref.in_transaction (database Examples.failedBatch.2) = true.
Proof. vm_compute. repeat split. Qed.

Lemma malformed_payload_raises_witness :
  processMessageStoreOperations [Examples.malformedReplace]
    (Examples.fresh Ref.emptyStore)
  = (Throw (std_invalid_argument "stoi"), Examples.fresh Ref.emptyStore).
Proof. apply malformed_payload_raises. reflexivity. Defined.

(** C7 fails as stated: a replace operation whose [type] is "text" makes the
    call throw [std::invalid_argument]; no promise is returned, and none is
    rejected however long the threads run. *)
Lemma malformed_payload_is_not_rejected :
  (processMessageStoreOperations [Examples.malformedReplace]
     (Examples.fresh Ref.emptyStore)).1
  = Throw (std_invalid_argument "stoi")
  /\ nextPromise
       (processMessageStoreOperations [Examples.malformedReplace]
          (Examples.fresh Ref.emptyStore)).2 = 0%nat
  /\ trace (drain 8
              (processMessageStoreOperations [Examples.malformedReplace]
                 (Examples.fresh Ref.emptyStore)).2).2 = [].
Proof. vm_compute. repeat split. Qed.

Lemma bogusOp_unsupported : unsupported Examples.bogusOp "bogus".
Proof. repeat split; discriminate. Qed.

Lemma unsupported_operation_rejected_witness :
  exists w',
    await 1 (processMessageStoreOperations [Examples.removeOp; Examples.bogusOp])
      (Examples.fresh (Examples.storeWithMessage Ref.no_fault))
    = (Ret 0%nat, w')
    /\ settled_with 0%nat (EvReject 0%nat "unsupported operation: bogus") w'
    /\ database w' = Examples.storeWithMessage Ref.no_fault.
Proof.
  destruct (unsupported_operation_rejected [Examples.removeOp] []
              Examples.bogusOp "bogus" [RemoveMessagesOperation ["m1"]]
              (Examples.fresh (Examples.storeWithMessage Ref.no_fault))
              (fresh_well_formed _) eq_refl bogusOp_unsupported) as [Hrej _].
  destruct (Hrej eq_refl) as (w' & H1 & _ & H3 & H4 & _).
  exists w'. split; [exact H1|]. split; [exact H3|exact H4].
Defined.

(** C5 fails as stated: with a malformed operation before the unsupported
    one the call throws, and no promise is rejected with an
    unsupported-operation error. *)
Lemma unsupported_after_malformed_raises :
  Examples.bogusOp ∈ [Examples.malformedReplace; Examples.bogusOp]
  /\ (processMessageStoreOperations [Examples.malformedReplace; Examples.bogusOp]
        (Examples.fresh Ref.emptyStore)).1
     = Throw (std_invalid_argument "stoi")
  /\ trace (drain 8
              (processMessageStoreOperations
                 [Examples.malformedReplace; Examples.bogusOp]
                 (Examples.fresh Ref.emptyStore)).2).2 = [].
Proof. split; [set_solver|]. vm_compute. split; reflexivity. Qed.

Lemma getAllDrafts_lists_drafts_with_text_witness :
  exists w',
    await 2 getAllDrafts (Examples.fresh Examples.draftsStore)
    = (Ret 0%nat, w')
    /\ settled_with 0%nat
         (EvResolve 0%nat
            (VArray [VObject [("key", VString "thread1"); ("text", VString "hello")];
                     VObject [("key", VString "thread3"); ("text", VString "bye")]]))
         w'.
Proof.
  destruct (getAllDrafts_lists_drafts_with_text
              (Examples.fresh Examples.draftsStore)
              (Ref.drafts Examples.draftsStore) Examples.draftsStore
              (fresh_well_formed _) eq_refl eq_refl) as (w' & H1 & _ & H3 & _).
  exists w'. split; [exact H1|exact H3].
Defined.

(** ** Exporting keys (lines 481-525) *)

Section KeyExport.

Context {DB CM Rng : Type} {store : QueryExecutor DB} {crypto : Crypto CM Rng}.
Local Abbreviation World := (World DB CM Rng).

(** Once the constructor has returned in the construct job, the module is
    set, whatever the rest of the job does. *)
Lemma constructJob_sets_module (p : nat) (userIdStr key : string)
    (persist : Persist) (m : CM) (w : World) :
  cm_new userIdStr key persist = Ret m ->
  is_Some (cryptoModule (runTask (ConstructJob p userIdStr key persist) w).2).
Proof.
  intros Hnew. run. rewrite Hnew. run.
  destruct (isEmpty persist); run.
  - destruct (cm_call (CM_storeAsB64 key) m) as [[np|e] m'] eqn:E; run; [|eauto].
    destruct (databaseThread w); run; [eauto|].
    destruct (qe_call (QE_storeOlmPersistData np) (database w)) as [[[]|[]] d'];
      run; eauto.
  - destruct (cm_call (CM_restoreFromB64 key persist) m) as [[[]|e] m'] eqn:E;
      run; eauto.
Qed.


End KeyExport.


(** ** Initialising the account when the store fails to load (lines 399-460) *)

(** C4, at the failing input: the store holds an account persisted earlier
    and throws [std::system_error] on reading it.  The error is caught at
    line 420 and not looked at again: a new identity is constructed from an
    empty state, written over the persisted one, and the promise is
    resolved. *)
Lemma load_failure_is_dropped :
  Examples.initAfterFailedLoad.1 = Ret 0%nat
  /\ settlements 0 Examples.initAfterFailedLoad.2 = [EvResolve 0%nat VUndefined]
  /\ storeCalls Examples.initAfterFailedLoad.2
     = [EvStore QE_getOlmPersistAccountData;
        EvStore (QE_storeOlmPersistData
                   (mkPersist (Ref.newAccount "alice" Examples.secretKey) ∅))]
  /\ Ref.olm_account (Examples.aliceStore Examples.load_fails)
     = Some "account of alice, first run"
  /\ Ref.olm_account (database Examples.initAfterFailedLoad.2)
     = Some "account:alice:0123456789abcdef".
Proof. vm_compute. repeat split. Qed.

(** ** Every promise is settled once *)

Section Ledger.

Context {DB CM Rng : Type} {store : QueryExecutor DB} {crypto : Crypto CM Rng}.
Local Abbreviation World := (World DB CM Rng).
Local Abbreviation M := (@M DB CM Rng).
Local Abbreviation quiet := (@quiet DB CM Rng _).
Local Abbreviation hands_over := (@hands_over DB CM Rng).
Local Abbreviation issues := (@issues DB CM Rng).

Ltac quiet_start :=
  let w := fresh "w" in let o := fresh "o" in let w' := fresh "w'" in
  let H := fresh "H" in
  intros w o w' H; autounfold with comm in H; cbn in H.

Ltac quiet_done :=
  simplify_eq; cbn; unfold settlements; cbn;
  repeat split; try done;
  intros; rewrite ?filter_app; cbn; by rewrite ?app_nil_r.

Lemma quiet_ret {A} (a : A) : quiet (mret a : M A).
Proof. quiet_start. quiet_done. Qed.

Lemma quiet_lift {A} (o : outcome A) : quiet (lift o : M A).
Proof. quiet_start. quiet_done. Qed.

Lemma quiet_storeCall (c : StoreCall) : quiet (storeCall c).
Proof.
  quiet_start. destruct (qe_call c (database w)) as [r d]. quiet_done.
Qed.

Lemma quiet_cryptoCall (c : CryptoCall) : quiet (cryptoCall c).
Proof.
  quiet_start. destruct (cryptoModule w) as [m|]; [|quiet_done].
  destruct (cm_call c m) as [r m']. quiet_done.
Qed.

Lemma quiet_newCryptoModule (u k : string) (persist : Persist) :
  quiet (newCryptoModule u k persist).
Proof. quiet_start. destruct (cm_new u k persist); quiet_done. Qed.

Lemma quiet_getCryptoModule : quiet getCryptoModule.
Proof. quiet_start. quiet_done. Qed.

Lemma quiet_secureStore_get (k : string) :
  quiet (secureStore_get k).
Proof. quiet_start. quiet_done. Qed.

Lemma quiet_secureStore_set (k v : string) :
  quiet (secureStore_set k v).
Proof. quiet_start. quiet_done. Qed.

Lemma quiet_generateRandom (n : nat) : quiet (generateRandom n).
Proof.
  quiet_start. destruct (generateRandomString n (rng w)). quiet_done.
Qed.

Lemma quiet_bind {A B} (m : M A) (f : A -> M B) :
  quiet m -> (forall a, quiet (f a)) -> quiet (m ≫= f).
Proof.
  intros Hm Hf w o w' H. unfold mbind, M_bind in H.
  destruct (m w) as [[a|e] w1] eqn:E.
  - destruct (Hm _ _ _ E) as (H1 & H2 & H3 & H4 & H5).
    destruct (Hf a _ _ _ H) as (G1 & G2 & G3 & G4 & G5).
    repeat split; first [congruence | intros p; by rewrite G5].
  - simplify_eq. by apply (Hm _ _ _ E).
Qed.

Lemma quiet_try_catch {A} (body : M A) (handler : string -> M A) :
  quiet body -> (forall what, quiet (handler what)) -> quiet (try_catch body handler).
Proof.
  intros Hb Hh w o w' H. unfold try_catch in H.
  destruct (body w) as [[a|e] w1] eqn:E.
  - simplify_eq. by apply (Hb _ _ _ E).
  - destruct (Hb _ _ _ E) as (H1 & H2 & H3 & H4 & H5).
    destruct e; simplify_eq; try by apply (Hb _ _ _ E).
    destruct (Hh what _ _ _ H) as (G1 & G2 & G3 & G4 & G5).
    repeat split; first [congruence | intros p; by rewrite G5].
Qed.

Lemma quiet_executeAll (ops : list MessageStoreOperation) : quiet (executeAll ops).
Proof.
  induction ops as [|op ops IH].
  - apply quiet_ret.
  - cbn [executeAll].
    apply quiet_bind; [apply (quiet_storeCall (OP_execute op))|].
    intros _. exact IH.
Qed.

Lemma count_for_app (p : nat) (l k : list Task) :
  count_for p (l ++ k) = (count_for p l + count_for p k)%nat.
Proof. unfold count_for. by rewrite filter_app, length_app. Qed.

Lemma count_for_one (p : nat) (t : Task) :
  count_for p [t] = one_for (task_promise t) p.
Proof.
  unfold count_for, one_for. rewrite filter_cons, filter_nil.
  destruct (decide (task_promise t = p)), (decide (p = task_promise t));
    done || congruence.
Qed.

Lemma count_for_cons (p : nat) (t : Task) (l : list Task) :
  count_for p (t :: l) = (one_for (task_promise t) p + count_for p l)%nat.
Proof. by rewrite <- count_for_one, <- count_for_app. Qed.

Lemma quiet_weight (w w' : World) :
  nextPromise w' = nextPromise w
  /\ databaseThread w' = databaseThread w
  /\ cryptoThread w' = cryptoThread w
  /\ jsQueue w' = jsQueue w
  /\ (forall p, settlements p w' = settlements p w) ->
  workload w' = workload w /\ forall p, weight p w' = weight p w.
Proof.
  intros (_ & H2 & H3 & H4 & H5).
  unfold workload, weight, pending, waiting. rewrite H2, H3, H4.
  split; [done|]. intros p. by rewrite H5.
Qed.

Lemma hands_over_mono (q n n' : nat) (m : M unit) :
  (n <= n')%nat -> hands_over q n m -> hands_over q n' m.
Proof.
  intros Hn Hm w o w' H. destruct (Hm _ _ _ H) as (H1 & H2 & H3).
  repeat split; [done|lia|done].
Qed.

Lemma hands_over_bind {A} (q n : nat) (m : M A) (f : A -> M unit) :
  quiet m -> (forall a, hands_over q n (f a)) -> hands_over q n (m ≫= f).
Proof.
  intros Hm Hf w o w' H. unfold mbind, M_bind in H.
  destruct (m w) as [[a|e] w1] eqn:E.
  - pose proof (Hm _ _ _ E) as Hq.
    destruct (quiet_weight _ _ Hq) as [Hl Hw]. destruct Hq as (H1 & _).
    destruct (Hf a _ _ _ H) as (G1 & G2 & G3).
    repeat split; [congruence|lia|]. intros p. by rewrite G3, Hw.
  - simplify_eq. pose proof (Hm _ _ _ E) as Hq.
    destruct (quiet_weight _ _ Hq) as [Hl Hw]. destruct Hq as (H1 & _).
    repeat split; [done|lia|]. intros p. cbn. rewrite Hw. lia.
Qed.

Ltac ledger_arith :=
  unfold workload, weight, pending, waiting, settlements, one_for; cbn;
  split; [done|split; [|intros ?p]];
  rewrite ?sum_list_with_app, ?count_for_app, ?count_for_one, ?filter_app,
    ?length_app, ?filter_cons, ?filter_nil;
  unfold one_for; cbn;
  repeat match goal with
         | |- context [Nat.eqb ?a ?b] => destruct (Nat.eqb_spec a b); cbn
         | |- context [decide (?a = ?b)] => destruct (decide (a = b)); cbn
         end;
  lia || congruence.

Lemma hands_over_invokeAsync (q n : nat) (t : Task) :
  task_promise t = q -> (rank t <= n)%nat -> hands_over q n (invokeAsync t).
Proof.
  intros <- Hn w o w' H. unfold invokeAsync in H. simplify_eq. ledger_arith.
Qed.

Lemma hands_over_resolve (q n : nat) (v : Value) : hands_over q n (resolve q v).
Proof. intros w o w' H. unfold resolve in H. simplify_eq. ledger_arith. Qed.

Lemma hands_over_reject (q n : nat) (msg : string) : hands_over q n (reject q msg).
Proof. intros w o w' H. unfold reject in H. simplify_eq. ledger_arith. Qed.

Lemma hands_over_undefined (q n : nat) (what : string) :
  hands_over q n (undefined what : M unit).
Proof.
  intros w o w' H. unfold undefined, lift in H. simplify_eq.
  repeat split; [lia|]. intros p. cbn. lia.
Qed.

Lemma hands_over_scheduleOrRun (q n : nat) (th : Worker) (t : Task)
    (task : M unit) :
  task_promise t = q -> (rank t <= n)%nat -> hands_over q n task ->
  hands_over q n (scheduleOrRun th t task).
Proof.
  intros <- Hn Htask w o w' H. unfold scheduleOrRun in H.
  destruct (workerThread th w) as [queue|] eqn:E; [|by apply Htask].
  simplify_eq. destruct w, th; cbn in E; subst; ledger_arith.
Qed.

Ltac ledger :=
  repeat first
    [ progress intros
    | match goal with x : (_ * _)%type |- _ => destruct x end
    | apply quiet_ret | apply quiet_lift
    | match goal with
      | |- context [storeCall ?c] => apply (quiet_storeCall c)
      | |- context [cryptoCall ?c] => apply (quiet_cryptoCall c)
      end
    | apply quiet_newCryptoModule
    | apply quiet_getCryptoModule | apply quiet_executeAll
    | apply quiet_secureStore_get | apply quiet_secureStore_set
    | apply quiet_generateRandom
    | apply quiet_bind | apply quiet_try_catch
    | apply hands_over_resolve | apply hands_over_reject
    | apply hands_over_undefined
    | apply hands_over_invokeAsync; [reflexivity | cbn; lia]
    | apply hands_over_bind
    | match goal with
      | |- context [if ?b then _ else _] => destruct b
      | |- context [match ?x with _ => _ end] => destruct x
      end ].

Lemma quiet_loadPersist : quiet loadPersist.
Proof. unfold loadPersist. ledger. Qed.

Lemma hands_over_storePersistJob (p : nat) (newPersist : Persist) :
  hands_over p 1 (storePersistJob p newPersist).
Proof. unfold storePersistJob. ledger. Qed.

Lemma hands_over_constructJob (p : nat) (userIdStr key : string) (persist : Persist) :
  hands_over p 2 (constructJob p userIdStr key persist).
Proof.
  unfold constructJob.
  apply hands_over_bind; [apply quiet_newCryptoModule|]. intros _.
  destruct (isEmpty persist).
  - apply hands_over_bind; [apply (quiet_cryptoCall (CM_storeAsB64 key))|].
    intros newPersist.
    apply hands_over_scheduleOrRun; [done|cbn; lia|].
    eapply hands_over_mono; [|apply hands_over_storePersistJob]. lia.
  - ledger.
Qed.

Lemma hands_over_loadPersistJob (p : nat) (userIdStr key : string) :
  hands_over p 3 (loadPersistJob p userIdStr key).
Proof.
  unfold loadPersistJob.
  apply hands_over_bind; [apply quiet_loadPersist|]. intros [persist error].
  apply hands_over_scheduleOrRun; [done|cbn; lia|].
  eapply hands_over_mono; [|apply hands_over_constructJob]. lia.
Qed.

(** A task settles its promise or leaves one task for it, of lower rank. *)
Lemma runTask_hands_over (t : Task) :
  hands_over (task_promise t) (rank t - 1) (runTask t).
Proof.
  destruct t; cbn [runTask task_promise rank Nat.sub];
    try apply hands_over_loadPersistJob;
    try apply hands_over_constructJob;
    try apply hands_over_storePersistJob;
    unfold getDraftJob, updateDraftJob, moveDraftJob, getAllDraftsJob,
      removeAllDraftsJob, removeAllMessagesJob, getAllMessagesJob,
      processOperationsJob, getUserPublicKeyJob, getUserOneTimeKeysJob,
      settle, settleDrafts, settleMessages, rejectUnsupported;
    ledger.
Qed.

Lemma hands_over_submit (th : Worker) (t : Task) :
  hands_over (task_promise t) (rank t) (submit th t).
Proof.
  apply hands_over_scheduleOrRun; [done|done|].
  eapply hands_over_mono; [|apply runTask_hands_over]. lia.
Qed.

Lemma issues_createPromise (n : nat) (func : nat -> M unit) :
  (forall p, hands_over p n (func p)) -> issues (createPromiseAsJSIValue func).
Proof.
  intros Hf w o w' H. unfold createPromiseAsJSIValue in H.
  destruct (func (nextPromise w) (set_nextPromise (S (nextPromise w)) w))
    as [[[]|e] w1] eqn:E; simplify_eq;
    destruct (Hf _ _ _ _ E) as (H1 & _ & H3).
  - repeat split; [done|]. intros q. by rewrite H3.
  - split; [cbn in H1; lia|]. intros q. rewrite H3.
    change (weight q (set_nextPromise (S (nextPromise w)) w)) with (weight q w).
    cbn [returned]. lia.
Qed.

Lemma issues_bind {A} (m : M A) (f : A -> M nat) :
  quiet m -> (forall a, issues (f a)) -> issues (m ≫= f).
Proof.
  intros Hm Hf w o w' H. unfold mbind, M_bind in H.
  destruct (m w) as [[a|e] w1] eqn:E.
  - pose proof (Hm _ _ _ E) as Hq.
    destruct (quiet_weight _ _ Hq) as [_ Hw]. destruct Hq as (H1 & _).
    specialize (Hf a _ _ _ H). destruct o as [p|e].
    + destruct Hf as (G1 & G2 & G3). repeat split; [congruence|done|].
      intros q. rewrite G3, Hw. congruence.
    + destruct Hf as (G1 & G2). split; [lia|]. intros q. by rewrite G2, Hw.
  - simplify_eq. pose proof (Hm _ _ _ E) as Hq.
    destruct (quiet_weight _ _ Hq) as [_ Hw]. destruct Hq as (H1 & _).
    split; [lia|done].
Qed.

(** The key under which the secure store holds the secret key. *)
Variable K : string.

Lemma invoke_issues (c : Call) : issues (invoke K c).
Proof.
  destruct c; cbn [invoke];
    unfold getDraft, updateDraft, moveDraft, getAllDrafts, removeAllDrafts,
      removeAllMessages, getAllMessages, processMessageStoreOperations,
      initializeCryptoAccount, getUserPublicKey, getUserOneTimeKeys;
    repeat first
      [ apply issues_bind; [ledger|intros]
      | match goal with
        | |- context [match ?x with _ => _ end] => destruct x
        end
      | apply (issues_createPromise 4); intros;
        match goal with
        | |- context [submit ?th ?t] =>
            eapply hands_over_mono; [|apply (hands_over_submit th t)]; cbn; lia
        | |- context [invokeAsync ?t] =>
            apply hands_over_invokeAsync; [reflexivity|cbn; lia]
        end ].
Qed.

Lemma rank_pos (t : Task) : (1 <= rank t)%nat.
Proof. destruct t; cbn; lia. Qed.

(** A thread that runs a task takes it off its queue: the work left
    shrinks, no promise gains anything, and when the task returns every
    promise keeps what it had. *)
Lemma threadStep_ledger (th : Thread) (w : World) (o : outcome unit) (w' : World) :
  threadStep th w = Some (o, w') ->
  nextPromise w' = nextPromise w
  /\ (workload w' < workload w)%nat
  /\ (forall p, weight p w' <= weight p w)%nat
  /\ (returned o = true -> forall p, weight p w' = weight p w).
Proof.
  intros H. unfold threadStep in H.
  assert (exists t w1,
             runTask t w1 = (o, w')
             /\ nextPromise w1 = nextPromise w
             /\ (workload w1 + rank t = workload w)%nat
             /\ forall p, (weight p w1 + one_for (task_promise t) p)%nat
                          = weight p w) as (t & w1 & Hrun & Hn & Hl & Hw).
  { destruct th as [[]|]; cbn in H.
    - destruct (databaseThread w) as [[|t q]|] eqn:E; simplify_eq.
      exists t, (set_databaseThread (Some q) w). split; [done|].
      destruct w; cbn in E; subst.
      unfold workload, weight, pending, waiting, settlements; cbn.
      split; [done|]. split; [|intros p];
        repeat (rewrite ?sum_list_with_app, ?count_for_app, ?count_for_cons;
                cbn [sum_list_with]); lia.
    - destruct (cryptoThread w) as [[|t q]|] eqn:E; simplify_eq.
      exists t, (set_cryptoThread (Some q) w). split; [done|].
      destruct w; cbn in E; subst.
      unfold workload, weight, pending, waiting, settlements; cbn.
      split; [done|]. split; [|intros p];
        repeat (rewrite ?sum_list_with_app, ?count_for_app, ?count_for_cons;
                cbn [sum_list_with]); lia.
    - destruct (jsQueue w) as [|t q] eqn:E; simplify_eq.
      exists t, (set_jsQueue q w). split; [done|].
      destruct w; cbn in E; subst.
      unfold workload, weight, pending, waiting, settlements; cbn.
      split; [done|]. split; [|intros p];
        repeat (rewrite ?sum_list_with_app, ?count_for_app, ?count_for_cons;
                cbn [sum_list_with]); lia. }
  destruct (runTask_hands_over t _ _ _ Hrun) as (G1 & G2 & G3).
  pose proof (rank_pos t).
  repeat split; [congruence|lia| |].
  - intros p. specialize (G3 p). specialize (Hw p).
    destruct (returned o); lia.
  - intros Ho p. specialize (G3 p). specialize (Hw p).
    rewrite Ho in G3. lia.
Qed.

Lemma perform_bounded (a : Action) (w : World) :
  bounded w -> bounded (perform K a w).2.
Proof.
  intros Hb. destruct a as [c|th]; cbn [perform].
  - unfold mbind, M_bind, mret, M_ret.
    destruct (invoke K c w) as [[p|e] w1] eqn:E; cbn;
      pose proof (invoke_issues c _ _ _ E) as Hi; cbn in Hi; intros q;
      specialize (Hb q).
    + destruct Hi as (-> & H2 & H3). rewrite H3, H2. unfold one_for.
      destruct (decide (q = nextPromise w)) as [->|];
        repeat match goal with
               | |- context [Nat.ltb ?a ?b] => destruct (Nat.ltb_spec a b)
               | H : context [Nat.ltb ?a ?b] |- _ => destruct (Nat.ltb_spec a b)
               end; lia.
    + destruct Hi as (H2 & H3). rewrite H3.
      repeat match goal with
             | |- context [Nat.ltb ?a ?b] => destruct (Nat.ltb_spec a b)
             | H : context [Nat.ltb ?a ?b] |- _ => destruct (Nat.ltb_spec a b)
             end; lia.
  - unfold runThread. destruct (threadStep th w) as [[o w1]|] eqn:E; cbn; [|done].
    destruct (threadStep_ledger _ _ _ _ E) as (H1 & _ & H3 & _).
    intros q. specialize (Hb q). specialize (H3 q). rewrite H1. lia.
Qed.

Lemma perform_well_formed (a : Action) (w w' : World) :
  well_formed w -> perform K a w = (Ret tt, w') -> well_formed w'.
Proof.
  intros Hwf H. destruct a as [c|th]; cbn [perform] in H.
  - unfold mbind, M_bind, mret, M_ret in H.
    destruct (invoke K c w) as [[p|e] w1] eqn:E; simplify_eq.
    pose proof (invoke_issues c _ _ _ E) as Hi; cbn in Hi.
    destruct Hi as (-> & H2 & H3). intros q. specialize (Hwf q).
    fold (weight q w') in *. fold (weight q w) in Hwf.
    rewrite H3, H2, Hwf. unfold one_for.
    destruct (decide (q = nextPromise w)) as [->|];
      repeat match goal with
             | |- context [Nat.ltb ?a ?b] => destruct (Nat.ltb_spec a b)
             end; lia.
  - unfold runThread in H.
    destruct (threadStep th w) as [[o w1]|] eqn:E; cbn in H; simplify_eq; [|done].
    destruct (threadStep_ledger _ _ _ _ E) as (H1 & _ & _ & H4).
    intros q. specialize (Hwf q). fold (weight q w') in *. fold (weight q w) in Hwf.
    rewrite H4, H1 by done. done.
Qed.

Lemma well_formed_bounded (w : World) : well_formed w -> bounded w.
Proof. intros H p. specialize (H p). unfold weight. lia. Qed.

Lemma performEach_bounded (history : list Action) :
  forall w : World, bounded w -> bounded (performEach K history w).
Proof.
  induction history as [|a history IH]; intros w Hb; cbn; [done|].
  apply IH. by apply perform_bounded.
Qed.

Lemma performAll_well_formed (history : list Action) :
  forall w w' : World,
    well_formed w -> performAll K history w = (Ret tt, w') -> well_formed w'.
Proof.
  induction history as [|a history IH]; intros w w' Hwf H; cbn in H.
  - unfold mret, M_ret in H. by simplify_eq.
  - unfold mbind, M_bind in H.
    destruct (perform K a w) as [[[]|e] w1] eqn:E; [|done].
    eapply IH; [|done]. by eapply perform_well_formed.
Qed.

Lemma quiescent_nextThread (w : World) :
  quiescent w = true <-> nextThread w = None.
Proof.
  unfold quiescent, nextThread.
  destruct (threadStep (WorkerThread DatabaseWorker) w),
    (threadStep (WorkerThread CryptoWorker) w), (threadStep JsThread w);
    split; congruence.
Qed.

Lemma nextThread_step (w : World) (th : Thread) :
  nextThread w = Some th -> is_Some (threadStep th w).
Proof.
  unfold nextThread.
  destruct (threadStep (WorkerThread DatabaseWorker) w) eqn:E1,
    (threadStep (WorkerThread CryptoWorker) w) eqn:E2,
    (threadStep JsThread w) eqn:E3; intros H; simplify_eq; eauto.
Qed.

(** With fuel for the work left, draining stops only when nothing waits or
    when an exception leaves a task; it keeps the ledger either way. *)
Lemma drain_ledger (fuel : nat) :
  forall (w : World) (o : outcome unit) (w' : World),
    (workload w <= fuel)%nat ->
    drain fuel w = (o, w') ->
    nextPromise w' = nextPromise w
    /\ (bounded w -> bounded w')
    /\ (returned o = true ->
        quiescent w' = true /\ (well_formed w -> well_formed w')).
Proof.
  induction fuel as [|fuel IH]; intros w o w' Hl H; cbn in H.
  - injection H as <- <-. repeat split; try done.
    apply quiescent_nextThread. destruct (nextThread w) as [th|] eqn:E; [|done].
    destruct (nextThread_step _ _ E) as [[o1 w1] Hs].
    destruct (threadStep_ledger _ _ _ _ Hs) as (_ & ? & _). lia.
  - destruct (nextThread w) as [th|] eqn:E.
    + destruct (nextThread_step _ _ E) as [[o1 w1] Hs].
      destruct (threadStep_ledger _ _ _ _ Hs) as (H1 & H2 & H3 & H4).
      unfold mbind, M_bind, runThread in H. rewrite Hs in H. cbn in H.
      assert (Hb1 : bounded w -> bounded w1).
      { intros Hb q. specialize (Hb q). specialize (H3 q). rewrite H1. lia. }
      destruct o1 as [[]|e].
      * destruct (IH w1 o w' ltac:(lia) H) as (G1 & G2 & G3).
        repeat split; [congruence|tauto| |].
        -- by apply G3.
        -- intros Hwf. apply G3; [done|].
           intros q. specialize (Hwf q). fold (weight q w1).
           fold (weight q w) in Hwf. rewrite H4, H1 by done. done.
      * injection H as <- <-. repeat split; try done.
    + injection H as <- <-. repeat split; try done. by apply quiescent_nextThread.
Qed.

Lemma performAll_performEach (history : list Action) :
  forall w w' : World,
    performAll K history w = (Ret tt, w') -> performEach K history w = w'.
Proof.
  induction history as [|a history IH]; intros w w' H; cbn in H.
  - unfold mret, M_ret in H. by simplify_eq.
  - unfold mbind, M_bind in H. cbn [performEach].
    destruct (perform K a w) as [[[]|e] w1] eqn:E; [|done]. by apply IH.
Qed.

(** Promises are numbered upwards: no step takes a number back. *)
Lemma perform_nextPromise (a : Action) (w : World) :
  (nextPromise w <= nextPromise (perform K a w).2)%nat.
Proof.
  destruct a as [c|th]; cbn [perform].
  - unfold mbind, M_bind, mret, M_ret.
    destruct (invoke K c w) as [[p|e] w1] eqn:E; cbn;
      pose proof (invoke_issues c _ _ _ E) as Hi; cbn in Hi.
    + destruct Hi as (-> & H2 & _). lia.
    + by destruct Hi.
  - unfold runThread. destruct (threadStep th w) as [[o w1]|] eqn:E; cbn; [|done].
    destruct (threadStep_ledger _ _ _ _ E) as (H1 & _). lia.
Qed.

Lemma performEach_nextPromise (history : list Action) :
  forall w : World, (nextPromise w <= nextPromise (performEach K history w))%nat.
Proof.
  induction history as [|a history IH]; intros w; cbn [performEach]; [done|].
  pose proof (perform_nextPromise a w). specialize (IH (perform K a w).2). lia.
Qed.

(** The handle an operation returns is the promise it created, a new one:
    the handles of a history are promises created in it, and no two calls
    return the same. *)
Lemma handles_fresh (history : list Action) :
  forall w : World,
    NoDup (handles K history w)
    /\ forall p, p ∈ handles K history w ->
         (nextPromise w <= p < nextPromise (performEach K history w))%nat.
Proof.
  induction history as [|a history IH]; intros w; cbn [handles performEach].
  - split; [constructor|]. intros p Hp. by apply elem_of_nil in Hp.
  - destruct (IH (perform K a w).2) as [Hnd Hin].
    pose proof (perform_nextPromise a w) as Hmono.
    destruct a as [c|th]; [|split; [done|]; intros p Hp; apply Hin in Hp; lia].
    revert Hnd Hin Hmono. cbn [perform]. unfold mbind, M_bind, mret, M_ret.
    destruct (invoke K c w) as [[q|e] w1] eqn:E; cbn [fst snd app];
      intros Hnd Hin Hmono;
      pose proof (invoke_issues c _ _ _ E) as Hi; cbn in Hi.
    + destruct Hi as (-> & H2 & _).
      pose proof (performEach_nextPromise history w1) as Hlast.
      split.
      * apply NoDup_cons. split; [|done]. intros Hp. apply Hin in Hp. lia.
      * intros p Hp. apply elem_of_cons in Hp as [->|Hp]; [lia|].
        apply Hin in Hp. lia.
    + split; [done|]. intros p Hp. apply Hin in Hp. lia.
Qed.

(** At rest, a well-formed state has every promise settled once. *)
Lemma well_formed_settled (w : World) (p : nat) :
  well_formed w -> quiescent w = true -> (p < nextPromise w)%nat ->
  exists e, settled_with p e w.
Proof.
  intros Hwf Hq Hp. specialize (Hwf p).
  destruct (quiescent_cases w Hq) as (Hd & Hc & Hj).
  assert (Hpend : pending p w = 0%nat).
  { unfold pending, waiting. rewrite Hj.
    destruct Hd as [-> | ->], Hc as [-> | ->]; reflexivity. }
  apply Nat.ltb_lt in Hp. rewrite Hp, Hpend in Hwf.
  unfold settled_with. destruct (settlements p w) as [|e [|e' l]]; cbn in Hwf;
    try lia. by exists e.
Qed.

End Ledger.

(** ** Nothing escapes when the collaborators fail as the code expects *)

Section Totality.

Context {DB CM Rng : Type} {store : QueryExecutor DB} {crypto : Crypto CM Rng}.
Local Abbreviation World := (World DB CM Rng).
Local Abbreviation M := (@M DB CM Rng).

Variable ok : DB -> Prop.
Hypothesis store_ok : store_fails_with_system_errors ok.
Hypothesis crypto_ok : crypto_returns.

Local Abbreviation steady := (@steady DB CM Rng ok).
Local Abbreviation returns := (@returns DB CM Rng _ ok).
Local Abbreviation tries := (@tries DB CM Rng _ ok).
Local Abbreviation answers := (@answers DB CM Rng ok).

Lemma returns_ret {A} (a : A) (Q : A -> Prop) : Q a -> returns (mret a : M A) Q.
Proof. intros Ha w Hw. by exists a, w. Qed.

Lemma returns_bind {A B} (m : M A) (f : A -> M B) (Q1 : A -> Prop)
    (Q : B -> Prop) :
  returns m Q1 -> (forall a, Q1 a -> returns (f a) Q) -> returns (m ≫= f) Q.
Proof.
  intros Hm Hf w Hw. destruct (Hm w Hw) as (a & w1 & E & Hw1 & Ha).
  destruct (Hf a Ha w1 Hw1) as (b & w2 & E2 & Hw2 & Hb).
  exists b, w2. unfold mbind, M_bind. by rewrite E.
Qed.

Lemma returns_weaken {A} (m : M A) (Q Q' : A -> Prop) :
  (forall a, Q a -> Q' a) -> returns m Q -> returns m Q'.
Proof.
  intros HQ Hm w Hw. destruct (Hm w Hw) as (a & w1 & E & Hw1 & Ha).
  exists a, w1. auto.
Qed.

Lemma tries_ret {A} (a : A) (Q : A -> Prop) : Q a -> tries (mret a : M A) Q.
Proof. intros Ha w Hw. by cbn. Qed.

Lemma tries_bind {A B} (m : M A) (f : A -> M B) (Q1 : A -> Prop)
    (Q : B -> Prop) :
  tries m Q1 -> (forall a, Q1 a -> tries (f a) Q) -> tries (m ≫= f) Q.
Proof.
  intros Hm Hf w Hw. specialize (Hm w Hw). unfold mbind, M_bind.
  destruct (m w) as [[a|e] w1]; [|done].
  destruct Hm as [Hw1 Ha]. by apply Hf.
Qed.

Lemma tries_storeCall (c : StoreCall) : tries (storeCall c) (fun _ => True).
Proof.
  intros w [Hd Ht]. unfold storeCall. pose proof (store_ok c _ Hd) as Hc.
  destruct (qe_call c (database w)) as [[r|e] d']; cbn; unfold steady; cbn; tauto.
Qed.

Lemma tries_executeAll (ops : list MessageStoreOperation) :
  tries (executeAll ops) (fun _ => True).
Proof.
  induction ops as [|op ops IH]; cbn [executeAll].
  - by apply tries_ret.
  - eapply tries_bind; [apply (tries_storeCall (OP_execute op))|]. intros _ _.
    exact IH.
Qed.

Lemma returns_try_catch {A} (body : M A) (handler : string -> M A)
    (Q : A -> Prop) :
  tries body Q -> (forall what, returns (handler what) Q) ->
  returns (try_catch body handler) Q.
Proof.
  intros Hb Hh w Hw. specialize (Hb w Hw). unfold try_catch.
  destruct (body w) as [[a|e] w1].
  - exists a, w1. tauto.
  - destruct Hb as [[what ->] Hw1]. by apply Hh.
Qed.

Lemma returns_invokeAsync (t : Task) :
  task_sound t -> returns (invokeAsync t) (fun _ => True).
Proof.
  intros Ht w [Hd Hs]. eexists _, _. split; [reflexivity|]. split; [|done].
  split; [done|]. unfold tasks_sound, waiting in *. cbn.
  rewrite !app_assoc. apply Forall_app. split; [|by apply Forall_singleton].
  by rewrite <- app_assoc.
Qed.

Lemma returns_resolve (p : nat) (v : Value) : returns (resolve p v) (fun _ => True).
Proof. intros w Hw. by eexists _, _. Qed.

Lemma returns_reject (p : nat) (msg : string) :
  returns (reject p msg) (fun _ => True).
Proof. intros w Hw. by eexists _, _. Qed.

Lemma returns_scheduleOrRun (th : Worker) (t : Task) (task : M unit) :
  task_sound t -> returns task (fun _ => True) ->
  returns (scheduleOrRun th t task) (fun _ => True).
Proof.
  intros Ht Htask w Hw. unfold scheduleOrRun.
  destruct (workerThread th w) as [queue|] eqn:E; [|by apply Htask].
  eexists _, _. split; [reflexivity|]. split; [|done].
  destruct Hw as [Hd Hs]. split; [by destruct th|].
  unfold tasks_sound, waiting in *.
  destruct w, th; cbn in *; subst; cbn in *;
    repeat (rewrite ?Forall_app, ?Forall_cons in *);
    by intuition.
Qed.

Lemma returns_lift {A} (a : A) (Q : A -> Prop) : Q a -> returns (lift (Ret a)) Q.
Proof. intros Ha w Hw. by exists a, w. Qed.

Ltac total :=
  repeat first
    [ lazymatch goal with
      | |- returns _ _ => fail
      | |- tries _ _ => fail
      | |- _ => intro
      end
    | match goal with x : (_ * _)%type |- _ => destruct x end
    | apply returns_resolve | apply returns_reject
    | apply returns_invokeAsync; done
    | apply returns_ret; done
    | apply tries_ret; done
    | apply tries_executeAll
    | match goal with
      | |- tries (storeCall ?c) _ => apply (tries_storeCall c)
      | |- tries (storeCall ?c ≫= _) _ =>
          eapply tries_bind; [apply (tries_storeCall c)|]
      | |- tries (_ ≫= _) _ => eapply tries_bind
      | |- returns (try_catch _ _ ≫= _) _ =>
          eapply (returns_bind _ _ (fun _ => True)); [apply returns_try_catch|]
      | |- returns (if ?b then _ else _) _ => destruct b
      end ].

Lemma writeMessages_fills (ms : list Message) : forall written : list Value,
  writeMessages ms (written ++ replicate (length ms) VUndefined) (length written)
  = Ret (written ++ (messageToJSI <$> ms)).
Proof.
  induction ms as [|m ms IH]; intros written; cbn [writeMessages length replicate fmap list_fmap].
  - reflexivity.
  - unfold setValueAtIndex.
    assert (L : (length written
                 <? length (written ++ VUndefined :: replicate (length ms) VUndefined))%nat
                = true).
    { apply Nat.ltb_lt. rewrite length_app. cbn. lia. }
    rewrite L. cbn [mbind outcome_bind].
    rewrite insert_app_r_alt by lia. rewrite Nat.sub_diag. cbn [insert list_insert].
    specialize (IH (written ++ [messageToJSI m])).
    rewrite length_app in IH. cbn in IH.
    rewrite Nat.add_1_r, <- !app_assoc in IH. exact IH.
Qed.

Lemma writeMessages_newArray (ms : list Message) :
  writeMessages ms (newArray (length ms)) 0 = Ret (messageToJSI <$> ms).
Proof. apply (writeMessages_fills ms []). Qed.

Lemma returns_settle (p : nat) (error : string) (v : Value) :
  returns (settle p error v) (fun _ => True).
Proof. unfold settle. total. Qed.

Lemma returns_settleDrafts (p : nat) (error : string) (ds : list Draft) :
  returns
    (settleDrafts p error
       (count_if (fun draft => negb (str_empty (draft_text draft))) ds) ds)
    (fun _ => True).
Proof.
  unfold settleDrafts. destruct (negb (str_empty error)); [total|].
  rewrite writeDrafts_newArray.
  eapply returns_bind; [by apply (returns_lift _ (fun _ => True))|]. total.
Qed.

(** The callback of [getAllMessages] that rejects does not read the
    vector. *)
Lemma returns_settleMessages (p : nat) (error : string) (n : nat) :
  error <> "" -> returns (settleMessages p error n None) (fun _ => True).
Proof.
  intros Herror. apply str_empty_false in Herror.
  unfold settleMessages. rewrite Herror. cbn. apply returns_reject.
Qed.

Lemma returns_storePersistJob (p : nat) (newPersist : Persist) :
  returns (storePersistJob p newPersist) (fun _ => True).
Proof. unfold storePersistJob. total. Qed.

Lemma returns_constructJob (p : nat) (userIdStr key : string) (persist : Persist) :
  returns (constructJob p userIdStr key persist) (fun _ => True).
Proof.
  destruct crypto_ok as [Hnew Hcall]. intros w Hw.
  unfold constructJob, mbind, M_bind, newCryptoModule.
  specialize (Hnew userIdStr key persist).
  destruct (cm_new userIdStr key persist) as [m|e]; [|done].
  destruct (isEmpty persist).
  - unfold cryptoCall. cbn.
    specialize (Hcall (CM_storeAsB64 key) m).
    destruct (cm_call (CM_storeAsB64 key) m) as [[np|e] m']; [|done].
    apply returns_scheduleOrRun; [done|apply returns_storePersistJob|].
    destruct Hw. by split.
  - unfold cryptoCall. cbn.
    specialize (Hcall (CM_restoreFromB64 key persist) m).
    destruct (cm_call (CM_restoreFromB64 key persist) m) as [[[]|e] m']; [|done].
    apply returns_invokeAsync; [done|]. destruct Hw. by split.
Qed.

Lemma returns_loadPersist : returns loadPersist (fun _ => True).
Proof.
  unfold loadPersist. apply returns_try_catch; [|total].
  eapply tries_bind; [apply (tries_storeCall QE_getOlmPersistAccountData)|].
  intros [accountData|] _; [|total].
  intros w Hw.
  destruct (returns_try_catch
              (sessionsData ← storeCall QE_getOlmPersistSessionsData;
               mret (mkPersist
                       (account (mkPersist (list_byte_of_string accountData) ∅))
                       (insertSessions sessionsData
                          (sessions (mkPersist (list_byte_of_string accountData) ∅))),
                     ""))
              (fun what => mret (mkPersist (list_byte_of_string accountData) ∅, what))
              (fun _ => True) ltac:(total) ltac:(total) w Hw)
    as (a & w1 & E & Hw1 & _).
  cbn in E. cbn. by rewrite E.
Qed.

Lemma returns_loadPersistJob (p : nat) (userIdStr key : string) :
  returns (loadPersistJob p userIdStr key) (fun _ => True).
Proof.
  unfold loadPersistJob.
  eapply returns_bind; [apply returns_loadPersist|]. intros [persist error] _.
  apply returns_scheduleOrRun; [done|apply returns_constructJob].
Qed.

Lemma returns_getUserPublicKeyJob (p : nat) :
  returns (getUserPublicKeyJob p) (fun _ => True).
Proof.
  destruct crypto_ok as [_ Hcall]. intros w Hw.
  unfold getUserPublicKeyJob, mbind, M_bind, getCryptoModule, cryptoCall,
    mret, M_ret.
  destruct (cryptoModule w) as [m|] eqn:E.
  - rewrite E. specialize (Hcall CM_getIdentityKeys m).
    destruct (cm_call CM_getIdentityKeys m) as [[r|e] m']; [|done].
    apply returns_invokeAsync; [done|]. destruct Hw. by split.
  - by apply returns_invokeAsync.
Qed.

Lemma returns_getUserOneTimeKeysJob (p : nat) :
  returns (getUserOneTimeKeysJob p) (fun _ => True).
Proof.
  destruct crypto_ok as [_ Hcall]. intros w Hw.
  unfold getUserOneTimeKeysJob, mbind, M_bind, getCryptoModule, cryptoCall,
    mret, M_ret.
  destruct (cryptoModule w) as [m|] eqn:E.
  - rewrite E. specialize (Hcall CM_getOneTimeKeys m).
    destruct (cm_call CM_getOneTimeKeys m) as [[r|e] m']; [|done].
    apply returns_invokeAsync; [done|]. destruct Hw. by split.
  - by apply returns_invokeAsync.
Qed.

(** A sound task returns, to a steady state. *)
Lemma runTask_returns (t : Task) :
  task_sound t -> returns (runTask t) (fun _ => True).
Proof.
  intros Ht. destruct t; cbn [runTask]; cbn in Ht; subst;
    try done;
    try apply returns_settle; try apply returns_settleDrafts;
    try (by apply returns_settleMessages); try apply returns_storePersistJob;
    try apply returns_constructJob; try apply returns_loadPersistJob;
    unfold getDraftJob, updateDraftJob, moveDraftJob, getAllDraftsJob,
      removeAllDraftsJob, removeAllMessagesJob, getAllMessagesJob,
      processOperationsJob, rejectUnsupported.
  all: try apply returns_getUserPublicKeyJob.
  all: try apply returns_getUserOneTimeKeysJob.
  all: try (total; fail).
  - eapply (returns_bind _ _ (fun r => task_sound (SettleDrafts promise r.1.1 r.2 r.1.2)));
      [apply returns_try_catch|].
    + eapply tries_bind; [apply (tries_storeCall QE_getAllDrafts)|].
      intros ds _. by apply tries_ret.
    + intros what. by apply returns_ret.
    + intros [[error ds] n] Hs. by apply returns_invokeAsync.
Qed.

Lemma steady_pop (th : Thread) (w : World) (x : outcome unit * World) :
  steady w -> threadStep th w = Some x ->
  exists w', x = (Ret tt, w') /\ steady w'.
Proof.
  intros [Hd Hs] H. unfold threadStep in H.
  assert (exists t w1, x = runTask t w1 /\ task_sound t /\ steady w1)
    as (t & w1 & -> & Ht & Hw1).
  { unfold steady, tasks_sound, waiting in *.
    destruct th as [[]|]; cbn in H.
    - destruct (databaseThread w) as [[|t q]|] eqn:E; simplify_eq.
      exists t, (set_databaseThread (Some q) w).
      destruct w; cbn in *; subst; cbn in *.
      rewrite Forall_cons in Hs. tauto.
    - destruct (cryptoThread w) as [[|t q]|] eqn:E; simplify_eq.
      exists t, (set_cryptoThread (Some q) w).
      destruct w; cbn in *; subst; cbn in *.
      repeat (rewrite ?Forall_app, ?Forall_cons in Hs).
      repeat (rewrite ?Forall_app, ?Forall_cons). tauto.
    - destruct (jsQueue w) as [|t q] eqn:E; simplify_eq.
      exists t, (set_jsQueue q w).
      destruct w; cbn in *; subst; cbn in *.
      repeat (rewrite ?Forall_app, ?Forall_cons in Hs).
      repeat (rewrite ?Forall_app, ?Forall_cons). tauto. }
  destruct (runTask_returns t Ht w1 Hw1) as ([] & w' & E & Hw' & _).
  exists w'. by rewrite E.
Qed.

Lemma returns_createPromise (func : nat -> M unit) :
  (forall p, returns (func p) (fun _ => True)) ->
  returns (createPromiseAsJSIValue func) (fun _ => True).
Proof.
  intros Hf w Hw. unfold createPromiseAsJSIValue.
  destruct (Hf (nextPromise w) (set_nextPromise (S (nextPromise w)) w))
    as ([] & w' & E & Hw' & _); [by destruct Hw|].
  rewrite E. eauto.
Qed.

Lemma returns_submit (th : Worker) (job : nat -> Task) :
  (forall p, task_sound (job p)) ->
  returns (createPromiseAsJSIValue (fun promise => submit th (job promise)))
    (fun _ => True).
Proof.
  intros Hj. apply returns_createPromise. intros p.
  apply returns_scheduleOrRun; [done|]. by apply runTask_returns.
Qed.

Lemma answers_returns (m : M nat) : returns m (fun _ => True) -> answers m.
Proof.
  intros Hm w Hw. left. destruct (Hm w Hw) as (p & w' & E & Hw' & _). eauto.
Qed.

Lemma answers_lift {A} (o : outcome A) (f : A -> M nat) :
  (forall a, answers (f a)) -> answers (lift o ≫= f).
Proof.
  intros Hf w Hw. unfold mbind, M_bind, lift. destruct o as [a|e].
  - by apply Hf.
  - right. eauto.
Qed.

Lemma returns_secureStore_get (k : string) :
  returns (secureStore_get k) (fun _ => True).
Proof. intros w Hw. by eexists _, _. Qed.

Lemma returns_secureStore_set (k v : string) :
  returns (secureStore_set k v) (fun _ => True).
Proof. intros w Hw. by eexists _, _. Qed.

Lemma returns_generateRandom (n : nat) : returns (generateRandom n) (fun _ => True).
Proof.
  intros w Hw. unfold generateRandom.
  destruct (generateRandomString n (rng w)) as [s r]. by eexists _, _.
Qed.

Variable K : string.

Ltac answer_submit :=
  match goal with
  | |- returns (createPromiseAsJSIValue (fun promise => submit ?th (@?job promise))) _ =>
      apply (returns_submit th job); done
  end.

Lemma invoke_answers (c : Call) :
  c <> call_getAllMessages -> answers (invoke K c).
Proof.
  intros Hc. destruct c; cbn [invoke]; try done;
    unfold getDraft, updateDraft, moveDraft, getAllDrafts, removeAllDrafts,
      removeAllMessages, getAllMessages, processMessageStoreOperations,
      initializeCryptoAccount, getUserPublicKey, getUserOneTimeKeys;
    repeat (apply answers_lift; intros);
    try (apply answers_returns; answer_submit).
  - apply answers_returns. destruct a as [ops|op_type]; [answer_submit|].
    apply returns_createPromise. intros p. by apply returns_invokeAsync.
  - apply answers_returns.
    eapply (returns_bind _ _ (fun _ => True)); [apply returns_secureStore_get|].
    intros [key|] _.
    + eapply (returns_bind _ _ (fun _ => True)); [by apply returns_ret|].
      intros key' _. answer_submit.
    + eapply (returns_bind _ _ (fun _ => True)).
      * eapply (returns_bind _ _ (fun _ => True)); [apply returns_generateRandom|].
        intros key _.
        eapply (returns_bind _ _ (fun _ => True)); [apply returns_secureStore_set|].
        intros _ _. by apply returns_ret.
      * intros key _. answer_submit.
Qed.

Lemma perform_steady (a : Action) (w : World) :
  lists_messages a = false ->
  steady w -> well_formed w ->
  steady (perform K a w).2 /\ well_formed (perform K a w).2.
Proof.
  intros Ha Hw Hwf. destruct a as [c|th].
  - assert (c <> call_getAllMessages) as Hc by (by intros ->).
    destruct (invoke_answers c Hc w Hw) as [(p & w' & E & Hw')|[e E]].
    + assert (Hp : perform K (Invoke c) w = (Ret tt, w')).
      { cbn [perform]. unfold mbind, M_bind. by rewrite E. }
      rewrite Hp. split; [done|]. by eapply perform_well_formed.
    + cbn [perform]. unfold mbind, M_bind. by rewrite E.
  - cbn [perform]. unfold runThread.
    destruct (threadStep th w) as [x|] eqn:E; [|done].
    destruct (steady_pop _ _ _ Hw E) as (w' & -> & Hw'). split; [done|].
    eapply (perform_well_formed K (Run th)); [done|].
    cbn [perform]. unfold runThread. by rewrite E.
Qed.

Lemma performEach_steady (history : list Action) :
  forallb (fun a => negb (lists_messages a)) history = true ->
  forall w : World,
    steady w -> well_formed w ->
    steady (performEach K history w) /\ well_formed (performEach K history w).
Proof.
  induction history as [|a history IH]; intros Hl w Hw Hwf; cbn; [done|].
  cbn in Hl. apply andb_true_iff in Hl as [Ha Hl]. apply negb_true_iff in Ha.
  destruct (perform_steady a w Ha Hw Hwf). by apply IH.
Qed.

Lemma drain_returns (fuel : nat) :
  forall w : World, steady w -> exists w', drain fuel w = (Ret tt, w').
Proof.
  induction fuel as [|fuel IH]; intros w Hw; cbn; [eauto|].
  destruct (nextThread w) as [th|] eqn:E; [|eauto].
  destruct (nextThread_step _ _ E) as [x Hs].
  destruct (steady_pop _ _ _ Hw Hs) as (w1 & -> & Hw1).
  unfold mbind, M_bind, runThread. rewrite Hs. cbn. by apply IH.
Qed.

End Totality.


(** The small store keeps its faults, and fails with [std::system_error]
    only when its faults are such. *)
Lemma serve_fault (c : StoreCall) (s : Ref.Store) :
  Ref.fault (Ref.serve c s).2 = Ref.fault s.
Proof.
  destruct c as [| | | | | | | | |[]| | |]; try reflexivity.
  cbn. by destruct (Ref.findDraft oldKey s).
Qed.

Lemma ref_store_fails_with_system_errors :
  store_fails_with_system_errors
    (fun s : Ref.Store =>
       forall c e, Ref.fault s c = Some e -> exists what, e = std_system_error what).
Proof.
  intros c s Hok. unfold qe_call, Ref.store.
  destruct (Ref.fault s c) as [e|] eqn:E.
  - split; [by eapply Hok|done].
  - pose proof (serve_fault c s) as Hf.
    destruct (Ref.serve c s) as [r s']. cbn in Hf. by rewrite Hf.
Qed.

Lemma ref_crypto_returns : crypto_returns (crypto:=Ref.crypto).
Proof. split; [done|]. by intros []. Qed.



(** ** Exporting keys before the identity is persisted *)


(** ** Initialising the account twice (lines 385-462) *)

(** The sessions the loop at lines 412-418 leaves in [persist.sessions]:
    a key already there is kept, otherwise the first session the store
    returned for the peer. *)
Lemma insertSessions_lookup (sessionsData : list OlmPersistSession)
    (user : string) :
  forall m : gmap string OlmBuffer,
    insertSessions sessionsData m !! user
    = match m !! user with
      | Some buffer => Some buffer
      | None =>
          (fun item => list_byte_of_string (session_data item))
            <$> List.find (fun item => String.eqb (target_user_id item) user)
                  sessionsData
      end.
Proof.
  induction sessionsData as [|item rest IH]; intros m.
  - cbn. by destruct (m !! user).
  - change (insertSessions (item :: rest) m)
      with (insertSessions rest
              (sessions_insert (target_user_id item)
                 (list_byte_of_string (session_data item)) m)).
    rewrite IH. unfold sessions_insert, OlmBuffer in *. cbn [List.find].
    destruct (String.eqb_spec (target_user_id item) user) as [->|Hne].
    + destruct (m !! user) eqn:Hm; cbv beta iota.
      * by rewrite Hm.
      * by rewrite lookup_insert_eq.
    + destruct (m !! target_user_id item) eqn:Hm; cbv beta iota; [done|].
      by rewrite lookup_insert_ne.
Qed.

Lemma Persist_eq (p q : Persist) :
  account p = account q ->
  (forall user, sessions p !! user = sessions q !! user) ->
  p = q.
Proof.
  destruct p as [a1 s1], q as [a2 s2]. cbn. intros -> H.
  f_equal. by apply map_eq.
Qed.

Section Restart.

Context {DB CM Rng : Type} {store : QueryExecutor DB} {crypto : Crypto CM Rng}.
Local Abbreviation World := (World DB CM Rng).

(** The key under which the secure store holds the secret key. *)
Variable K : string.

(** The session of a peer among the sessions the store returns: the first
    one for that peer, as a buffer. *)
Local Abbreviation session_for user sessionsData :=
  ((fun item => list_byte_of_string (session_data item))
     <$> List.find (fun item => String.eqb (target_user_id item) user)
           sessionsData).

(** The collaborators of a restart under normal conditions.  From the
    states [ok] on, the store does not fail; [persisted] is the account blob
    it keeps and [sessions_of] the sessions: reading returns them and leaves
    them, writing an identity state replaces them by that state's account
    and sessions.  The crypto library does not fail; a persisted state is
    empty when its account blob is; and the serialized form of a newly
    constructed identity has an account blob. *)
Variable ok : DB -> Prop.
Variable persisted : DB -> option string.
Variable sessions_of : DB -> list OlmPersistSession.
Hypothesis store_returns : forall (c : StoreCall) (d : DB),
  ok d -> exists r d', qe_call c d = (Ret r, d') /\ ok d'.
Hypothesis read_account : forall (d : DB) r d',
  qe_call QE_getOlmPersistAccountData d = (Ret r, d') ->
  r = persisted d /\ persisted d' = persisted d
  /\ sessions_of d' = sessions_of d.
Hypothesis read_sessions : forall (d : DB) r d',
  qe_call QE_getOlmPersistSessionsData d = (Ret r, d') ->
  r = sessions_of d /\ persisted d' = persisted d
  /\ sessions_of d' = sessions_of d.
Hypothesis write_identity : forall (np : Persist) (d d' : DB),
  qe_call (QE_storeOlmPersistData np) d = (Ret tt, d') ->
  exists a, persisted d' = Some a /\ list_byte_of_string a = account np
    /\ forall user, session_for user (sessions_of d') = sessions np !! user.
Hypothesis crypto_ok : crypto_returns.
Hypothesis isEmpty_account : forall p : Persist,
  isEmpty p = true <-> account p = [].
Hypothesis serialized_account : forall (u k : string) (p np : Persist) (m m' : CM),
  cm_new u k p = Ret m ->
  cm_call (CM_storeAsB64 k) m = (Ret np, m') ->
  account np <> [].

(** What the load job reads from a store in a state [ok]. *)
Lemma loadPersist_reads (w : World) :
  ok (database w) ->
  exists persist d',
    loadPersist w
    = (Ret (persist, ""),
       set_database d'
         (logs (EvStore QE_getOlmPersistAccountData
                :: match persisted (database w) with
                   | Some _ => [EvStore QE_getOlmPersistSessionsData]
                   | None => []
                   end) w))
    /\ ok d'
    /\ persisted d' = persisted (database w)
    /\ sessions_of d' = sessions_of (database w)
    /\ account persist
       = default [] (list_byte_of_string <$> persisted (database w))
    /\ sessions persist
       = match persisted (database w) with
         | Some _ => insertSessions (sessions_of (database w)) ∅
         | None => ∅
         end.
Proof.
  intros Hok.
  destruct (store_returns QE_getOlmPersistAccountData _ Hok) as (r & d1 & E1 & Hok1).
  destruct (read_account _ _ _ E1) as (-> & Hp1 & Hs1).
  unfold loadPersist. run. rewrite E1. run. destruct (persisted (database w)) as [a|] eqn:Ea; run.
  - destruct (store_returns QE_getOlmPersistSessionsData _ Hok1)
      as (ss & d2 & E2 & Hok2).
    destruct (read_sessions _ _ _ E2) as (-> & Hp2 & Hs2).
    rewrite E2. run. eexists _, d2.
    split; [unfold logs; cbn; by rewrite <- app_assoc|].
    split; [done|]. split; [congruence|]. split; [congruence|].
    split; [done|]. cbn. by rewrite Hs1.
  - eexists _, d1. split; [reflexivity|done].
Qed.

Ltac load_step Hok :=
  match goal with
  | |- context [loadPersist ?W] =>
      let persist := fresh "persist" in
      let d := fresh "d" in
      let E := fresh "E" in
      let Hd := fresh "Hd" in
      let Hp := fresh "Hp" in
      let Hs := fresh "Hs" in
      let Ha := fresh "Ha" in
      let Hss := fresh "Hss" in
      destruct (loadPersist_reads W Hok)
        as (persist & d & E & Hd & Hp & Hs & Ha & Hss);
      cbn in E, Hp, Hs, Ha, Hss; rewrite E; clear E
  end.

Ltac crypto_step c m :=
  let r := fresh "r" in
  let m' := fresh "m" in
  let E := fresh "E" in
  let H := fresh "H" in
  pose proof (proj2 crypto_ok c m) as H;
  destruct (cm_call c m) as [[r|?] m'] eqn:E; [clear H|discriminate H].

Ltac new_step u k p :=
  let m := fresh "m" in
  let E := fresh "E" in
  let H := fresh "H" in
  pose proof (proj1 crypto_ok u k p) as H;
  destruct (cm_new u k p) as [m|?] eqn:E; [clear H|discriminate H].

(** With the secret key in the secure store and an account blob persisted,
    a module just constructed takes the restore path, with the account and
    the sessions the store holds, and leaves the secure store, the source of
    randomness and what the store holds as they were. *)
Lemma initializeCryptoAccount_restores (userId key a : string)
    (d : DB) (s : gmap string string) (r : Rng) :
  ok d ->
  s !! K = Some key ->
  persisted d = Some a ->
  list_byte_of_string a <> [] ->
  exists persist w m m',
    await 4 (initializeCryptoAccount K userId)
      (newModule d s r) = (Ret 0%nat, w)
    /\ account persist = list_byte_of_string a
    /\ sessions persist = insertSessions (sessions_of d) ∅
    /\ isEmpty persist = false
    /\ trace w = restoreEvents userId key persist
    /\ secureStore w = s
    /\ rng w = r
    /\ quiescent w = true
    /\ ok (database w)
    /\ persisted (database w) = Some a
    /\ sessions_of (database w) = sessions_of d
    /\ cm_new userId key persist = Ret m
    /\ cm_call (CM_restoreFromB64 key persist) m = (Ret tt, m')
    /\ cryptoModule w = Some m'.
Proof.
  intros Hok Hkey Hpers Ha.
  unfold newModule, initializeThreads. cbn.
  run. rewrite Hkey. run.
  load_step Hok. rewrite Hpers in *. cbn in *. run.
  new_step userId key persist. run.
  assert (Hne : isEmpty persist = false).
  { destruct (isEmpty persist) eqn:E1; [|done].
    apply isEmpty_account in E1. congruence. }
  rewrite Hne. run.
  crypto_step (CM_restoreFromB64 key persist) m. run.
  destruct r0.
  exists persist. eexists. exists m, m0. split; [reflexivity|]. cbn.
  repeat split; try done.
Qed.

(** From the load job on, with threads and nothing else waiting, the
    initialisation runs to its end and resolves its promise; it constructs
    one identity, from the key the job carries and the state [persist0] it
    loaded.  Afterwards the store holds a state [persist] that is not
    empty: the one the job serialized and wrote, when [persist0] was empty,
    and [persist0] itself otherwise. *)
Lemma bootstrap_from_load (p : nat) (userId key : string) (w : World) :
  ok (database w) ->
  databaseThread w = Some [LoadPersistJob p userId key] ->
  cryptoThread w = Some [] ->
  jsQueue w = [] ->
  exists persist0 persist a tr w',
    drain 4 w = (Ret tt, w')
    /\ quiescent w' = true
    /\ secureStore w' = secureStore w
    /\ rng w' = rng w
    /\ nextPromise w' = nextPromise w
    /\ trace w' = trace w ++ tr
    /\ EvCryptoNew userId key persist0 ∈ tr
    /\ filter (fun e => is_settlement p e = true) tr = [EvResolve p VUndefined]
    /\ ok (database w')
    /\ persisted (database w') = Some a
    /\ list_byte_of_string a <> []
    /\ (if isEmpty persist0
        then exists m m',
               cm_new userId key persist0 = Ret m
               /\ cm_call (CM_storeAsB64 key) m = (Ret persist, m')
               /\ EvStore (QE_storeOlmPersistData persist) ∈ tr
        else persist = persist0
             /\ EvCrypto (CM_restoreFromB64 key persist0) ∈ tr)
    /\ account persist = list_byte_of_string a
    /\ forall user,
         sessions persist !! user = session_for user (sessions_of (database w')).
Proof.
  intros Hok Hdb Hcr Hjs.
  destruct w as [d cm nc ss r dt ct nt jq np tr]; cbn in *; subst.
  run. load_step Hok. run.
  new_step userId key persist. run.
  destruct (isEmpty persist) eqn:Hemp; run.
  - crypto_step (CM_storeAsB64 key) m. run.
    destruct (store_returns (QE_storeOlmPersistData r0) _ Hd) as ([] & d1 & E1 & Hd1).
    destruct (write_identity _ _ _ E1) as (a & Hp1 & Ha1 & Hs1).
    pose proof (serialized_account _ _ _ _ _ _ E E0) as Hne.
    rewrite E1. run.
    exists persist, r0, a. eexists _, _. split; [reflexivity|]. cbn.
    rewrite <- !app_assoc. cbn. rewrite Hemp.
    repeat split; try done.
    + apply list_elem_of_In. destruct (persisted d); cbn; tauto.
    + destruct (persisted d); cbn; by rewrite Nat.eqb_refl.
    + congruence.
    + exists m, m0. repeat split; try done.
      apply list_elem_of_In. destruct (persisted d); cbn; tauto.
  - crypto_step (CM_restoreFromB64 key persist) m. run.
    assert (Hacc : account persist <> []).
    { intros Hacc. apply isEmpty_account in Hacc. congruence. }
    destruct (persisted d) as [a|] eqn:Hpd; cbn in *; [|done].
    exists persist, persist, a. eexists _, _. split; [reflexivity|]. cbn.
    rewrite <- !app_assoc. cbn. rewrite Hemp.
    repeat split; try done.
    + apply list_elem_of_In. cbn. tauto.
    + cbn. by rewrite Nat.eqb_refl.
    + congruence.
    + apply list_elem_of_In. cbn. tauto.
    + intros user. rewrite Hss, insertSessions_lookup, lookup_empty.
      by rewrite Hs.
Qed.

(** The call itself on a module just constructed: the secret key is the one
    in the secure store, or a new one put there, and the load job carries
    it. *)
Lemma initializeCryptoAccount_call (userId : string)
    (d : DB) (s : gmap string string) (r : Rng) :
  exists key w,
    initializeCryptoAccount K userId (newModule d s r) = (Ret 0%nat, w)
    /\ database w = d
    /\ databaseThread w = Some [LoadPersistJob 0 userId key]
    /\ cryptoThread w = Some []
    /\ jsQueue w = []
    /\ secureStore w !! K = Some key
    /\ (forall p, settlements p w = []).
Proof.
  unfold newModule, initializeThreads, settlements. cbn.
  destruct (s !! K) as [key|] eqn:Hkey.
  - exists key. eexists. split; [run; rewrite Hkey; run; reflexivity|].
    by cbn.
  - destruct (generateRandomString 64 r) as [key r1] eqn:Hgen.
    exists key. eexists.
    split; [run; rewrite Hkey; run; rewrite Hgen; run; reflexivity|].
    cbn. repeat split; try done. apply lookup_insert_eq.
Qed.


End Restart.

(** The small store and crypto module are such collaborators, from the
    states without faults on. *)
Lemma ref_store_returns (c : StoreCall) (s : Ref.Store) :
  Ref.faultless s -> exists r s', qe_call c s = (Ret r, s') /\ Ref.faultless s'.
Proof.
  intros Hok. unfold qe_call, Ref.store. rewrite Hok.
  pose proof (serve_fault c s) as Hf.
  destruct (Ref.serve c s) as [r s']. cbn in Hf.
  exists r, s'. split; [done|]. intros c'. by rewrite Hf.
Qed.

Lemma ref_read_account (s : Ref.Store) r s' :
  qe_call QE_getOlmPersistAccountData s = (Ret r, s') ->
  r = Ref.olm_account s /\ Ref.olm_account s' = Ref.olm_account s
  /\ Ref.olm_sessions s' = Ref.olm_sessions s.
Proof.
  unfold qe_call, Ref.store. destruct (Ref.fault s _); [done|].
  cbn. intros H. by simplify_eq.
Qed.

Lemma ref_read_sessions (s : Ref.Store) r s' :
  qe_call QE_getOlmPersistSessionsData s = (Ret r, s') ->
  r = Ref.olm_sessions s /\ Ref.olm_account s' = Ref.olm_account s
  /\ Ref.olm_sessions s' = Ref.olm_sessions s.
Proof.
  unfold qe_call, Ref.store. destruct (Ref.fault s _); [done|].
  cbn. intros H. by simplify_eq.
Qed.

(** The sessions the small store keeps for a persisted state are read back
    as they were. *)
Lemma ref_sessionsOf (p : Persist) (user : string) :
  (fun item => list_byte_of_string (session_data item))
    <$> List.find (fun item => String.eqb (target_user_id item) user)
          (Ref.sessionsOf p)
  = sessions p !! user.
Proof.
  unfold Ref.sessionsOf.
  rewrite <- (list_to_map_to_list (sessions p)) at 2.
  induction (map_to_list (sessions p)) as [|[k v] l IH]; [done|].
  cbn [fmap list_fmap List.find fst snd target_user_id list_to_map foldr].
  destruct (String.eqb_spec k user) as [->|Hne].
  - cbn. rewrite lookup_insert_eq. f_equal.
    apply (list_byte_of_string_of_list_byte v).
  - rewrite lookup_insert_ne by done. exact IH.
Qed.

Lemma ref_write_identity (np : Persist) (s s' : Ref.Store) :
  qe_call (QE_storeOlmPersistData np) s = (Ret tt, s') ->
  exists a, Ref.olm_account s' = Some a /\ list_byte_of_string a = account np
    /\ forall user,
         (fun item => list_byte_of_string (session_data item))
           <$> List.find (fun item => String.eqb (target_user_id item) user)
                 (Ref.olm_sessions s')
         = sessions np !! user.
Proof.
  unfold qe_call, Ref.store. destruct (Ref.fault s _); [done|].
  cbn. intros H. simplify_eq. eexists. split; [done|].
  split; [apply list_byte_of_string_of_list_byte|].
  intros user. apply ref_sessionsOf.
Qed.

Lemma ref_isEmpty_account (p : Persist) : isEmpty p = true <-> account p = [].
Proof. cbn. unfold Ref.noAccount. by destruct (account p). Qed.

Lemma ref_serialized_account (u k : string) (p np : Persist) (m m' : Ref.Module) :
  cm_new u k p = Ret m ->
  cm_call (CM_storeAsB64 k) m = (Ret np, m') ->
  account np <> [].
Proof. cbn. intros H1 H2. by simplify_eq. Qed.



(** * Further properties of the code *)

(** ** Numbers printed and read back *)

(** The characters [std::to_string] prints for a digit are those [std::stoi]
    reads as that digit. *)
Lemma digit_of_pretty_N_char (d : N) :
  (d < 10)%N -> digit_of (pretty_N_char d) = Some (Z.of_N d).
Proof.
  intros Hd.
  assert (d = 0 \/ d = 1 \/ d = 2 \/ d = 3 \/ d = 4 \/ d = 5 \/ d = 6 \/ d = 7
          \/ d = 8 \/ d = 9)%N as H by lia.
  repeat (destruct H as [->|H]; [reflexivity|]). by subst.
Qed.

(** Reading the digits of [x] put in front of [s]: the digits shift what was
    read before by a power of ten. *)
Lemma read_digits_pretty_N_go (x : N) :
  exists k : Z,
    0 < k
    /\ forall (acc : Z) (s : string),
         read_digits acc (pretty_N_go x s) = read_digits (acc * k + Z.of_N x) s.
Proof.
  induction (N.lt_wf_0 x) as [x _ IH].
  destruct (decide (x = 0)%N) as [->|Hx].
  - exists 1. split; [lia|]. intros acc s. rewrite pretty_N_go_0. f_equal. lia.
  - assert (0 < x)%N as Hpos by lia.
    destruct (IH (x `div` 10)%N) as (k & Hk & Hread); [by apply N.div_lt|].
    exists (k * 10). split; [lia|]. intros acc s.
    rewrite pretty_N_go_step, Hread by done. cbn [read_digits].
    rewrite digit_of_pretty_N_char by (apply N.mod_lt; lia).
    f_equal. rewrite (N.div_mod x 10) at 3 by lia.
    rewrite N2Z.inj_add, N2Z.inj_mul. change (Z.of_N 10) with 10. lia.
Qed.

(** A number that is not zero is printed with a digit in front. *)
Lemma pretty_N_go_head (x : N) (s : string) :
  (0 < x)%N ->
  exists (d : N) (rest : string),
    (d < 10)%N /\ pretty_N_go x s = String (pretty_N_char d) rest.
Proof.
  revert s. induction (N.lt_wf_0 x) as [x _ IH]. intros s Hpos.
  rewrite pretty_N_go_step by done.
  destruct (decide (x `div` 10 = 0)%N) as [E|E].
  - rewrite E, pretty_N_go_0. eexists _, _. split; [|done]. apply N.mod_lt. lia.
  - apply IH; [by apply N.div_lt|by apply N.neq_0_lt_0].
Qed.

Lemma pretty_N_head (x : N) :
  exists (d : N) (rest : string),
    (d < 10)%N /\ pretty x = String (pretty_N_char d) rest.
Proof.
  unfold pretty, pretty_N. destruct (decide (x = 0)%N) as [->|Hx].
  - by exists 0%N, "".
  - apply pretty_N_go_head. lia.
Qed.

Lemma read_digits_pretty_N (x : N) : read_digits 0 (pretty x) = Z.of_N x.
Proof.
  unfold pretty, pretty_N. destruct (decide (x = 0)%N) as [->|Hx]; [done|].
  destruct (read_digits_pretty_N_go x) as (k & _ & Hread).
  rewrite Hread. cbn. lia.
Qed.

(** [strto] on a string that starts with a digit reads its digits. *)
Lemma strto_digits (d : N) (rest : string) :
  (d < 10)%N ->
  strto (String (pretty_N_char d) rest)
  = Some (read_digits 0 (String (pretty_N_char d) rest)).
Proof.
  intros Hd.
  assert (d = 0 \/ d = 1 \/ d = 2 \/ d = 3 \/ d = 4 \/ d = 5 \/ d = 6 \/ d = 7
          \/ d = 8 \/ d = 9)%N as H by lia.
  repeat (destruct H as [->|H]; [reflexivity|]). by subst.
Qed.

Lemma strto_minus_digits (d : N) (rest : string) :
  (d < 10)%N ->
  strto (String "-" (String (pretty_N_char d) rest))
  = Some (- read_digits 0 (String (pretty_N_char d) rest)).
Proof.
  intros Hd.
  assert (d = 0 \/ d = 1 \/ d = 2 \/ d = 3 \/ d = 4 \/ d = 5 \/ d = 6 \/ d = 7
          \/ d = 8 \/ d = 9)%N as H by lia.
  repeat (destruct H as [->|H]; [reflexivity|]). by subst.
Qed.

(** What [std::to_string] prints, the conversion behind [std::stoi] and
    [std::stoll] reads back. *)
Lemma strto_pretty (z : Z) : strto (pretty z) = Some z.
Proof.
  destruct z as [|p|p]; [reflexivity|..];
    destruct (pretty_N_head (N.pos p)) as (d & rest & Hd & E);
    pose proof (read_digits_pretty_N (N.pos p)) as Hread; rewrite E in Hread.
  - change (pretty (Z.pos p)) with (pretty (N.pos p)).
    by rewrite E, strto_digits, Hread.
  - change (pretty (Z.neg p)) with (String "-" (pretty (N.pos p))).
    by rewrite E, strto_minus_digits, Hread.
Qed.

Lemma stoi_pretty (z : Z) :
  INT_MIN <= z <= INT_MAX -> stoi (pretty z) = Ret z.
Proof.
  intros [H1 H2]. unfold stoi. rewrite strto_pretty.
  apply Z.leb_le in H1, H2. by rewrite H1, H2.
Qed.

Lemma stoll_pretty (z : Z) :
  LLONG_MIN <= z <= LLONG_MAX -> stoll (pretty z) = Ret z.
Proof.
  intros [H1 H2]. unfold stoll. rewrite strto_pretty.
  apply Z.leb_le in H1, H2. by rewrite H1, H2.
Qed.

(** X1: a message as [getAllMessages] hands it to JS (lines 203-228), given
    back as the payload of a ["replace"] operation, is translated (lines
    279-340) into the operation that replaces that same message, with no
    media: the optional fields absent stay absent, and the numbers printed
    by [std::to_string] are the ones [std::stoi] and [std::stoll] read. *)
Theorem replace_payload_round_trip (message : Message) :
  INT_MIN <= msg_type message <= INT_MAX ->
  (forall n, msg_future_type message = Some n -> INT_MIN <= n <= INT_MAX) ->
  LLONG_MIN <= msg_time message <= LLONG_MAX ->
  parseOperation
    (VObject [("type", VString REPLACE_OPERATION);
              ("payload", messageToJSI message)])
  = Ret (Supported (ReplaceMessageOperation message [])).
Proof.
  destruct message as [id local_id thread user type future_type content time].
  cbn [msg_type msg_future_type msg_time]. intros Htype Hfuture Htime.
  pose proof (stoi_pretty type Htype) as Etype.
  pose proof (stoll_pretty time Htime) as Etime.
  assert (forall n, future_type = Some n -> stoi (pretty n) = Ret n) as Efuture.
  { intros n E. apply stoi_pretty. by apply Hfuture. }
  unfold messageToJSI. cbn [msg_id msg_local_id msg_thread msg_user msg_type
                             msg_future_type msg_content msg_time].
  revert Etype Etime Efuture.
  generalize (pretty type) (pretty time). intros stype stime Etype Etime Efuture.
  destruct future_type as [n|].
  - specialize (Efuture n eq_refl).
    destruct local_id, content; cbn; rewrite Etype; cbn; rewrite Efuture; cbn;
      rewrite Etime; reflexivity.
  - destruct local_id, content; cbn; rewrite Etype; cbn; rewrite Etime;
      reflexivity.
Qed.

Lemma replace_payload_round_trip_witness :
  parseOperation
    (VObject [("type", VString REPLACE_OPERATION);
              ("payload", messageToJSI Samples.message2)])
  = Ret (Supported (ReplaceMessageOperation Samples.message2 [])).
Proof.
  apply replace_payload_round_trip.
  - vm_compute. split; discriminate.
  - intros n [= <-]. vm_compute. split; discriminate.
  - vm_compute. split; discriminate.
Defined.

(** ** The payloads of the operations (lines 250-358) *)

(** Take the first call of a sequence that returned apart from the rest. *)
Ltac bind_inv H :=
  repeat match type of H with
         | (?m ≫= _) = Ret _ =>
             let E := fresh "E" in
             destruct m eqn:E; cbn [mbind outcome_bind] in H; [|discriminate H]
         end.

Lemma asString_Ret (v : Value) (s : string) : asString v = Ret s <-> v = VString s.
Proof. destruct v; cbn; split; congruence. Qed.

Lemma asArray_Ret (v : Value) (l : list Value) : asArray v = Ret l <-> v = VArray l.
Proof. destruct v; cbn; split; congruence. Qed.

Lemma asObject_Ret (v o : Value) : asObject v = Ret o <-> isObject v = true /\ o = v.
Proof.
  unfold asObject. destruct (isObject v); split.
  - by intros [= ->].
  - by intros [_ ->].
  - done.
  - by intros [? _].
Qed.

(** The loops at lines 259-262 and 271-275 return the strings of the array,
    in order, and only when every element is a string. *)
Lemma asStrings_Ret (vs : list Value) :
  forall ss, asStrings vs = Ret ss <-> vs = VString <$> ss.
Proof.
  induction vs as [|v vs IH]; intros ss; cbn.
  - split; [intros [= <-]; done|]. by destruct ss.
  - split.
    + intros H. bind_inv H. injection H as <-.
      apply asString_Ret in E as ->. by rewrite (proj1 (IH _) eq_refl).
    + destruct ss as [|s ss]; [done|]. intros [= -> Hvs].
      apply IH in Hvs. cbn. by rewrite Hvs.
Qed.

Lemma getProperty_object (o v : Value) (name : string) :
  getProperty o name = v -> v <> VUndefined -> isObject o = true.
Proof. destruct o; cbn; congruence. Qed.

(** X3: what the translation takes from the payload of a ["remove"], a
    ["remove_messages_for_threads"] and a ["rekey"] operation.  The
    operation built carries the strings of the payload's array, all of them
    and in the caller's order, or the payload's [from] and [to]; it is built
    only when the array holds nothing but strings, or both are strings. *)
Theorem simple_operations_carry_their_payload (op : Value) :
  let payload := getProperty op "payload" in
  (getProperty op "type" = VString REMOVE_OPERATION ->
   forall ids : list string,
     parseOperation op = Ret (Supported (RemoveMessagesOperation ids))
     <-> getProperty payload "ids" = VArray (VString <$> ids))
  /\ (getProperty op "type" = VString REMOVE_MSGS_FOR_THREADS_OPERATION ->
      forall thread_ids : list string,
        parseOperation op
        = Ret (Supported (RemoveMessagesForThreadsOperation thread_ids))
        <-> getProperty payload "threadIDs" = VArray (VString <$> thread_ids))
  /\ (getProperty op "type" = VString REKEY_OPERATION ->
      forall from to : string,
        parseOperation op = Ret (Supported (RekeyMessageOperation from to))
        <-> getProperty payload "from" = VString from
            /\ getProperty payload "to" = VString to).
Proof.
  intros payload. split; [|split]; intros Htype.
  - intros ids. unfold parseOperation.
    rewrite (proj2 (asObject_Ret op op)) by eauto using getProperty_object.
    cbn [mbind outcome_bind]. rewrite Htype. cbn. fold payload. split.
    + intros H. bind_inv H. injection H as <-.
      apply asObject_Ret in E as [_ ->], E0 as [_ ->].
      apply asArray_Ret in E1. apply asStrings_Ret in E2. congruence.
    + intros H.
      rewrite (proj2 (asObject_Ret payload payload))
        by eauto using getProperty_object.
      cbn. rewrite H. cbn.
      rewrite (proj2 (asStrings_Ret _ ids)) by done. done.
  - intros ids. unfold parseOperation.
    rewrite (proj2 (asObject_Ret op op)) by eauto using getProperty_object.
    cbn [mbind outcome_bind]. rewrite Htype. cbn. fold payload. split.
    + intros H. bind_inv H. injection H as <-.
      apply asObject_Ret in E as [_ ->], E0 as [_ ->].
      apply asArray_Ret in E1. apply asStrings_Ret in E2. congruence.
    + intros H.
      rewrite (proj2 (asObject_Ret payload payload))
        by eauto using getProperty_object.
      cbn. rewrite H. cbn.
      rewrite (proj2 (asStrings_Ret _ ids)) by done. done.
  - intros from to. unfold parseOperation.
    rewrite (proj2 (asObject_Ret op op)) by eauto using getProperty_object.
    cbn [mbind outcome_bind]. rewrite Htype. cbn. fold payload. split.
    + intros H. bind_inv H. injection H as <- <-.
      apply asObject_Ret in E as [_ ->].
      by apply asString_Ret in E0, E1.
    + intros [Hfrom Hto].
      rewrite (proj2 (asObject_Ret payload payload))
        by eauto using getProperty_object.
      cbn. rewrite Hfrom, Hto. done.
Qed.

Lemma simple_operations_carry_their_payload_witness :
  parseOperation Examples.removeOp
  = Ret (Supported (RemoveMessagesOperation ["m1"]))
  /\ parseOperation Examples.rekeyOp
     = Ret (Supported (RekeyMessageOperation "t1" "t2")).
Proof.
  split.
  - destruct (simple_operations_carry_their_payload Examples.removeOp)
      as (Hremove & _ & _).
    apply (Hremove eq_refl ["m1"]). reflexivity.
  - destruct (simple_operations_carry_their_payload Examples.rekeyOp)
      as (_ & _ & Hrekey).
    apply (Hrekey eq_refl "t1" "t2"). split; reflexivity.
Defined.

(** The loop at lines 320-336 gives one media for each element, in order:
    its [id], [uri], [type] and [extras] are the element's, its container
    and its thread the ones given. *)
Lemma parseMediaInfos_tied (msg_id thread : string) (vs : list Value) :
  forall ms,
    parseMediaInfos msg_id thread vs = Ret ms ->
    Forall2 (fun media_info media =>
               getProperty media_info "id" = VString (media_id media)
               /\ getProperty media_info "uri" = VString (media_uri media)
               /\ getProperty media_info "type" = VString (media_type media)
               /\ getProperty media_info "extras" = VString (media_extras media)
               /\ media_container media = msg_id
               /\ media_thread media = thread) vs ms.
Proof.
  induction vs as [|v vs IH]; intros ms H; cbn in H.
  - injection H as <-. constructor.
  - bind_inv H. injection H as <-.
    constructor; [|by apply IH].
    unfold parseMedia in E. bind_inv E. injection E as <-.
    apply asObject_Ret in E1 as [_ ->].
    apply asString_Ret in E2, E3, E4, E5. by cbn.
Qed.

(** X2: whatever a ["replace"] payload holds, the operation built from it
    has one media for each element of [media_infos], in the order of the
    array (lines 320-336): the media's [id], [uri], [type] and [extras] are
    the strings of the element, and it is filed under the id and the thread
    of the message of that same payload (lines 333-334).  When
    [media_infos] is not an object the operation has no media. *)
Theorem replace_media_tied_to_message (op : Value) (message : Message)
    (media_vector : list Media) :
  parseReplace op = Ret (ReplaceMessageOperation message media_vector) ->
  let media_infos := getProperty (getProperty op "payload") "media_infos" in
  (isObject media_infos = false -> media_vector = [])
  /\ (isObject media_infos = true ->
      exists elems,
        media_infos = VArray elems
        /\ Forall2 (fun media_info media =>
                      getProperty media_info "id" = VString (media_id media)
                      /\ getProperty media_info "uri" = VString (media_uri media)
                      /\ getProperty media_info "type"
                         = VString (media_type media)
                      /\ getProperty media_info "extras"
                         = VString (media_extras media)
                      /\ media_container media = msg_id message
                      /\ media_thread media = msg_thread message)
             elems media_vector).
Proof.
  intros H media_infos. unfold parseReplace in H. bind_inv H.
  injection H as <- <-. cbn [msg_id msg_thread].
  apply asObject_Ret in E as [_ ->]. fold media_infos in E8.
  destruct (isObject media_infos) eqn:Hobj.
  - bind_inv E8. apply asObject_Ret in E as [_ ->]. apply asArray_Ret in E9.
    split; [done|]. intros _. eexists. split; [exact E9|].
    by apply parseMediaInfos_tied.
  - injection E8 as <-. by split.
Qed.

Lemma replace_media_tied_to_message_witness :
  parseReplace Samples.replaceWithMedia
  = Ret (ReplaceMessageOperation
           (mkMessage "m2" None "t1" "u1" 14 None None 1650000000001)
           [mkMedia "p1" "m2" "t1" "a.jpg" "photo" "{}";
            mkMedia "p2" "m2" "t1" "b.mp4" "video" "{}"])
  /\ exists elems,
       getProperty (getProperty Samples.replaceWithMedia "payload") "media_infos"
       = VArray elems
       /\ Forall2 (fun media_info media =>
                     getProperty media_info "id" = VString (media_id media)
                     /\ getProperty media_info "uri" = VString (media_uri media)
                     /\ getProperty media_info "type"
                        = VString (media_type media)
                     /\ getProperty media_info "extras"
                        = VString (media_extras media)
                     /\ media_container media = "m2"
                     /\ media_thread media = "t1")
            elems
            [mkMedia "p1" "m2" "t1" "a.jpg" "photo" "{}";
             mkMedia "p2" "m2" "t1" "b.mp4" "video" "{}"].
Proof.
  split; [reflexivity|].
  destruct (replace_media_tied_to_message Samples.replaceWithMedia
              (mkMessage "m2" None "t1" "u1" 14 None None 1650000000001)
              [mkMedia "p1" "m2" "t1" "a.jpg" "photo" "{}";
               mkMedia "p2" "m2" "t1" "b.mp4" "video" "{}"] eq_refl)
    as [_ H].
  exact (H eq_refl).
Defined.

(** ** The persisted sessions (lines 412-418) *)

(** X11: the loop that fills [persist.sessions] uses [insert], which leaves
    a key already present alone: when the store returns several sessions for
    one peer, the one that comes first is kept, and a peer has a session
    exactly when the store returned one for it. *)
Theorem insertSessions_first_wins (sessionsData : list OlmPersistSession)
    (user : string) :
  forall m : gmap string OlmBuffer,
    insertSessions sessionsData m !! user
    = match m !! user with
      | Some buffer => Some buffer
      | None =>
          (fun item => list_byte_of_string (session_data item))
            <$> List.find (fun item => String.eqb (target_user_id item) user)
                  sessionsData
      end.
Proof.
  induction sessionsData as [|item rest IH]; intros m.
  - cbn. by destruct (m !! user).
  - change (insertSessions (item :: rest) m)
      with (insertSessions rest
              (sessions_insert (target_user_id item)
                 (list_byte_of_string (session_data item)) m)).
    rewrite IH. unfold sessions_insert, OlmBuffer in *. cbn [List.find].
    destruct (String.eqb_spec (target_user_id item) user) as [->|Hne].
    + destruct (m !! user) eqn:Hm; cbv beta iota.
      * by rewrite Hm.
      * by rewrite lookup_insert_eq.
    + destruct (m !! target_user_id item) eqn:Hm; cbv beta iota; [done|].
      by rewrite lookup_insert_ne.
Qed.

(** ** Drafts and messages, one store call each (lines 16-94, 136-236) *)

(** A state of rest, taken apart: each worker is null or has nothing
    waiting, nothing waits for the JS thread, and the next promise has no
    settlement yet. *)
Ltac at_rest w Hwf Hq :=
  let Hfresh := fresh "Hfresh" in
  let Hd := fresh "Hd" in let Hc := fresh "Hc" in let Hj := fresh "Hj" in
  pose proof (well_formed_fresh w (nextPromise w) Hwf (le_n _)) as Hfresh;
  destruct (quiescent_cases w Hq) as (Hd & Hc & Hj);
  unfold settled_with, settlements, storeCalls in *;
  destruct w as [d cm nc ss r dt ct nt jq np tr]; simpl in *; subst jq;
  destruct Hd as [-> | ->], Hc as [-> | ->].

(** Read the store calls and the settlements off the events added. *)
Ltac read_trace Hfresh :=
  repeat match goal with x := _ |- _ => subst x end;
  cbn; rewrite <- ?app_assoc; cbn; rewrite ?filter_app, ?Hfresh; cbn;
  rewrite ?Nat.eqb_refl; repeat split; reflexivity.

(** The operation ran to its end with the store's answer [Hcall]. *)
Ltac settled Hcall Hfresh :=
  eexists; split; [run; rewrite Hcall; run; reflexivity|];
  read_trace Hfresh.

Section StoreOperations.

Context {DB CM Rng : Type} {store : QueryExecutor DB} {crypto : Crypto CM Rng}.
Local Abbreviation World := (World DB CM Rng).

(** X4: from a state of rest, [getDraft] makes one store call, [getDraft]
    with the key.  When it returns, the promise is resolved, once, with the
    string returned; when it throws a [std::system_error] with a message,
    the promise is rejected, once, with that message. *)
Theorem getDraft_settles (key : string) (w : World) :
  well_formed w ->
  quiescent w = true ->
  let p := nextPromise w in
  (forall (draftStr : string) (d' : DB),
      qe_call (QE_getDraft key) (database w) = (Ret draftStr, d') ->
      exists w',
        await 2 (getDraft key) w = (Ret p, w')
        /\ quiescent w' = true
        /\ database w' = d'
        /\ storeCalls w' = storeCalls w ++ [EvStore (QE_getDraft key)]
        /\ settled_with p (EvResolve p (VString draftStr)) w')
  /\ (forall (what : string) (d' : DB),
        qe_call (QE_getDraft key) (database w)
        = (Throw (std_system_error what), d') ->
        what <> "" ->
        exists w',
          await 2 (getDraft key) w = (Ret p, w')
          /\ quiescent w' = true
          /\ database w' = d'
          /\ storeCalls w' = storeCalls w ++ [EvStore (QE_getDraft key)]
          /\ settled_with p (EvReject p what) w').
Proof.
  intros Hwf Hq p. split.
  - intros draftStr d' Hcall. at_rest w Hwf Hq; settled Hcall Hfresh.
  - intros what d' Hcall Hwhat. apply str_empty_false in Hwhat.
    at_rest w Hwf Hq;
      (eexists; split;
       [run; rewrite Hcall; run; rewrite Hwhat; run; reflexivity|]);
      read_trace Hfresh.
Qed.

(** X5: [updateDraft] reads the [key] and the [text] of the draft it is
    given and, from a state of rest, makes one store call, [updateDraft]
    with the two.  When it returns, the promise is resolved, once, with
    [true]; when it throws a [std::system_error] with a message, the promise
    is rejected, once, with that message. *)
Theorem updateDraft_settles (draft : Value) (keyStr textStr : string) (w : World) :
  well_formed w ->
  quiescent w = true ->
  getProperty draft "key" = VString keyStr ->
  getProperty draft "text" = VString textStr ->
  let p := nextPromise w in
  (forall d' : DB,
      qe_call (QE_updateDraft keyStr textStr) (database w) = (Ret tt, d') ->
      exists w',
        await 2 (updateDraft draft) w = (Ret p, w')
        /\ quiescent w' = true
        /\ database w' = d'
        /\ storeCalls w' = storeCalls w ++ [EvStore (QE_updateDraft keyStr textStr)]
        /\ settled_with p (EvResolve p (VBool true)) w')
  /\ (forall (what : string) (d' : DB),
        qe_call (QE_updateDraft keyStr textStr) (database w)
        = (Throw (std_system_error what), d') ->
        what <> "" ->
        exists w',
          await 2 (updateDraft draft) w = (Ret p, w')
          /\ quiescent w' = true
          /\ database w' = d'
          /\ storeCalls w'
             = storeCalls w ++ [EvStore (QE_updateDraft keyStr textStr)]
          /\ settled_with p (EvReject p what) w').
Proof.
  intros Hwf Hq Hkey Htext p. split.
  - intros d' Hcall.
    at_rest w Hwf Hq;
      (eexists; split;
       [run; rewrite Hkey, Htext; run; rewrite Hcall; run; reflexivity|]);
      read_trace Hfresh.
  - intros what d' Hcall Hwhat. apply str_empty_false in Hwhat.
    at_rest w Hwf Hq;
      (eexists; split;
       [run; rewrite Hkey, Htext; run; rewrite Hcall; run; rewrite Hwhat; run;
        reflexivity|]);
      read_trace Hfresh.
Qed.

(** X6: a draft whose [key] or [text] is not a string makes [updateDraft]
    leave by a [jsi::JSError] on the caller's thread (lines 43-44, before
    the promise is created): nothing is returned, and the state is the one
    before the call. *)
Theorem updateDraft_malformed_raises (draft : Value) (w : World) :
  isString (getProperty draft "key") = false
  \/ isString (getProperty draft "text") = false ->
  exists what : string, updateDraft draft w = (Throw (jsi_JSError what), w).
Proof.
  intros H. run.
  destruct (getProperty draft "key") as [| | | |keyStr| |] eqn:Hkey; cbn;
    try by eexists.
  destruct (getProperty draft "text") as [| | | |textStr| |] eqn:Htext; cbn;
    try by eexists.
  by destruct H.
Qed.

(** X7: from a state of rest, [moveDraft] makes one store call, [moveDraft]
    with the two keys.  When it returns, the promise is resolved, once, with
    the boolean returned, [false] included; when it throws a
    [std::system_error] with a message, the promise is rejected, once, with
    that message. *)
Theorem moveDraft_settles (oldKey newKey : string) (w : World) :
  well_formed w ->
  quiescent w = true ->
  let p := nextPromise w in
  (forall (result : bool) (d' : DB),
      qe_call (QE_moveDraft oldKey newKey) (database w) = (Ret result, d') ->
      exists w',
        await 2 (moveDraft oldKey newKey) w = (Ret p, w')
        /\ quiescent w' = true
        /\ database w' = d'
        /\ storeCalls w' = storeCalls w ++ [EvStore (QE_moveDraft oldKey newKey)]
        /\ settled_with p (EvResolve p (VBool result)) w')
  /\ (forall (what : string) (d' : DB),
        qe_call (QE_moveDraft oldKey newKey) (database w)
        = (Throw (std_system_error what), d') ->
        what <> "" ->
        exists w',
          await 2 (moveDraft oldKey newKey) w = (Ret p, w')
          /\ quiescent w' = true
          /\ database w' = d'
          /\ storeCalls w'
             = storeCalls w ++ [EvStore (QE_moveDraft oldKey newKey)]
          /\ settled_with p (EvReject p what) w').
Proof.
  intros Hwf Hq p. split.
  - intros result d' Hcall. at_rest w Hwf Hq; settled Hcall Hfresh.
  - intros what d' Hcall Hwhat. apply str_empty_false in Hwhat.
    at_rest w Hwf Hq;
      (eexists; split;
       [run; rewrite Hcall; run; rewrite Hwhat; run; reflexivity|]);
      read_trace Hfresh.
Qed.

(** X8: from a state of rest, [removeAllDrafts] and [removeAllMessages] make
    one store call each, the one of the same name.  When it returns, the
    promise is resolved, once, with [undefined]; when it throws a
    [std::system_error] with a message, the promise is rejected, once, with
    that message. *)
Theorem removeAll_settles (w : World) :
  well_formed w ->
  quiescent w = true ->
  let p := nextPromise w in
  (forall d' : DB,
      qe_call QE_removeAllDrafts (database w) = (Ret tt, d') ->
      exists w',
        await 2 removeAllDrafts w = (Ret p, w')
        /\ quiescent w' = true
        /\ database w' = d'
        /\ storeCalls w' = storeCalls w ++ [EvStore QE_removeAllDrafts]
        /\ settled_with p (EvResolve p VUndefined) w')
  /\ (forall (what : string) (d' : DB),
        qe_call QE_removeAllDrafts (database w)
        = (Throw (std_system_error what), d') ->
        what <> "" ->
        exists w',
          await 2 removeAllDrafts w = (Ret p, w')
          /\ quiescent w' = true
          /\ database w' = d'
          /\ storeCalls w' = storeCalls w ++ [EvStore QE_removeAllDrafts]
          /\ settled_with p (EvReject p what) w')
  /\ (forall d' : DB,
        qe_call QE_removeAllMessages (database w) = (Ret tt, d') ->
        exists w',
          await 2 removeAllMessages w = (Ret p, w')
          /\ quiescent w' = true
          /\ database w' = d'
          /\ storeCalls w' = storeCalls w ++ [EvStore QE_removeAllMessages]
          /\ settled_with p (EvResolve p VUndefined) w')
  /\ (forall (what : string) (d' : DB),
        qe_call QE_removeAllMessages (database w)
        = (Throw (std_system_error what), d') ->
        what <> "" ->
        exists w',
          await 2 removeAllMessages w = (Ret p, w')
          /\ quiescent w' = true
          /\ database w' = d'
          /\ storeCalls w' = storeCalls w ++ [EvStore QE_removeAllMessages]
          /\ settled_with p (EvReject p what) w').
Proof.
  intros Hwf Hq p. split; [|split; [|split]].
  - intros d' Hcall. at_rest w Hwf Hq; settled Hcall Hfresh.
  - intros what d' Hcall Hwhat. apply str_empty_false in Hwhat.
    at_rest w Hwf Hq;
      (eexists; split;
       [run; rewrite Hcall; run; rewrite Hwhat; run; reflexivity|]);
      read_trace Hfresh.
  - intros d' Hcall. at_rest w Hwf Hq; settled Hcall Hfresh.
  - intros what d' Hcall Hwhat. apply str_empty_false in Hwhat.
    at_rest w Hwf Hq;
      (eexists; split;
       [run; rewrite Hcall; run; rewrite Hwhat; run; reflexivity|]);
      read_trace Hfresh.
Qed.

(** X15: from a state of rest, when the store throws a [std::system_error]
    with a message on [getAllDrafts], that is the one store call made, no
    array is built and the promise is rejected, once, with the message
    (lines 109-116). *)
Theorem getAllDrafts_store_failure_rejects (what : string) (d' : DB) (w : World) :
  well_formed w ->
  quiescent w = true ->
  qe_call QE_getAllDrafts (database w) = (Throw (std_system_error what), d') ->
  what <> "" ->
  let p := nextPromise w in
  exists w',
    await 2 getAllDrafts w = (Ret p, w')
    /\ quiescent w' = true
    /\ database w' = d'
    /\ storeCalls w' = storeCalls w ++ [EvStore QE_getAllDrafts]
    /\ settled_with p (EvReject p what) w'.
Proof.
  intros Hwf Hq Hcall Hwhat p. apply str_empty_false in Hwhat.
  at_rest w Hwf Hq;
    (eexists; split;
     [run; rewrite Hcall; run; rewrite Hwhat; run; reflexivity|]);
    read_trace Hfresh.
Qed.

(** X16: [getAllMessages] from a state of rest (lines 180-236).  When the
    store throws a [std::system_error] with a message, that is the one
    store call made and the promise is rejected, once, with the message.
    When the store returns the messages, the job hands the JS thread a
    callback that holds [messagesVector] by reference (line 195) and
    returns, which destroys the vector; the callback then reads it (line
    202): the behaviour is undefined, and the promise has not been settled
    by then.  The loop itself, on a vector of [numMessages] messages that
    is there, writes one object for each message, in order. *)
Theorem getAllMessages_reads_destroyed_vector (w : World) :
  well_formed w ->
  quiescent w = true ->
  let p := nextPromise w in
  (forall (what : string) (d' : DB),
      qe_call QE_getAllMessages (database w)
      = (Throw (std_system_error what), d') ->
      what <> "" ->
      exists w',
        await 2 getAllMessages w = (Ret p, w')
        /\ quiescent w' = true
        /\ database w' = d'
        /\ storeCalls w' = storeCalls w ++ [EvStore QE_getAllMessages]
        /\ settled_with p (EvReject p what) w')
  /\ (forall (messagesVector : list Message) (d' : DB),
        qe_call QE_getAllMessages (database w) = (Ret messagesVector, d') ->
        exists o w',
          await 2 getAllMessages w = (o, w')
          /\ is_undefined o = true
          /\ database w' = d'
          /\ storeCalls w' = storeCalls w ++ [EvStore QE_getAllMessages]
          /\ settlements p w' = [])
  /\ (forall messagesVector : list Message,
        writeMessages messagesVector (newArray (length messagesVector)) 0
        = Ret (messageToJSI <$> messagesVector)).
Proof.
  intros Hwf Hq p. split; [|split].
  - intros what d' Hcall Hwhat. apply str_empty_false in Hwhat.
    at_rest w Hwf Hq;
      (eexists; split;
       [run; rewrite Hcall; run; rewrite Hwhat; run; reflexivity|]);
      read_trace Hfresh.
  - intros messagesVector d' Hcall.
    at_rest w Hwf Hq;
      (eexists _, _; split; [run; rewrite Hcall; run; reflexivity|]);
      read_trace Hfresh.
  - apply writeMessages_newArray.
Qed.

End StoreOperations.

Lemma getDraft_settles_witness :
  exists w',
    await 2 (getDraft "thread1") (Examples.fresh Examples.draftsStore)
    = (Ret 0%nat, w')
    /\ settled_with 0%nat (EvResolve 0%nat (VString "hello")) w'.
Proof.
  destruct (getDraft_settles "thread1" (Examples.fresh Examples.draftsStore)
              (fresh_well_formed _) eq_refl) as [Hok _].
  destruct (Hok "hello" Examples.draftsStore eq_refl)
    as (w' & H1 & _ & _ & _ & H5).
  exists w'. split; [exact H1|exact H5].
Defined.

Lemma updateDraft_settles_witness :
  exists w',
    await 2 (updateDraft Samples.draft1) (Examples.fresh Examples.draftsStore)
    = (Ret 0%nat, w')
    /\ settled_with 0%nat (EvResolve 0%nat (VBool true)) w'
    /\ storeCalls w' = [EvStore (QE_updateDraft "thread1" "see you")].
Proof.
  destruct (updateDraft_settles Samples.draft1 "thread1" "see you"
              (Examples.fresh Examples.draftsStore)
              (fresh_well_formed _) eq_refl eq_refl eq_refl) as [Hok _].
  destruct (Hok _ eq_refl) as (w' & H1 & _ & _ & H4 & H5).
  exists w'. split; [exact H1|]. split; [exact H5|exact H4].
Defined.

Lemma updateDraft_malformed_raises_witness :
  exists what : string,
    updateDraft Samples.draftWithoutText (Examples.fresh Examples.draftsStore)
    = (Throw (jsi_JSError what), Examples.fresh Examples.draftsStore).
Proof.
  apply (updateDraft_malformed_raises Samples.draftWithoutText
           (Examples.fresh Examples.draftsStore)).
  right. reflexivity.
Defined.

Lemma moveDraft_settles_witness :
  exists w',
    await 2 (moveDraft "thread9" "thread1") (Examples.fresh Examples.draftsStore)
    = (Ret 0%nat, w')
    /\ settled_with 0%nat (EvResolve 0%nat (VBool false)) w'.
Proof.
  destruct (moveDraft_settles "thread9" "thread1"
              (Examples.fresh Examples.draftsStore)
              (fresh_well_formed _) eq_refl) as [Hok _].
  destruct (Hok false Examples.draftsStore eq_refl)
    as (w' & H1 & _ & _ & _ & H5).
  exists w'. split; [exact H1|exact H5].
Defined.

Lemma removeAll_settles_witness :
  exists w',
    await 2 removeAllDrafts (Examples.fresh Examples.draftsStore)
    = (Ret 0%nat, w')
    /\ settled_with 0%nat (EvResolve 0%nat VUndefined) w'
    /\ Ref.drafts (database w') = [].
Proof.
  destruct (removeAll_settles (Examples.fresh Examples.draftsStore)
              (fresh_well_formed _) eq_refl) as (Hok & _).
  destruct (Hok _ eq_refl) as (w' & H1 & _ & H3 & _ & H5).
  exists w'. split; [exact H1|]. split; [exact H5|]. rewrite H3. reflexivity.
Defined.

Lemma getAllDrafts_store_failure_rejects_witness :
  exists w',
    await 2 getAllDrafts
      (Examples.fresh (Ref.mkStore [] [] [] None [] false Samples.listing_fails))
    = (Ret 0%nat, w')
    /\ settled_with 0%nat (EvReject 0%nat "database is locked") w'.
Proof.
  destruct (getAllDrafts_store_failure_rejects "database is locked"
              (Ref.mkStore [] [] [] None [] false Samples.listing_fails)
              (Examples.fresh
                 (Ref.mkStore [] [] [] None [] false Samples.listing_fails))
              (fresh_well_formed _) eq_refl eq_refl ltac:(discriminate))
    as (w' & H1 & _ & _ & _ & H5).
  exists w'. split; [exact H1|exact H5].
Defined.

Lemma getAllMessages_reads_destroyed_vector_witness :
  exists o w',
    await 2 getAllMessages (Examples.fresh (Examples.storeWithMessage Ref.no_fault))
    = (o, w')
    /\ is_undefined o = true
    /\ settlements 0 w' = [].
Proof.
  destruct (getAllMessages_reads_destroyed_vector
              (Examples.fresh (Examples.storeWithMessage Ref.no_fault))
              (fresh_well_formed _) eq_refl) as (_ & Hub & _).
  destruct (Hub [Examples.message1] _ eq_refl) as (o & w' & H1 & H2 & _ & _ & H5).
  exists o, w'. split; [exact H1|]. split; [exact H2|exact H5].
Defined.

(** ** The ends of the transaction (lines 362-380) *)

Section Brackets.

Context {DB CM Rng : Type} {store : QueryExecutor DB} {crypto : Crypto CM Rng}.
Local Abbreviation World := (World DB CM Rng).

(** X13: the two ends of the transaction (lines 365 and 369), for a batch of
    supported operations and from a state of rest.  When [beginTransaction]
    throws a [std::system_error] with a message, no operation is executed
    and the promise is rejected with the message.  When every operation was
    executed and [commitTransaction] throws one, the promise is rejected
    with the message, and no store call follows the commit. *)
Theorem transaction_bracket_failures
    (operations : list Value) (ops : list MessageStoreOperation) (w : World) :
  well_formed w ->
  quiescent w = true ->
  parseOperations operations [] = Ret (inl ops) ->
  let p := nextPromise w in
  (forall (what : string) (d' : DB),
      qe_call QE_beginTransaction (database w)
      = (Throw (std_system_error what), d') ->
      what <> "" ->
      exists w',
        await 2 (processMessageStoreOperations operations) w = (Ret p, w')
        /\ storeCalls w' = storeCalls w ++ [EvStore QE_beginTransaction]
        /\ database w' = d'
        /\ settled_with p (EvReject p what) w')
  /\ (forall (what : string) (d1 dn d' : DB),
        qe_call QE_beginTransaction (database w) = (Ret tt, d1) ->
        executeOn ops d1 = (Ret tt, dn) ->
        qe_call QE_commitTransaction dn
        = (Throw (std_system_error what), d') ->
        what <> "" ->
        exists w',
          await 2 (processMessageStoreOperations operations) w = (Ret p, w')
          /\ storeCalls w'
             = storeCalls w ++ [EvStore QE_beginTransaction] ++ executions ops
                 ++ [EvStore QE_commitTransaction]
          /\ database w' = d'
          /\ settled_with p (EvReject p what) w').
Proof.
  intros Hwf Hq Hparse p.
  pose proof (well_formed_fresh w p Hwf (le_n _)) as Hfresh.
  destruct (quiescent_cases w Hq) as (Hd & Hc & Hj).
  unfold settled_with, settlements, storeCalls in *.
  destruct w as [d cm nc ss r dt ct nt jq np tr]; simpl in *. subst jq.
  split.
  - intros what d' Hbegin Hwhat. apply str_empty_false in Hwhat.
    destruct Hd as [-> | ->], Hc as [-> | ->];
      (eexists; split;
       [ run; rewrite Hparse; run; rewrite Hbegin; run; rewrite Hwhat; run;
         reflexivity |]);
      cbn; rewrite <- ?app_assoc; cbn; rewrite !filter_app, Hfresh; cbn;
      rewrite Nat.eqb_refl; repeat split; reflexivity.
  - intros what d1 dn d' Hbegin Hexec Hcommit Hwhat.
    apply str_empty_false in Hwhat.
    destruct Hd as [-> | ->], Hc as [-> | ->];
      (eexists; split;
       [ run; rewrite Hparse; run; rewrite Hbegin; run;
         erewrite executeAll_ok by (cbn; exact Hexec);
         run; rewrite Hcommit; run; rewrite Hwhat; run; reflexivity |]);
      cbn;
      rewrite !filter_app, Hfresh, executions_store_events,
        executions_no_settlement;
      cbn; rewrite Nat.eqb_refl, <- !app_assoc, ?app_nil_r; done.
Qed.

End Brackets.

Lemma transaction_bracket_failures_witness :
  exists w',
    await 2 (processMessageStoreOperations [Examples.removeOp])
      (Examples.fresh (Examples.storeWithMessage Samples.commit_fails))
    = (Ret 0%nat, w')
    /\ settled_with 0%nat (EvReject 0%nat "disk is full") w'
    /\ Ref.messages (database w') = [].
Proof.
  destruct (transaction_bracket_failures [Examples.removeOp]
              [RemoveMessagesOperation ["m1"]]
              (Examples.fresh (Examples.storeWithMessage Samples.commit_fails))
              (fresh_well_formed _) eq_refl eq_refl) as [_ Hcommit].
  destruct (Hcommit "disk is full" _ _ _ eq_refl eq_refl eq_refl
              ltac:(discriminate)) as (w' & H1 & _ & H3 & H4).
  exists w'. split; [exact H1|]. split; [exact H4|]. rewrite H3. reflexivity.
Defined.

(** ** The worker threads (lines 537-556) *)

Section Threads.

Context {DB CM Rng : Type}.
Local Abbreviation World := (World DB CM Rng).

(** X10: [initializeThreads] starts the threads that are null, with nothing
    waiting for them, and leaves alone those that exist, with the tasks
    waiting for them; it touches nothing else of the module: the store, the
    crypto module, the network client, the secure store, the source of
    randomness, the tasks waiting for the JS thread, the promises and what
    has happened stay as they are.  The three threads exist afterwards, so
    calling it again changes nothing. *)
Theorem initializeThreads_idempotent (w : World) :
  initializeThreads w
  = mkWorld (database w) (cryptoModule w) (networkClient w) (secureStore w)
      (rng w)
      (Some (default [] (databaseThread w)))
      (Some (default [] (cryptoThread w)))
      (Some (default [] (networkThread w)))
      (jsQueue w) (nextPromise w) (trace w)
  /\ initializeThreads (initializeThreads w) = initializeThreads w.
Proof.
  destruct w as [d cm nc ss r [dq|] [cq|] [nq|] jq np tr]; by cbn.
Qed.

End Threads.

(** ** Calls return before the work is done (lines 527-556) *)

Section Deferred.

Context {DB CM Rng : Type} {store : QueryExecutor DB} {crypto : Crypto CM Rng}.
Local Abbreviation World := (World DB CM Rng).
Local Abbreviation M := (@M DB CM Rng).
Local Abbreviation quiet := (@quiet DB CM Rng _).
Local Abbreviation keeps_threads := (@keeps_threads DB CM Rng _).

Lemma keeps_quiet {A} (m : M A) : quiet m -> keeps_threads m.
Proof.
  intros Hm w [Hd Hc]. destruct (m w) as [o w'] eqn:E.
  destruct (Hm _ _ _ E) as (_ & Hd' & Hc' & _). cbn.
  split; congruence.
Qed.

Lemma keeps_bind {A B} (m : M A) (f : A -> M B) :
  keeps_threads m -> (forall a, keeps_threads (f a)) -> keeps_threads (m ≫= f).
Proof.
  intros Hm Hf w Hw. specialize (Hm w Hw). unfold mbind, M_bind.
  destruct (m w) as [[a|e] w1]; [|done]. by apply Hf.
Qed.

Lemma keeps_invokeAsync (t : Task) : keeps_threads (invokeAsync t).
Proof. by intros w Hw. Qed.

Lemma keeps_resolve (p : nat) (v : Value) : keeps_threads (resolve p v).
Proof. by intros w Hw. Qed.

Lemma keeps_reject (p : nat) (msg : string) : keeps_threads (reject p msg).
Proof. by intros w Hw. Qed.

Lemma keeps_undefined (what : string) : keeps_threads (undefined what : M unit).
Proof. by intros w Hw. Qed.

Lemma keeps_scheduleOrRun (th : Worker) (t : Task) (task : M unit) :
  keeps_threads task -> keeps_threads (scheduleOrRun th t task).
Proof.
  intros Htask w Hw. unfold scheduleOrRun.
  destruct (workerThread th w) as [queue|] eqn:E; [|by apply Htask].
  destruct Hw as [Hd Hc], th; cbn; split; eauto.
Qed.

(** The parts of a job that call a collaborator and nothing else. *)
Ltac quietly :=
  repeat first
    [ progress intros
    | match goal with x : (_ * _)%type |- _ => destruct x end
    | apply quiet_ret | apply quiet_lift
    | match goal with
      | |- context [storeCall ?c] => apply (quiet_storeCall c)
      | |- context [cryptoCall ?c] => apply (quiet_cryptoCall c)
      end
    | apply quiet_newCryptoModule | apply quiet_getCryptoModule
    | apply quiet_executeAll | apply quiet_loadPersist
    | apply quiet_secureStore_get | apply quiet_secureStore_set
    | apply quiet_generateRandom
    | apply quiet_bind | apply quiet_try_catch
    | match goal with
      | |- context [match ?x with _ => _ end] => destruct x
      end ].

Ltac keeping :=
  repeat first
    [ progress intros
    | match goal with x : (_ * _)%type |- _ => destruct x end
    | apply keeps_invokeAsync | apply keeps_resolve | apply keeps_reject
    | apply keeps_undefined
    | apply keeps_bind; [apply keeps_quiet; quietly|]
    | match goal with
      | |- context [if ?b then _ else _] => destruct b
      end ].

Lemma keeps_storePersistJob (p : nat) (newPersist : Persist) :
  keeps_threads (storePersistJob p newPersist).
Proof. unfold storePersistJob. keeping. Qed.

Lemma keeps_constructJob (p : nat) (userIdStr key : string) (persist : Persist) :
  keeps_threads (constructJob p userIdStr key persist).
Proof.
  unfold constructJob.
  apply keeps_bind; [apply keeps_quiet, quiet_newCryptoModule|]. intros _.
  destruct (isEmpty persist).
  - apply keeps_bind;
      [apply keeps_quiet, (quiet_cryptoCall (CM_storeAsB64 key))|].
    intros newPersist. apply keeps_scheduleOrRun, keeps_storePersistJob.
  - keeping.
Qed.

Lemma keeps_loadPersistJob (p : nat) (userIdStr key : string) :
  keeps_threads (loadPersistJob p userIdStr key).
Proof.
  unfold loadPersistJob.
  apply keeps_bind; [apply keeps_quiet, quiet_loadPersist|].
  intros [persist error]. apply keeps_scheduleOrRun, keeps_constructJob.
Qed.

(** No task stops a worker thread. *)
Lemma keeps_runTask (t : Task) : keeps_threads (runTask t).
Proof.
  destruct t; cbn [runTask];
    try apply keeps_loadPersistJob;
    try apply keeps_constructJob;
    try apply keeps_storePersistJob;
    unfold getDraftJob, updateDraftJob, moveDraftJob, getAllDraftsJob,
      removeAllDraftsJob, removeAllMessagesJob, getAllMessagesJob,
      processOperationsJob, getUserPublicKeyJob, getUserOneTimeKeysJob,
      settle, settleDrafts, settleMessages, rejectUnsupported;
    keeping.
Qed.

Lemma keeps_threadStep (th : Thread) (w : World) (x : outcome unit * World) :
  threadStep th w = Some x -> threads_up w -> threads_up x.2.
Proof.
  intros H [Hd Hc]. destruct th as [[|]|]; cbn in H.
  - destruct (databaseThread w) as [[|t queue]|] eqn:E; simplify_eq.
    apply keeps_runTask. split; cbn; eauto.
  - destruct (cryptoThread w) as [[|t queue]|] eqn:E; simplify_eq.
    apply keeps_runTask. split; cbn; eauto.
  - destruct (jsQueue w) as [|t queue] eqn:E; simplify_eq.
    apply keeps_runTask. by split.
Qed.

(** The key under which the secure store holds the secret key. *)
Variable K : string.

(** With the worker threads there, a call does what it has to do on the
    caller's thread, reading the payload and the secret key, and leaves the
    rest to a task: it returns without a store call, without touching the
    crypto module and without settling any promise. *)
Lemma invoke_defers (c : Call) (w : World) :
  threads_up w ->
  let w' := (invoke K c w).2 in
  threads_up w'
  /\ database w' = database w
  /\ cryptoModule w' = cryptoModule w
  /\ storeCalls w' = storeCalls w
  /\ forall p, settlements p w' = settlements p w.
Proof.
  intros [[dq Hd] [cq Hc]].
  assert (forall (es : list Event) (P : Event -> bool),
             Forall (fun e => P e = false) es ->
             filter (fun e => P e = true) (trace w ++ es)
             = filter (fun e => P e = true) (trace w)) as Hnone.
  { intros es P Hes. rewrite filter_app.
    replace (filter (fun e => P e = true) es) with (@nil Event);
      [by rewrite app_nil_r|].
    symmetry. induction Hes as [|e es He _ IH]; [done|].
    rewrite filter_cons, <- IH. by rewrite decide_False by congruence. }
  unfold threads_up, storeCalls, settlements.
  destruct c; cbn [invoke]; run; rewrite ?Hd, ?Hc; run;
    repeat match goal with
           | |- context [asString ?v] => destruct (asString v); run
           | |- context [parseOperations ?l ?a] =>
               destruct (parseOperations l a) as [[?|?]|?]; run
           | |- context [secureStore w !! ?k] =>
               destruct (secureStore w !! k); run
           | |- context [generateRandomString ?n ?r] =>
               destruct (generateRandomString n r); run
           end;
    rewrite ?Hd, ?Hc; run;
    (split; [eauto|]); (split; [done|]); (split; [done|]);
    rewrite <- ?app_assoc;
    (split; [|intros p]);
    first [done | apply Hnone; repeat constructor].
Qed.

Lemma keeps_perform (a : Action) (w : World) :
  threads_up w -> threads_up (perform K a w).2.
Proof.
  intros Hw. destruct a as [c|th]; cbn [perform].
  - pose proof (invoke_defers c w Hw) as [H _].
    unfold mbind, M_bind. by destruct (invoke K c w) as [[p|e] w'].
  - unfold runThread. destruct (threadStep th w) as [x|] eqn:E; [|done].
    by eapply keeps_threadStep.
Qed.

Lemma keeps_performEach (history : list Action) :
  forall w : World, threads_up w -> threads_up (performEach K history w).
Proof.
  induction history as [|a history IH]; intros w Hw; [done|].
  cbn [performEach]. by apply IH, keeps_perform.
Qed.

(** X9: the constructor starts the worker threads and nothing stops them
    again, so on a module constructed, whatever was called and run before,
    [scheduleOrRun] never runs a task in place: every public operation
    returns to its caller without having called the store or the crypto
    module and without having settled a promise. *)
Theorem calls_leave_the_work_to_the_workers
    (d : DB) (s : gmap string string) (r : Rng)
    (history : list Action) (c : Call) :
  let w := performEach K history (newModule d s r) in
  let w' := (invoke K c w).2 in
  threads_up w
  /\ threads_up w'
  /\ database w' = database w
  /\ cryptoModule w' = cryptoModule w
  /\ storeCalls w' = storeCalls w
  /\ forall p, settlements p w' = settlements p w.
Proof.
  intros w w'.
  assert (threads_up w) as Hw.
  { apply keeps_performEach. split; cbn; eauto. }
  split; [done|]. by apply invoke_defers.
Qed.

End Deferred.

(** ** A new identity (lines 424-446) *)

Section NewIdentity.

Context {DB CM Rng : Type} {store : QueryExecutor DB} {crypto : Crypto CM Rng}.
Local Abbreviation World := (World DB CM Rng).

(** The key under which the secure store holds the secret key. *)
Variable K : string.

(** X12: initialising the account on a store that holds no account, from a
    state of rest and with the secret key in the secure store.  The
    sessions are not read; the identity is constructed from an empty state
    and the key, serialized, and the serialized form written to the store.
    When the write returns, the promise is resolved; when it throws a
    [std::system_error] with a message, the promise is rejected with that
    message (lines 433-442).  Either way the crypto module stays set. *)
Theorem new_identity_persisted_or_rejected
    (userId key : string) (w : World) (d1 : DB) (m m' : CM)
    (newPersist : Persist) :
  well_formed w ->
  quiescent w = true ->
  secureStore w !! K = Some key ->
  qe_call QE_getOlmPersistAccountData (database w) = (Ret None, d1) ->
  isEmpty emptyPersist = true ->
  cm_new userId key emptyPersist = Ret m ->
  cm_call (CM_storeAsB64 key) m = (Ret newPersist, m') ->
  let p := nextPromise w in
  (forall d2 : DB,
      qe_call (QE_storeOlmPersistData newPersist) d1 = (Ret tt, d2) ->
      exists w',
        await 4 (initializeCryptoAccount K userId) w = (Ret p, w')
        /\ quiescent w' = true
        /\ database w' = d2
        /\ cryptoModule w' = Some m'
        /\ storeCalls w'
           = storeCalls w ++ [EvStore QE_getOlmPersistAccountData;
                              EvStore (QE_storeOlmPersistData newPersist)]
        /\ settled_with p (EvResolve p VUndefined) w')
  /\ (forall (what : string) (d2 : DB),
        qe_call (QE_storeOlmPersistData newPersist) d1
        = (Throw (std_system_error what), d2) ->
        what <> "" ->
        exists w',
          await 4 (initializeCryptoAccount K userId) w = (Ret p, w')
          /\ quiescent w' = true
          /\ database w' = d2
          /\ cryptoModule w' = Some m'
          /\ storeCalls w'
             = storeCalls w ++ [EvStore QE_getOlmPersistAccountData;
                                EvStore (QE_storeOlmPersistData newPersist)]
          /\ settled_with p (EvReject p what) w').
Proof.
  intros Hwf Hq Hkey Hload Hempty Hnew Hpickle p.
  split.
  - intros d2 Hwrite.
    at_rest w Hwf Hq;
      (eexists; split;
       [ run; rewrite Hkey; run; unfold loadPersist; run; rewrite Hload; run;
         rewrite Hnew; run; rewrite Hempty; run; rewrite Hpickle; run;
         rewrite Hwrite; run; reflexivity |]);
      read_trace Hfresh.
  - intros what d2 Hwrite Hwhat. apply str_empty_false in Hwhat.
    at_rest w Hwf Hq;
      (eexists; split;
       [ run; rewrite Hkey; run; unfold loadPersist; run; rewrite Hload; run;
         rewrite Hnew; run; rewrite Hempty; run; rewrite Hpickle; run;
         rewrite Hwrite; run; rewrite Hwhat; run; reflexivity |]);
      read_trace Hfresh.
Qed.

End NewIdentity.

Lemma new_identity_persisted_or_rejected_witness :
  exists w',
    await 4 (initializeCryptoAccount Examples.K "alice")
      (newModule (Ref.mkStore [] [] [] None [] false Examples.persist_fails)
         {[ Examples.K := Examples.secretKey ]} 0%nat)
    = (Ret 0%nat, w')
    /\ settled_with 0%nat (EvReject 0%nat "disk is full") w'
    /\ is_Some (cryptoModule w').
Proof.
  destruct (new_identity_persisted_or_rejected Examples.K "alice"
              Examples.secretKey
              (newModule (Ref.mkStore [] [] [] None [] false Examples.persist_fails)
                 {[ Examples.K := Examples.secretKey ]} 0%nat)
              (Ref.mkStore [] [] [] None [] false Examples.persist_fails)
              (Ref.mkModule "alice" Examples.secretKey
                 (Ref.newAccount "alice" Examples.secretKey))
              (Ref.mkModule "alice" Examples.secretKey
                 (Ref.newAccount "alice" Examples.secretKey))
              (mkPersist (Ref.newAccount "alice" Examples.secretKey) ∅))
    as [_ Hfail].
  - apply newModule_at_rest.
  - reflexivity.
  - vm_compute. reflexivity.
  - reflexivity.
  - reflexivity.
  - reflexivity.
  - reflexivity.
  - destruct (Hfail "disk is full" _ eq_refl ltac:(discriminate))
      as (w' & H1 & _ & _ & H4 & _ & H6).
    exists w'. split; [exact H1|]. split; [exact H6|]. rewrite H4. by eexists.
Defined.

(** ** The secret key (lines 389-395) *)

Section SecretKey.

Context {DB CM Rng : Type} {store : QueryExecutor DB} {crypto : Crypto CM Rng}.
Local Abbreviation World := (World DB CM Rng).
Local Abbreviation M := (@M DB CM Rng).
Local Abbreviation keeps_secrets := (@keeps_secrets DB CM Rng _).

Lemma secrets_ret {A} (a : A) : keeps_secrets (mret a : M A).
Proof. by intros w. Qed.

Lemma secrets_lift {A} (o : outcome A) : keeps_secrets (lift o : M A).
Proof. by intros w. Qed.

Lemma secrets_storeCall (c : StoreCall) : keeps_secrets (storeCall c).
Proof.
  intros w. unfold storeCall. by destruct (qe_call c (database w)) as [r d].
Qed.

Lemma secrets_cryptoCall (c : CryptoCall) : keeps_secrets (cryptoCall c).
Proof.
  intros w. unfold cryptoCall. destruct (cryptoModule w) as [m|]; [|done].
  by destruct (cm_call c m) as [r m'].
Qed.

Lemma secrets_newCryptoModule (u k : string) (persist : Persist) :
  keeps_secrets (newCryptoModule u k persist).
Proof. intros w. unfold newCryptoModule. by destruct (cm_new u k persist). Qed.

Lemma secrets_getCryptoModule : keeps_secrets getCryptoModule.
Proof. by intros w. Qed.

Lemma secrets_resolve (p : nat) (v : Value) : keeps_secrets (resolve p v).
Proof. by intros w. Qed.

Lemma secrets_reject (p : nat) (msg : string) : keeps_secrets (reject p msg).
Proof. by intros w. Qed.

Lemma secrets_invokeAsync (t : Task) : keeps_secrets (invokeAsync t).
Proof. by intros w. Qed.

Lemma secrets_bind {A B} (m : M A) (f : A -> M B) :
  keeps_secrets m -> (forall a, keeps_secrets (f a)) -> keeps_secrets (m ≫= f).
Proof.
  intros Hm Hf w. specialize (Hm w). unfold mbind, M_bind.
  destruct (m w) as [[a|e] w1]; [|done].
  destruct (Hf a w1) as [H1 H2]. cbn in Hm. destruct Hm. split; congruence.
Qed.

Lemma secrets_try_catch {A} (body : M A) (handler : string -> M A) :
  keeps_secrets body -> (forall what, keeps_secrets (handler what)) ->
  keeps_secrets (try_catch body handler).
Proof.
  intros Hb Hh w. specialize (Hb w). unfold try_catch.
  destruct (body w) as [[a|[what| | | | |]] w1]; try done.
  destruct (Hh what w1) as [H1 H2]. cbn in Hb. destruct Hb. split; congruence.
Qed.

Lemma secrets_scheduleOrRun (th : Worker) (t : Task) (task : M unit) :
  keeps_secrets task -> keeps_secrets (scheduleOrRun th t task).
Proof.
  intros Htask w. unfold scheduleOrRun.
  destruct (workerThread th w) as [queue|]; [|by apply Htask].
  by destruct th.
Qed.

Lemma secrets_createPromise (func : nat -> M unit) :
  (forall p, keeps_secrets (func p)) ->
  keeps_secrets (createPromiseAsJSIValue func).
Proof.
  intros Hf w. unfold createPromiseAsJSIValue.
  specialize (Hf (nextPromise w) (set_nextPromise (S (nextPromise w)) w)).
  by destruct (func _ _) as [[[]|e] w1].
Qed.

Lemma secrets_executeAll (ops : list MessageStoreOperation) :
  keeps_secrets (executeAll ops).
Proof.
  induction ops as [|op ops IH]; [apply secrets_ret|].
  cbn [executeAll].
  apply secrets_bind; [apply (secrets_storeCall (OP_execute op))|].
  intros _. exact IH.
Qed.

Ltac secretly :=
  repeat first
    [ progress intros
    | match goal with x : (_ * _)%type |- _ => destruct x end
    | apply secrets_ret | apply secrets_lift
    | match goal with
      | |- context [storeCall ?c] => apply (secrets_storeCall c)
      | |- context [cryptoCall ?c] => apply (secrets_cryptoCall c)
      end
    | apply secrets_newCryptoModule | apply secrets_getCryptoModule
    | apply secrets_executeAll
    | apply secrets_resolve | apply secrets_reject | apply secrets_invokeAsync
    | apply secrets_bind | apply secrets_try_catch
    | match goal with
      | |- context [if ?b then _ else _] => destruct b
      | |- context [match ?x with _ => _ end] => destruct x
      end ].

Lemma secrets_storePersistJob (p : nat) (newPersist : Persist) :
  keeps_secrets (storePersistJob p newPersist).
Proof. unfold storePersistJob. secretly. Qed.

Lemma secrets_constructJob (p : nat) (userIdStr key : string) (persist : Persist) :
  keeps_secrets (constructJob p userIdStr key persist).
Proof.
  unfold constructJob.
  apply secrets_bind; [apply secrets_newCryptoModule|]. intros _.
  destruct (isEmpty persist).
  - apply secrets_bind; [apply (secrets_cryptoCall (CM_storeAsB64 key))|].
    intros newPersist. apply secrets_scheduleOrRun, secrets_storePersistJob.
  - secretly.
Qed.

Lemma secrets_loadPersistJob (p : nat) (userIdStr key : string) :
  keeps_secrets (loadPersistJob p userIdStr key).
Proof.
  unfold loadPersistJob.
  apply secrets_bind; [unfold loadPersist; secretly|].
  intros [persist error]. apply secrets_scheduleOrRun, secrets_constructJob.
Qed.

(** No task writes the secure store or draws from the source of
    randomness. *)
Lemma secrets_runTask (t : Task) : keeps_secrets (runTask t).
Proof.
  destruct t; cbn [runTask];
    try apply secrets_loadPersistJob;
    try apply secrets_constructJob;
    try apply secrets_storePersistJob;
    unfold getDraftJob, updateDraftJob, moveDraftJob, getAllDraftsJob,
      removeAllDraftsJob, removeAllMessagesJob, getAllMessagesJob,
      processOperationsJob, getUserPublicKeyJob, getUserOneTimeKeysJob,
      settle, settleDrafts, settleMessages, rejectUnsupported, undefined;
    secretly.
Qed.

Lemma secrets_submit (th : Worker) (job : nat -> Task) :
  keeps_secrets (createPromiseAsJSIValue (fun promise => submit th (job promise))).
Proof.
  apply secrets_createPromise. intros p.
  apply secrets_scheduleOrRun, secrets_runTask.
Qed.

Lemma secrets_runThread (th : Thread) : keeps_secrets (runThread th).
Proof.
  intros w. unfold runThread, threadStep.
  destruct th as [[|]|]; cbn.
  - destruct (databaseThread w) as [[|t queue]|]; try done.
    apply (secrets_runTask t (set_workerThread DatabaseWorker (Some queue) w)).
  - destruct (cryptoThread w) as [[|t queue]|]; try done.
    apply (secrets_runTask t (set_workerThread CryptoWorker (Some queue) w)).
  - destruct (jsQueue w) as [|t queue]; try done.
    apply (secrets_runTask t (set_jsQueue queue w)).
Qed.

(** The key under which the secure store holds the secret key. *)
Variable K : string.

(** With the secret key there, the call reads it and generates none. *)
Lemma initializeCryptoAccount_keeps_secrets (userId key : string) (w : World) :
  secureStore w !! K = Some key ->
  secureStore (initializeCryptoAccount K userId w).2 = secureStore w
  /\ rng (initializeCryptoAccount K userId w).2 = rng w.
Proof.
  intros Hkey. unfold initializeCryptoAccount, mbind, M_bind, secureStore_get.
  cbn. rewrite Hkey. cbn.
  apply (secrets_submit DatabaseWorker (fun p => LoadPersistJob p userId key)).
Qed.

Lemma invoke_keeps_secrets (c : Call) (w : World) (key : string) :
  secureStore w !! K = Some key ->
  secureStore (invoke K c w).2 = secureStore w /\ rng (invoke K c w).2 = rng w.
Proof.
  intros Hkey.
  destruct c; cbn [invoke];
    try apply (secrets_submit DatabaseWorker);
    try apply (secrets_submit CryptoWorker).
  - unfold updateDraft.
    apply secrets_bind; [apply secrets_lift|]. intros keyStr.
    apply secrets_bind; [apply secrets_lift|]. intros textStr.
    apply (secrets_submit DatabaseWorker (fun p => UpdateDraftJob p keyStr textStr)).
  - unfold processMessageStoreOperations.
    apply secrets_bind; [apply secrets_lift|]. intros [ops|op_type].
    + apply (secrets_submit DatabaseWorker (fun p => ProcessOperationsJob p ops)).
    + apply secrets_createPromise. intros p. apply secrets_invokeAsync.
  - by eapply initializeCryptoAccount_keeps_secrets.
Qed.

Lemma perform_keeps_secrets (a : Action) (w : World) (key : string) :
  secureStore w !! K = Some key ->
  secureStore (perform K a w).2 = secureStore w /\ rng (perform K a w).2 = rng w.
Proof.
  intros Hkey. destruct a as [c|th]; cbn [perform];
    [|apply secrets_runThread].
  pose proof (invoke_keeps_secrets c w key Hkey) as H.
  unfold mbind, M_bind. by destruct (invoke K c w) as [[p|e] w'].
Qed.

(** X14: once the secure store holds a secret key, nothing the module does
    replaces it: whatever operations are called and whatever tasks run, in
    whatever order, the secure store stays as it is and no random string is
    generated.  [initializeCryptoAccount] generates a key only when it finds
    none (line 391), and no task writes the secure store. *)
Theorem secret_key_is_never_replaced (history : list Action) :
  forall (w : World) (key : string),
    secureStore w !! K = Some key ->
    secureStore (performEach K history w) = secureStore w
    /\ rng (performEach K history w) = rng w.
Proof.
  induction history as [|a history IH]; intros w key Hkey; [done|].
  cbn [performEach].
  destruct (perform_keeps_secrets a w key Hkey) as [Hs Hr].
  destruct (IH (perform K a w).2 key) as [Hs' Hr']; [by rewrite Hs|].
  split; congruence.
Qed.

End SecretKey.

Lemma secret_key_is_never_replaced_witness :
  secureStore
    (performEach Examples.K Examples.busyHistory
       (newModule (Examples.storeWithMessage Examples.rekey_fails)
          {[ Examples.K := Examples.secretKey ]} 0%nat))
  = {[ Examples.K := Examples.secretKey ]}.
Proof.
  destruct (secret_key_is_never_replaced Examples.K Examples.busyHistory
              (newModule (Examples.storeWithMessage Examples.rekey_fails)
                 {[ Examples.K := Examples.secretKey ]} 0%nat)
              Examples.secretKey) as [H _].
  - vm_compute. reflexivity.
  - exact H.
Defined.
